(** * The configuration store of web_config.c

    A shallow embedding of the INI reader and the two INI writers of
    [src/web_config.c] ([read_config_value], [write_config_value],
    [write_config_batch]), of the service-stop helper [stop_rkipc] and of
    the tail of [handle_config_update], followed by the properties of the
    configuration store that are stated about them.

    C strings are lists of characters; a file is the list of its bytes.
    The operating system is an explicit environment: which calls fail, and
    what [flock] meets. *)

From Stdlib Require Import Ascii String List Arith ZArith Bool Lia.
From stdpp Require Import base decidable option list strings.

Local Open Scope list_scope.

(** ** Characters and C strings *)

Abbreviation cstring := (list ascii).

Definition NUL : ascii := "000"%char.
Definition TAB : ascii := "009"%char.
Definition LF : ascii := "010"%char.
Definition CR : ascii := "013"%char.

(** The text of a string literal. *)
Definition s2l (s : string) : cstring := list_ascii_of_string s.

(** [before stop s] is the part of [s] in front of the first character
    accepted by [stop] (the whole of [s] when there is none); [after stop s]
    is what follows that character. *)
Fixpoint before (stop : ascii -> bool) (s : cstring) : cstring :=
  match s with
  | [] => []
  | c :: r => if stop c then [] else c :: before stop r
  end.

Fixpoint after (stop : ascii -> bool) (s : cstring) : cstring :=
  match s with
  | [] => []
  | c :: r => if stop c then r else after stop r
  end.

Definition is_char (a : ascii) : ascii -> bool := fun c => Ascii.eqb c a.
Definition is_eol : ascii -> bool := fun c => Ascii.eqb c CR || Ascii.eqb c LF.

(** A buffer read as a C string ends at its first NUL. *)
Definition c_str (buf : cstring) : cstring := before (is_char NUL) buf.

(** [strstr(line, "=")] and [strchr(line, '=')] *)
Definition has_eq (line : cstring) : bool := existsb (is_char "="%char) line.

(** [line[0] == '['] *)
Definition is_header (line : cstring) : bool :=
  match line with
  | c :: _ => Ascii.eqb c "["%char
  | [] => false
  end.

(** [strncpy(dst, src, n)] into an array of [n + 1] bytes, read back as a C
    string.  A source shorter than [n] is copied whole and padded with NUL.
    Of a source of [n] characters or more the first [n] are copied and no
    NUL is written; where the caller stores one itself ([value] in
    [read_config_value], [body_copy]) the string read back is that copy.
    The arrays [file_key] and [file_value] and the fields of [updates] are
    neither initialised nor terminated by their callers: there the copy is
    what is read back only if the byte after it happens to be NUL, and the
    source does not determine what is read otherwise.  The properties that
    depend on the key or value of a line, or on the value of an update,
    are therefore stated for texts shorter than these arrays ([key_fits],
    [value_fits]). *)
Definition strncpy (n : nat) (src : cstring) : cstring := take n src.

(** *** trim_string *)

Definition is_blank (c : ascii) : bool := Ascii.eqb c " "%char || Ascii.eqb c TAB.
Definition is_trailing (c : ascii) : bool :=
  Ascii.eqb c " "%char || Ascii.eqb c TAB || Ascii.eqb c CR || Ascii.eqb c LF.

Fixpoint skip_leading (s : cstring) : cstring :=
  match s with
  | [] => []
  | c :: r => if is_blank c then skip_leading r else s
  end.

Fixpoint drop_trailing (s : cstring) : cstring :=
  match s with
  | [] => []
  | c :: r =>
      match drop_trailing r with
      | [] => if is_trailing c then [] else [c]
      | r' => c :: r'
      end
  end.

Definition trim_string (str : cstring) : cstring := drop_trailing (skip_leading str).

(** *** sscanf(line, "[%127[^]]]", current_section)

    After the opening bracket the conversion takes the longest run of
    characters other than the closing bracket, at most 127 of them; with an
    empty run nothing is stored and [current_section] keeps its value. *)
Definition sscanf_section (line current : cstring) : cstring :=
  match line with
  | c :: rest =>
      if Ascii.eqb c "["%char then
        match take 127 (before (is_char "]"%char) rest) with
        | [] => current
        | name => name
        end
      else current
  | [] => current
  end.

(** *** fgets and the lines of a file *)

Definition LINE_SIZE : nat := 512.

Fixpoint fgets_take (room : nat) (fp : cstring) : cstring * cstring :=
  match room, fp with
  | S room', c :: rest =>
      if Ascii.eqb c LF then ([c], rest)
      else let '(l, rest') := fgets_take room' rest in (c :: l, rest')
  | _, _ => ([], fp)
  end.

(** [fgets(line, size, fp)]: nothing at end of file, else at most [size - 1]
    bytes, up to and including the first newline.  The result is the line as
    the C string the caller sees, and the rest of the stream. *)
Definition fgets (size : nat) (fp : cstring) : option (cstring * cstring) :=
  match fp with
  | [] => None
  | _ => let '(buf, rest) := fgets_take (size - 1) fp in Some (c_str buf, rest)
  end.

(** [while (fgets(line, sizeof(line), fp))]: the lines handed to the loop
    body, in order.  Every call that returns a line consumes a byte, so the
    length of the stream bounds the number of iterations. *)
Fixpoint read_lines (fuel : nat) (fp : cstring) : list cstring :=
  match fuel with
  | 0 => []
  | S fuel' =>
      match fgets LINE_SIZE fp with
      | None => []
      | Some (line, rest) => line :: read_lines fuel' rest
      end
  end.

Definition file_lines (content : cstring) : list cstring :=
  read_lines (length content) content.

(** A loop over the lines that carries a state and writes to the output
    stream: the text written, piece by piece, is collected in order. *)
Fixpoint scan {St : Type} (body : St -> cstring -> St * list cstring)
    (st : St) (lines : list cstring) : St * list cstring :=
  match lines with
  | [] => (st, [])
  | line :: rest =>
      let '(st1, w1) := body st line in
      let '(st2, w2) := scan body st1 rest in
      (st2, w1 ++ w2)
  end.

(** ** read_config_value *)

(** The strings [file_key] and [file_value] after [strncpy] and
    [trim_string], for a line whose text in front of the equals sign is
    shorter than 127 bytes and whose text after it is shorter than 255
    bytes (see [strncpy] for longer ones). *)
Definition file_key_of (line : cstring) : cstring :=
  trim_string (strncpy 127 (before (is_char "="%char) line)).

Definition file_value_of (line : cstring) : cstring :=
  trim_string (strncpy 255 (after (is_char "="%char) line)).

(** The loop of [read_config_value] over the lines, for a buffer of
    [value_size] bytes, [value_size] not 0 (the source computes
    [value_size - 1] in [size_t] and stores the terminator at that
    index). *)
Fixpoint read_loop (sec k : cstring) (value_size : nat) (lines : list cstring)
    (current_section : cstring) (in_section : bool) : option cstring :=
  match lines with
  | [] => None
  | raw :: rest =>
      let line := before is_eol raw in
      if is_header line then
        let cur := trim_string (sscanf_section line current_section) in
        read_loop sec k value_size rest cur (bool_decide (cur = sec))
      else if in_section && has_eq line then
        if bool_decide (file_key_of line = k)
        then Some (strncpy (value_size - 1) (file_value_of line))
        else read_loop sec k value_size rest current_section in_section
      else read_loop sec k value_size rest current_section in_section
  end.

(** The scan of [read_config_value] over the content of the file. *)
Definition read_scan (content sec k : cstring) (value_size : nat) : option cstring :=
  read_loop sec k value_size (file_lines content) [] false.

(** ** The batch entries *)

Record ConfigEntry := mkEntry {
  section : cstring;
  key : cstring;
  value : cstring;
  updated : bool
}.

Definition mark_updated (e : ConfigEntry) : ConfigEntry :=
  mkEntry (section e) (key e) (value e) true.

Definition reset_updated (e : ConfigEntry) : ConfigEntry :=
  mkEntry (section e) (key e) (value e) false.

(** [fprintf(out, "%s = %s\n", key, value)] *)
Definition key_value_line (k v : cstring) : cstring :=
  k ++ s2l " = " ++ v ++ [LF].

(** [fprintf(out, "\n[%s]\n%s = %s\n", section, key, value)], line by line *)
Definition new_section_text (s k v : cstring) : list cstring :=
  [ [LF]; s2l "[" ++ s ++ s2l "]" ++ [LF]; key_value_line k v ].

(** ** write_config_value: the rewrite of the file *)

Record value_state := mkValueState {
  v_current_section : cstring;
  v_in_section : bool;
  key_updated : bool;
  section_found : bool
}.

Definition value_line (sec k new_value : cstring) (st : value_state) (line : cstring)
    : value_state * list cstring :=
  if is_header line then
    let w := if v_in_section st && negb (key_updated st)
             then [key_value_line k new_value] else [] in
    let upd := key_updated st || v_in_section st in
    let cur := trim_string (sscanf_section line (v_current_section st)) in
    let ins := bool_decide (cur = sec) in
    (mkValueState cur ins upd (section_found st || ins), w ++ [line])
  else if v_in_section st && negb (key_updated st) && has_eq line
          && bool_decide (file_key_of line = k) then
    (mkValueState (v_current_section st) (v_in_section st) true (section_found st),
     [key_value_line k new_value])
  else (st, [line]).

Definition value_eof (sec k new_value : cstring) (st : value_state) : list cstring :=
  if v_in_section st && negb (key_updated st) then [key_value_line k new_value]
  else if negb (section_found st) then new_section_text sec k new_value
  else [].

Definition value_writes (content sec k new_value : cstring) : list cstring :=
  let '(st, w) := scan (value_line sec k new_value)
                       (mkValueState [] false false false) (file_lines content) in
  w ++ value_eof sec k new_value st.

(** The text [write_config_value] leaves in the temporary file. *)
Definition value_output (content sec k new_value : cstring) : cstring :=
  concat (value_writes content sec k new_value).

(** ** write_config_batch: the rewrite of the file *)

(** The loop that appends the entries of section [cur] not yet written:
    [if (!entries[i].updated && strcmp(entries[i].section, cur) == 0)]. *)
Fixpoint append_missing (cur : cstring) (es : list ConfigEntry)
    : list ConfigEntry * list cstring :=
  match es with
  | [] => ([], [])
  | e :: rest =>
      let '(rest', w) := append_missing cur rest in
      if negb (updated e) && bool_decide (section e = cur)
      then (mark_updated e :: rest', key_value_line (key e) (value e) :: w)
      else (e :: rest', w)
  end.

Record batch_state := mkBatchState {
  current_section : cstring;
  in_section : bool;
  entries : list ConfigEntry
}.

Definition targets (cur fk : cstring) (e : ConfigEntry) : Prop :=
  section e = cur /\ key e = fk.

#[global] Instance targets_dec cur fk e : Decision (targets cur fk e).
Proof. unfold targets. apply _. Defined.

Definition close_section (st : batch_state) : list ConfigEntry * list cstring :=
  if in_section st then append_missing (current_section st) (entries st)
  else (entries st, []).

Definition batch_line (st : batch_state) (line : cstring) : batch_state * list cstring :=
  if is_header line then
    let '(es, w) := close_section st in
    (mkBatchState (trim_string (sscanf_section line (current_section st))) true es,
     w ++ [line])
  else if in_section st && has_eq line then
    match list_find (targets (current_section st) (file_key_of line)) (entries st) with
    | Some (match_idx, e) =>
        (mkBatchState (current_section st) (in_section st)
                      (<[match_idx := mark_updated e]> (entries st)),
         [key_value_line (key e) (value e)])
    | None => (st, [line])
    end
  else (st, [line]).

(** The closing loop over the entries whose section was never met; [n] is
    the number of iterations left, [es] the entries from the current index
    on.  The inner look-ahead is the same test and the same [fprintf] as
    [append_missing], against the section of the entry just written. *)
Fixpoint missing_sections (n : nat) (es : list ConfigEntry)
    : list ConfigEntry * list cstring :=
  match n, es with
  | S n', e :: rest =>
      if updated e then
        let '(rest', w) := missing_sections n' rest in (e :: rest', w)
      else
        let '(rest1, w1) := append_missing (section e) rest in
        let '(rest2, w2) := missing_sections n' rest1 in
        (mark_updated e :: rest2,
         new_section_text (section e) (key e) (value e) ++ w1 ++ w2)
  | _, _ => (es, [])
  end.

Definition batch_writes (content : cstring) (es : list ConfigEntry) : list cstring :=
  let '(st, w) := scan batch_line
                       (mkBatchState [] false (map reset_updated es))
                       (file_lines content) in
  let '(es1, w1) := close_section st in
  let '(_, w2) := missing_sections (length es1) es1 in
  w ++ w1 ++ w2.

(** The text [write_config_batch] leaves in the temporary file. *)
Definition batch_output (content : cstring) (es : list ConfigEntry) : cstring :=
  concat (batch_writes content es).

(** ** The file system, the lock and the system calls *)

(** The two paths the writers touch: [CONFIG_FILE] and the temporary file
    [CONFIG_FILE.tmp.<pid>] next to it; [None] is an absent file. *)
Record FileSys := mkFS {
  config_file : option cstring;
  temp_file : option cstring
}.

(** What [flock(lock_fd, LOCK_EX)] meets: a free lock, a lock another
    caller holds and gives up after [n] ticks ([Some n]) or never ([None]),
    or an error of the call itself. *)
Inductive lock_env :=
  | LockFree
  | LockHeld (release : option nat)
  | LockError.

Record Env := mkEnv {
  open_fails : bool;        (* open(CONFIG_FILE, O_RDONLY) *)
  lock : lock_env;          (* flock(lock_fd, LOCK_EX) *)
  fopen_fails : bool;       (* fopen(CONFIG_FILE, "r") *)
  fopen_temp_fails : bool;  (* fopen(temp_file, "w") *)
  rename_fails : bool       (* rename(temp_file, CONFIG_FILE) *)
}.

Inductive Command := Killall | Pgrep | KillallForce | StartRkipc.

Inductive Event :=
  | EvOpen (ok : bool)
  | EvFlock (ok : bool) (waited : nat)
  | EvFopen (ok : bool)
  | EvFopenTemp (ok : bool)
  | EvWriteTemp (text : cstring)
  | EvRename (ok : bool)
  | EvUnlink
  | EvUnlock
  | EvClose
  | EvSystem (cmd : Command) (status : Z)
  | EvUsleep (usec : Z).

(** The call is made without [LOCK_NB]: it returns once the lock is
    granted, after waiting for as long as another caller holds it, and has
    no result when that caller never lets go. *)
Definition flock_ex (l : lock_env) : option (bool * nat) :=
  match l with
  | LockFree => Some (true, 0)
  | LockHeld (Some n) => Some (true, n)
  | LockHeld None => None
  | LockError => Some (false, 0)
  end.

(** The calls both writers make around their rewrite loop, in the order of
    the source; [rewrite] is the loop, from the content read to the text
    written.  The result is the returned [int], the files afterwards and
    the calls made; [None] when the function never returns.  The source
    does not look at the results of [fputs], [fprintf], [fclose] and
    [unlink]: the writes to the temporary file and its removal are taken
    to succeed. *)
Definition locked_rewrite (rewrite : cstring -> cstring) (env : Env) (fs : FileSys)
    : option (Z * FileSys * list Event) :=
  match config_file fs with
  | None => Some (0%Z, fs, [EvOpen false])
  | Some content =>
      if open_fails env then Some (0%Z, fs, [EvOpen false]) else
      match flock_ex (lock env) with
      | None => None
      | Some (false, t) => Some (0%Z, fs, [EvOpen true; EvFlock false t; EvClose])
      | Some (true, t) =>
          if fopen_fails env then
            Some (0%Z, fs, [EvOpen true; EvFlock true t; EvFopen false; EvUnlock; EvClose])
          else if fopen_temp_fails env then
            Some (0%Z, fs, [EvOpen true; EvFlock true t; EvFopen true; EvFopenTemp false;
                            EvUnlock; EvClose])
          else
            let text := rewrite content in
            let calls := [EvOpen true; EvFlock true t; EvFopen true; EvFopenTemp true;
                          EvWriteTemp text] in
            if rename_fails env then
              Some (0%Z, mkFS (config_file fs) None,
                    calls ++ [EvRename false; EvUnlink; EvUnlock; EvClose])
            else
              Some (1%Z, mkFS (Some text) None,
                    calls ++ [EvRename true; EvUnlock; EvClose])
      end
  end.

Definition write_config_value (sec k new_value : cstring) (env : Env) (fs : FileSys)
    : option (Z * FileSys * list Event) :=
  locked_rewrite (fun content => value_output content sec k new_value) env fs.

Definition write_config_batch (es : list ConfigEntry) (env : Env) (fs : FileSys)
    : option (Z * FileSys * list Event) :=
  locked_rewrite (fun content => batch_output content es) env fs.

(** [read_config_value]: 1 and the value, or 0. *)
Definition read_config_value (sec k : cstring) (value_size : nat) (fopen_ok : bool)
    (fs : FileSys) : Z * option cstring :=
  match config_file fs with
  | Some content =>
      if fopen_ok then
        match read_scan content sec k value_size with
        | Some v => (1%Z, Some v)
        | None => (0%Z, None)
        end
      else (0%Z, None)
  | None => (0%Z, None)
  end.

(** ** stop_rkipc and handle_config_update *)

(** The statuses [system] returns for the commands the server runs; only
    the status of [pgrep] is looked at by the source. *)
Record ProcEnv := mkProcEnv {
  killall_status : Z;        (* system("killall -q rkipc") *)
  pgrep_status : nat -> Z;   (* system("pgrep rkipc ..."), poll by poll *)
  force_status : Z;          (* system("killall -9 rkipc") *)
  start_status : Z           (* the command line that starts rkipc *)
}.

(** The polling loop [while (retries < 50)]; [left] is 50 minus [retries].
    The result is the list of calls made. *)
Fixpoint stop_poll (left retries : nat) (penv : ProcEnv) : list Event :=
  match left with
  | 0 => [EvSystem KillallForce (force_status penv); EvUsleep 100000%Z]
  | S left' =>
      EvSystem Pgrep (pgrep_status penv retries) ::
      if negb (Z.eqb (pgrep_status penv retries) 0) then []
      else EvUsleep 100000%Z :: stop_poll left' (S retries) penv
  end.

Definition stop_rkipc (penv : ProcEnv) : list Event :=
  EvSystem Killall (killall_status penv) :: stop_poll 50 0 penv.

Inductive Response :=
  | RespEmptyBody          (* {"error":"Empty request body"} *)
  | RespSaved (n : nat)    (* {"success":true,"updated":n,...} *)
  | RespWriteFailed        (* {"success":false,"error":"Failed to write config file"} *)
  | RespNoUpdates.         (* {"success":false,"error":"No valid updates found"} *)

Section HandleConfigUpdate.

(** The translation of the request body into entries (the [strtok] loop
    of the source, which keeps at most 32 of them) is left open: what
    follows holds whatever it yields. *)
Variable parse_updates : cstring -> list ConfigEntry.

Definition handle_config_update (body : cstring) (penv : ProcEnv) (env : Env)
    (fs : FileSys) : option (Response * FileSys * list Event) :=
  match body with
  | [] => Some (RespEmptyBody, fs, [])
  | _ =>
      let updates := parse_updates body in
      let update_count := length updates in
      if (0 <? update_count)%nat then
        let stop := stop_rkipc penv in
        match write_config_batch updates env fs with
        | None => None
        | Some (success, fs', calls) =>
            let start := [EvSystem StartRkipc (start_status penv)] in
            let response := if negb (Z.eqb success 0) then RespSaved update_count
                            else RespWriteFailed in
            Some (response, fs', stop ++ calls ++ start)
        end
      else Some (RespNoUpdates, fs, [])
  end.

End HandleConfigUpdate.


(** * The rest of the server

    The functions of [src/web_config.c] around the configuration store:
    the one-time migration, the parser of the request body, the
    authentication and the routing of a request, and the status helpers.

    Where the C standard leaves the behaviour of the program undefined (a
    write past the end of an array, a number that does not fit an [int],
    the use of an array that was never filled in), the model says so
    instead of picking a result. *)

From Stdlib Require Import DecimalString.

Inductive Outcome (A : Type) :=
  | Done (a : A)     (* the function returns *)
  | Hangs            (* the function never returns *)
  | Undefined.       (* the behaviour of the program is undefined *)

Arguments Done {A} a.
Arguments Hangs {A}.
Arguments Undefined {A}.

(** ** Numbers and their text *)

Definition INT_MIN : Z := (- 2147483648)%Z.
Definition INT_MAX : Z := 2147483647%Z.

Definition in_int (z : Z) : bool := (INT_MIN <=? z)%Z && (z <=? INT_MAX)%Z.

(** [isspace] in the C locale *)
Definition is_space (c : ascii) : bool :=
  Ascii.eqb c " "%char || Ascii.eqb c TAB || Ascii.eqb c LF ||
  Ascii.eqb c "011"%char || Ascii.eqb c "012"%char || Ascii.eqb c CR.

Definition digit_of (c : ascii) : option Z :=
  let n := Z.of_nat (nat_of_ascii c) in
  if (48 <=? n)%Z && (n <=? 57)%Z then Some (n - 48)%Z else None.

Fixpoint digits_value (acc : Z) (s : cstring) : Z :=
  match s with
  | [] => acc
  | c :: r =>
      match digit_of c with
      | Some d => digits_value (10 * acc + d)%Z r
      | None => acc
      end
  end.

Fixpoint skip_spaces (s : cstring) : cstring :=
  match s with
  | [] => []
  | c :: r => if is_space c then skip_spaces r else s
  end.

(** The number [atoi] reads: white space, an optional sign, then the
    longest run of decimal digits (0 when there is none). *)
Definition decimal_value (s : cstring) : Z :=
  match skip_spaces s with
  | c :: r =>
      if Ascii.eqb c "-"%char then (- digits_value 0 r)%Z
      else if Ascii.eqb c "+"%char then digits_value 0 r
      else digits_value 0 (c :: r)
  | [] => 0%Z
  end.

(** [atoi(s)]: undefined when the number does not fit an [int]. *)
Definition atoi (s : cstring) : option Z :=
  if in_int (decimal_value s) then Some (decimal_value s) else None.

(** The text [sprintf] writes for ["%d"]. *)
Definition itoa (z : Z) : cstring := s2l (NilEmpty.string_of_int (Z.to_int z)).

(** ** check_and_migrate_config *)

(** The files under [/userdata]: the configuration file with its
    temporary file, and whether the marker [.migrated_v2.1_v8] exists. *)
Record Userdata := mkUserdata {
  files : FileSys;
  migrated : bool
}.

(** What the migration meets: the environment of each of its five calls
    of [write_config_value], and whether the marker can be created. *)
Record MigrationEnv := mkMigrationEnv {
  write_env : nat -> Env;
  marker_fopen_fails : bool
}.

(** A call of [write_config_value] whose result is not looked at, after
    the calls made so far. *)
Definition then_write (sec k v : string) (env : Env)
    (sofar : option (FileSys * list Event)) : option (FileSys * list Event) :=
  match sofar with
  | None => None
  | Some (fs, calls) =>
      match write_config_value (s2l sec) (s2l k) (s2l v) env fs with
      | None => None
      | Some (_, fs', calls') => Some (fs', calls ++ calls')
      end
  end.

(** The result is the state of [/userdata] afterwards and the calls made
    to stop and start the service and to rewrite the file ([None] when a
    call never returns).  The log, [sleep] and [sync] leave the files of
    the model alone and are not recorded; nothing else writes to the
    configuration file between the calls. *)
Definition check_and_migrate_config (menv : MigrationEnv) (penv : ProcEnv) (ud : Userdata)
    : option (Userdata * list Event) :=
  if migrated ud then Some (ud, []) else
  let w0 := Some (files ud, stop_rkipc penv) in
  let w1 := then_write "storage.0" "enable" "1" (write_env menv 0) w0 in
  let w2 := then_write "storage.0" "folder_name" "recordings" (write_env menv 1) w1 in
  let w3 := then_write "storage.0" "file_duration" "120" (write_env menv 2) w2 in
  let w4 := then_write "video.jpeg" "enable_cycle_snapshot" "1" (write_env menv 3) w3 in
  let w5 := then_write "video.jpeg" "snapshot_interval_ms" "30000" (write_env menv 4) w4 in
  match w5 with
  | None => None
  | Some (fs', calls) =>
      Some (mkUserdata fs' (negb (marker_fopen_fails menv)),
            calls ++ [EvSystem StartRkipc (start_status penv)])
  end.

(** ** get_snapshot_status and send_config_data *)

(** A buffer that holds [dflt] and is handed to [read_config_value]: the
    value read when the call finds one, else what the buffer held. *)
Definition read_or (dflt : string) (sec k : string) (value_size : nat)
    (fopen_ok : bool) (fs : FileSys) : cstring :=
  match read_config_value (s2l sec) (s2l k) value_size fopen_ok fs with
  | (_, Some v) => v
  | (_, None) => s2l dflt
  end.

Definition get_snapshot_status (fopen_ok : bool) (fs : FileSys) : option Z :=
  let value := read_or "0" "video.jpeg" "enable_cycle_snapshot" 32 fopen_ok fs in
  match atoi value with
  | Some n => Some (if (n =? 1)%Z then 1%Z else 0%Z)
  | None => None
  end.

(** The answer of [send_config_data]: the ten names of the JSON object
    with their values, in the order of the format string.  [fopen_ok i]
    tells whether the [i]-th call of [read_config_value] can open the
    file.  (The ten values, of at most 255 characters each, fit the
    buffers of 32768 bytes the text is printed into.) *)
Definition send_config_data (fopen_ok : nat -> bool) (fs : FileSys)
    : list (cstring * cstring) :=
  let storage_enable := read_or "1" "storage.0" "enable" 32 (fopen_ok 0) fs in
  let folder_name := read_or "recordings" "storage.0" "folder_name" 256 (fopen_ok 1) fs in
  let file_duration := read_or "120" "storage.0" "file_duration" 32 (fopen_ok 2) fs in
  let rtsp_enable := read_or "1" "video.source" "enable_rtsp" 32 (fopen_ok 3) fs in
  let width := read_or "2304" "video.0" "width" 32 (fopen_ok 4) fs in
  let height := read_or "1296" "video.0" "height" 32 (fopen_ok 5) fs in
  let max_rate := read_or "2048" "video.0" "max_rate" 32 (fopen_ok 6) fs in
  let output_data_type :=
    read_or "H.265" "video.0" "output_data_type" 32 (fopen_ok 7) fs in
  let snapshot_enable :=
    read_or "1" "video.jpeg" "enable_cycle_snapshot" 32 (fopen_ok 8) fs in
  let snapshot_interval :=
    read_or "30000" "video.jpeg" "snapshot_interval_ms" 32 (fopen_ok 9) fs in
  [ (s2l "storage_enable", storage_enable);
    (s2l "folder_name", folder_name);
    (s2l "file_duration", file_duration);
    (s2l "rtsp_enable", rtsp_enable);
    (s2l "width", width);
    (s2l "height", height);
    (s2l "max_rate", max_rate);
    (s2l "output_data_type", output_data_type);
    (s2l "snapshot_enable", snapshot_enable);
    (s2l "snapshot_interval", snapshot_interval) ].

(** ** The request body of handle_config_update *)

Definition BODY_SIZE : nat := 4096.

(** The C string that starts at index [p] of a buffer. *)
Definition c_str_at (buf : cstring) (p : nat) : cstring := c_str (drop p buf).

(** [strncpy(body_copy, body, 4095); body_copy[4095] = 0]: the first 4095
    characters of the body, then NUL up to the end of the array. *)
Definition body_buffer (body : cstring) : cstring :=
  take (BODY_SIZE - 1) (c_str body)
  ++ replicate (BODY_SIZE - length (take (BODY_SIZE - 1) (c_str body))) NUL.

(** Bytes written into an array from index [p] on; nothing when they do
    not fit. *)
Definition poke (buf : cstring) (p : nat) (bytes : cstring) : option cstring :=
  if p + length bytes <=? length buf
  then Some (take p buf ++ bytes ++ drop (p + length bytes) buf)
  else None.

Definition is_amp : ascii -> bool := is_char "&"%char.
Definition is_equals : ascii -> bool := is_char "="%char.

(** [strtok(s, "&")] with its saved position, as the C standard has it.
    The search starts at the saved position and skips the separators; the
    token found runs up to the next separator, which is overwritten by NUL
    and after which the next search starts, or up to the end of the
    string, after which every search finds nothing.  The result is the
    token found, the buffer and the position saved.  (A library that
    keeps the position of the final NUL instead can find one more token
    there, the end of a converted number printed over that NUL; it holds
    no equals sign and gives no update.) *)
Definition strtok (buf : cstring) (save : option nat)
    : option nat * cstring * option nat :=
  match save with
  | None => (None, buf, None)
  | Some s0 =>
      let s := s0 + length (before (fun c => negb (is_amp c)) (c_str_at buf s0)) in
      match c_str_at buf s with
      | [] => (None, buf, None)
      | token =>
          let e := s + length (before is_amp token) in
          if existsb is_amp token
          then (Some s, <[e := NUL]> buf, Some (S e))
          else (Some s, buf, None)
      end
  end.

(** The chain of [strcmp]: the section and key of the file for a name of
    the form, and the factor of the two values that are converted. *)
Definition translate (name : cstring) : option (string * string * option Z) :=
  if bool_decide (name = s2l "storage_enable") then Some ("storage.0", "enable", None)
  else if bool_decide (name = s2l "folder_name")
       then Some ("storage.0", "folder_name", None)
  else if bool_decide (name = s2l "file_duration")
       then Some ("storage.0", "file_duration", Some 60%Z)
  else if bool_decide (name = s2l "rtsp_enable")
       then Some ("video.source", "enable_rtsp", None)
  else if bool_decide (name = s2l "width") then Some ("video.0", "width", None)
  else if bool_decide (name = s2l "height") then Some ("video.0", "height", None)
  else if bool_decide (name = s2l "max_rate") then Some ("video.0", "max_rate", None)
  else if bool_decide (name = s2l "output_data_type")
       then Some ("video.0", "output_data_type", None)
  else if bool_decide (name = s2l "snapshot_enable")
       then Some ("video.jpeg", "enable_cycle_snapshot", None)
  else if bool_decide (name = s2l "snapshot_interval")
       then Some ("video.jpeg", "snapshot_interval_ms", Some 1000%Z)
  else None.

(** The entry [updates[update_count]] as the three calls of [strncpy]
    fill it in; its [updated] field is set by [write_config_batch].  The
    section and the key are copied from literals shorter than 63 bytes.
    The array [updates] is not initialised: a value of 255 bytes or more
    leaves [value] without terminator (see [strncpy]), and what is stated
    about the values of the updates is stated for values shorter than
    that. *)
Definition new_update (sec ini_key : string) (v : cstring) : ConfigEntry :=
  mkEntry (strncpy 63 (s2l sec)) (strncpy 63 (s2l ini_key)) (strncpy 255 v) false.

(** The body of the loop for the token at [pair]: the buffer and the
    updates afterwards.  A converted value is printed over the text it was
    read from, at [value]; nothing is returned when the program has no
    defined behaviour ([atoi] or the product out of range, a conversion
    that writes past the end of [body_copy]). *)
Definition parse_pair (buf : cstring) (pair : nat) (updates : list ConfigEntry)
    : option (cstring * list ConfigEntry) :=
  let token := c_str_at buf pair in
  if existsb is_equals token then
    let eq := pair + length (before is_equals token) in
    let buf1 := <[eq := NUL]> buf in
    let name := c_str_at buf1 pair in
    let value := S eq in
    match translate name with
    | None => Some (buf1, updates)
    | Some (sec, ini_key, None) =>
        Some (buf1, updates ++ [new_update sec ini_key (c_str_at buf1 value)])
    | Some (sec, ini_key, Some factor) =>
        match atoi (c_str_at buf1 value) with
        | None => None
        | Some val =>
            if in_int (val * factor) then
              match poke buf1 value (itoa (val * factor) ++ [NUL]) with
              | None => None
              | Some buf2 =>
                  Some (buf2, updates ++ [new_update sec ini_key (c_str_at buf2 value)])
              end
            else None
        end
    end
  else Some (buf, updates).

Inductive parse_result :=
  | Parsed (updates : list ConfigEntry)
  | ParseUndefined
  | ParseUnfinished.

(** [while (pair != NULL && update_count < 32)]; every token is at least
    one byte of the buffer further on, so that [fuel] iterations, from
    the size of the buffer, are enough ([ParseUnfinished] otherwise). *)
Fixpoint parse_pairs (fuel : nat) (buf : cstring) (pair save : option nat)
    (updates : list ConfigEntry) : parse_result :=
  match pair with
  | None => Parsed updates
  | Some p =>
      if 32 <=? length updates then Parsed updates else
      match fuel with
      | 0 => ParseUnfinished
      | S fuel' =>
          match parse_pair buf p updates with
          | None => ParseUndefined
          | Some (buf1, updates1) =>
              let '(pair', buf2, save') := strtok buf1 save in
              parse_pairs fuel' buf2 pair' save' updates1
          end
      end
  end.

(** The updates [handle_config_update] takes from the body of a request. *)
Definition parse_body (body : cstring) : parse_result :=
  let '(first, buf, save) := strtok (body_buffer body) (Some 0) in
  parse_pairs BODY_SIZE buf first save [].

(** ** check_auth *)

Definition AUTH_BASE64 : cstring := s2l "YWRtaW46bHVja2ZveA==".

Fixpoint starts_with (needle hay : cstring) : bool :=
  match needle, hay with
  | [], _ => true
  | a :: needle', b :: hay' => Ascii.eqb a b && starts_with needle' hay'
  | _ :: _, [] => false
  end.

(** [strstr(hay, needle)]: the string from the first occurrence on. *)
Fixpoint strstr (hay needle : cstring) : option cstring :=
  if starts_with needle hay then Some hay
  else match hay with
       | [] => None
       | _ :: rest => strstr rest needle
       end.

Definition ends_token (c : ascii) : bool :=
  Ascii.eqb c CR || Ascii.eqb c LF || Ascii.eqb c " "%char.

(** The characters after ["Basic "] up to the first carriage return,
    newline or blank are copied into [clean], an array of 256 zero bytes,
    without a bound: from 257 characters on the copy writes past its end.
    With 256 characters [clean] has no NUL left, and [strcmp] stops at the
    NUL of [AUTH_BASE64] before it reaches the end of the array. *)
Definition check_auth (auth_header : option cstring) : option Z :=
  match auth_header with
  | None => Some 0%Z
  | Some header =>
      match strstr header (s2l "Basic ") with
      | None => Some 0%Z
      | Some found =>
          let encoded := drop 6 found in
          let clean := before ends_token encoded in
          if 256 <? length clean then None
          else Some (if bool_decide (clean = AUTH_BASE64) then 1%Z else 0%Z)
      end
  end.

(** ** handle_request *)

(** A conversion [%Ns] of [sscanf]: white space is skipped, then at most
    [width] characters other than white space are taken; nothing is
    stored at the end of the input.  The result is the word and the rest
    of the input. *)
Definition scan_word (width : nat) (s : cstring) : option (cstring * cstring) :=
  match skip_spaces s with
  | [] => None
  | s1 => let w := take width (before is_space s1) in Some (w, drop (length w) s1)
  end.

(** [sscanf(buffer, "%15s %255s", method, path)]: what is stored in
    [method] and in [path]; an array that is not stored into keeps the
    indeterminate bytes it was declared with. *)
Definition sscanf_request (buffer : cstring) : option cstring * option cstring :=
  match scan_word 15 buffer with
  | None => (None, None)
  | Some (method, rest) =>
      match scan_word 255 rest with
      | None => (Some method, None)
      | Some (path, _) => (Some method, Some path)
      end
  end.

(** What [handle_request] sends before it closes the connection. *)
Inductive Reply :=
  | ReplyNothing                   (* nothing is sent *)
  | ReplyUnauthorized              (* send_unauthorized *)
  | ReplyHtml                      (* send_html *)
  | ReplyStatus (snapshot_enabled : Z)   (* send_status *)
  | ReplyConfigData (cd : list (cstring * cstring))   (* send_config_data *)
  | ReplyUpdate (r : Response)     (* handle_config_update *)
  | ReplyMissingBody               (* {"error":"Missing request body"} *)
  | ReplyRestart                   (* handle_restart_rkipc *)
  | ReplyNotFound.                 (* 404 Not Found *)

(** What a request meets: the processes, the environment of the writer,
    and whether the calls of [read_config_value] the request leads to
    (one in [send_status], ten in [send_config_data]) can open the
    file. *)
Record RequestEnv := mkRequestEnv {
  req_proc : ProcEnv;
  req_env : Env;
  req_fopen_ok : nat -> bool
}.

(** [received] holds the bytes [recv] delivered, at most 8191 of them.
    The result is the answer, the files afterwards and the calls made by
    [handle_config_update].  Of the status, the field [snapshot_enabled]
    is read from the configuration file by [get_snapshot_status], whose
    [atoi] has no defined result for a number that does not fit an [int];
    the other fields are asked from the system (the processes, the
    recordings directory, the clock, [/proc/meminfo], [df]) and are not
    part of the model.  The page and the restart of the service do not
    open the configuration file; their text and their calls are not part
    of the model, and neither is the log. *)
Definition handle_request (received : cstring) (renv : RequestEnv) (fs : FileSys)
    : Outcome (Reply * FileSys * list Event) :=
  match take 8191 received with
  | [] => Done (ReplyNothing, fs, [])
  | bytes =>
      let buffer := c_str bytes in
      let '(method, path) := sscanf_request buffer in
      let auth_line := strstr buffer (s2l "Authorization:") in
      match check_auth auth_line with
      | None => Undefined
      | Some ok =>
          if (ok =? 0)%Z then Done (ReplyUnauthorized, fs, []) else
          match method, path with
          | Some method, Some path =>
              if bool_decide (path = s2l "/") then Done (ReplyHtml, fs, [])
              else if bool_decide (path = s2l "/api/status") then
                match get_snapshot_status (req_fopen_ok renv 0) fs with
                | Some snapshot_enabled => Done (ReplyStatus snapshot_enabled, fs, [])
                | None => Undefined
                end
              else if bool_decide (path = s2l "/api/config") then
                if bool_decide (method = s2l "GET")
                then Done (ReplyConfigData (send_config_data (req_fopen_ok renv) fs), fs, [])
                else if bool_decide (method = s2l "POST") then
                  match strstr buffer [CR; LF; CR; LF] with
                  | Some found =>
                      let body := drop 4 found in
                      match parse_body body with
                      | Parsed updates =>
                          match handle_config_update (fun _ => updates) body
                                  (req_proc renv) (req_env renv) fs with
                          | Some (r, fs', calls) => Done (ReplyUpdate r, fs', calls)
                          | None => Hangs
                          end
                      | _ => Undefined
                      end
                  | None => Done (ReplyMissingBody, fs, [])
                  end
                else Done (ReplyNothing, fs, [])
              else if bool_decide (path = s2l "/api/restart")
                      && bool_decide (method = s2l "POST")
              then Done (ReplyRestart, fs, [])
              else Done (ReplyNotFound, fs, [])
          | _, _ => Undefined
          end
      end
  end.

(** ** The status helpers *)

(** [get_rtsp_status]: the status of the port check, and of [pgrep] when
    the port check fails. *)
Definition get_rtsp_status (netstat_status pgrep_result : Z) : Z :=
  if (netstat_status =? 0)%Z then 1%Z
  else if (pgrep_result =? 0)%Z then 1%Z else 0%Z.

(** An entry of the recordings directory: its name and what [stat] gives
    for it, whether it is a regular file and its modification time. *)
Record DirEntry := mkDirEntry {
  d_name : cstring;
  d_stat : option (bool * Z)
}.

Definition hidden (e : DirEntry) : bool :=
  match d_name e with
  | c :: _ => Ascii.eqb c "."%char
  | [] => false
  end.

(** The loop over [readdir]: the value of [newest_mtime]. *)
Fixpoint newest_mtime (acc : Z) (dir : list DirEntry) : Z :=
  match dir with
  | [] => acc
  | e :: rest =>
      if hidden e then newest_mtime acc rest
      else match d_stat e with
           | Some (true, mtime) =>
               newest_mtime (if (acc <? mtime)%Z then mtime else acc) rest
           | _ => newest_mtime acc rest
           end
  end.

Definition RECORDING_TIMEOUT : Z := 300%Z.

(** [rtsp] is the result of [get_rtsp_status], [dir] what [opendir] and
    [readdir] deliver, [now] the result of [time].  (The path handed to
    [stat] fits its buffer of 512 bytes for every name of a directory
    entry.) *)
Definition get_recording_status (rtsp : Z) (dir : option (list DirEntry)) (now : Z) : Z :=
  if (rtsp =? 0)%Z then 0%Z
  else match dir with
       | None => 0%Z
       | Some entries =>
           if (now - newest_mtime 0 entries <? RECORDING_TIMEOUT)%Z then 1%Z else 0%Z
       end.

(** The conversion of a [long] to [int]: the value itself when it fits,
    else (where [long] is wider than [int]) the value modulo 2^32, as gcc
    and clang define the conversion. *)
Definition long_to_int (z : Z) : Z :=
  ((z - INT_MIN) mod 2 ^ 32 + INT_MIN)%Z.

(** [get_uptime]: the three numbers, computed in [long] with the division
    of C and stored in [int] variables, and the text. *)
Definition uptime_days (uptime : Z) : Z := long_to_int (Z.quot uptime 86400).
Definition uptime_hours (uptime : Z) : Z := long_to_int (Z.quot (Z.rem uptime 86400) 3600).
Definition uptime_minutes (uptime : Z) : Z := long_to_int (Z.quot (Z.rem uptime 3600) 60).

Definition get_uptime (sysinfo : option Z) : cstring :=
  match sysinfo with
  | None => s2l "unknown"
  | Some uptime =>
      let days := uptime_days uptime in
      let hours := uptime_hours uptime in
      let minutes := uptime_minutes uptime in
      if (0 <? days)%Z then
        itoa days ++ s2l "d " ++ itoa hours ++ s2l "h " ++ itoa minutes ++ s2l "m"
      else if (0 <? hours)%Z then itoa hours ++ s2l "h " ++ itoa minutes ++ s2l "m"
      else itoa minutes ++ s2l "m"
  end.

(** ** The LEDs *)

Definition LED1_BIT : Z := 5%Z.
Definition LED2_BIT : Z := 6%Z.
Definition LED3_BIT : Z := 7%Z.

(** A 32-bit word. *)
Definition uint32 (z : Z) : Z := (z mod 2 ^ 32)%Z.

(** The word [set_led] writes to the data register; nothing is written
    when the registers are not mapped. *)
Definition set_led_word (bit state : Z) : Z :=
  uint32 (Z.lor (Z.shiftl 1 (bit + 16))
                (Z.shiftl (if (state =? 0)%Z then 0 else 1) bit)).

Definition set_led (mapped : bool) (bit state : Z) : list Z :=
  if mapped then [set_led_word bit state] else [].

(** * Vocabulary of the properties *)

(** ** Texts and lines *)

Definition free_of (stop : ascii -> bool) (s : cstring) : Prop :=
  Forall (fun c => stop c = false) s.

(** A text file holds no NUL byte. *)
Definition text (D : cstring) : Prop := free_of (is_char NUL) D.

(** A file whose last line, if any, is ended by a newline. *)
Definition complete_text (D : cstring) : Prop :=
  D = [] \/ exists D', D = D' ++ [LF].

(** The shapes of what [fgets] delivers from a text: a line with its
    newline, of at most 511 bytes; the first 511 bytes of a longer line;
    and, at the end of the file only, a shorter line without newline. *)
Definition full_line (l : cstring) : Prop :=
  exists body, l = body ++ [LF] /\ free_of (is_char LF) body /\ length l <= 511.

Definition cut_line (l : cstring) : Prop :=
  length l = 511 /\ free_of (is_char LF) l.

Definition chunk_ok (l : cstring) : Prop := full_line l \/ cut_line l.

Definition partial_line (l : cstring) : Prop :=
  l <> [] /\ free_of (is_char LF) l /\ length l < 511.

Inductive chunks : list cstring -> Prop :=
  | chunks_nil : chunks []
  | chunks_last l : partial_line l -> chunks [l]
  | chunks_cons l ls : chunk_ok l -> chunks ls -> chunks (l :: ls).

(** ** Well-formed names, keys and values *)

(** Keys, values and section names that a written line gives back to the
    line parser of the writers: a key that [trim_string] leaves alone,
    without equals sign, newline or NUL and not starting with a bracket; a
    value without newline or NUL; a section name that is not empty, that
    [trim_string] leaves alone, without closing bracket, newline or NUL.
    The lengths are those the fields of [ConfigEntry] allow. *)
Record key_ok (K : cstring) : Prop := {
  key_trim : trim_string K = K;
  key_no_eq : free_of (is_char "="%char) K;
  key_no_lf : free_of (is_char LF) K;
  key_no_nul : free_of (is_char NUL) K;
  key_no_bracket : is_header K = false;
  key_length : length K <= 63
}.

Record value_ok (V : cstring) : Prop := {
  value_no_lf : free_of (is_char LF) V;
  value_no_nul : free_of (is_char NUL) V;
  value_length : length V <= 255
}.

Record section_ok (S : cstring) : Prop := {
  section_nonempty : S <> [];
  section_trim : trim_string S = S;
  section_no_bracket : free_of (is_char "]"%char) S;
  section_no_lf : free_of (is_char LF) S;
  section_no_nul : free_of (is_char NUL) S;
  section_length : length S <= 63
}.

(** An entry whose fields are well formed, with a section name free of
    carriage returns. *)
Record entry_ok (e : ConfigEntry) : Prop := {
  entry_section : section_ok (section e);
  entry_section_no_cr : free_of (is_char CR) (section e);
  entry_key : key_ok (key e);
  entry_value : value_ok (value e)
}.

(** An entry whose three strings are C strings: they hold no NUL. *)
Definition entry_text (e : ConfigEntry) : Prop :=
  text (section e) /\ text (key e) /\ text (value e).

(** A value that [read_config_value] gives back as it is from the line
    written for it, into a buffer of [value_size] bytes: with the blank
    in front of it the value is shorter than the 255 bytes copied into
    [file_value]. *)
Record readable (value_size : nat) (V : cstring) : Prop := {
  readable_trim : trim_string V = V;
  readable_no_eol : free_of is_eol V;
  readable_length : length V <= 253;
  readable_fits : length V < value_size
}.

(** ** Lines that fit the arrays of the line parser

    The writers copy the text in front of the first equals sign of a line
    with [strncpy(file_key, ..., 127)]; the reader does the same and
    copies the text after it, up to the first carriage return or newline,
    with [strncpy(file_value, ..., 255)].  Neither array is initialised or
    terminated by hand.  A line fits when the first text is shorter than
    127 bytes and the second shorter than 255 bytes: both arrays then hold
    the terminated strings that [file_key_of] and [file_value_of] stand
    for. *)
Definition key_fits (line : cstring) : bool :=
  negb (has_eq line) || (length (before (is_char "="%char) line) <? 127).

Definition value_fits (line : cstring) : bool :=
  length (after (is_char "="%char) (before is_eol line)) <? 255.

(** A document whose lines fit the array of the writers, and one whose
    lines fit the arrays of the reader as well. *)
Definition keys_fit (D : cstring) : Prop := forallb key_fits (file_lines D) = true.

Definition lines_fit (D : cstring) : Prop :=
  forallb (fun l => key_fits l && value_fits l) (file_lines D) = true.

(** A value whose line, as the writers print it, fits the arrays of the
    reader. *)
Definition value_short (V : cstring) : Prop := length V <= 253.

Definition header_line (S : cstring) : cstring := s2l "[" ++ S ++ s2l "]" ++ [LF].

(** A header line that the reader and the writers read alike: the text up
    to its closing bracket (up to the end of the line when it has none)
    holds neither carriage return nor newline. *)
Definition header_ok (h : cstring) : Prop :=
  is_header h = true -> free_of is_eol (before (is_char "]"%char) (tail h)).

Definition headers_ok (D : cstring) : Prop := Forall header_ok (file_lines D).

(** ** Sections and key lines of a document *)

(** The section names the scan of a writer goes through: the value of
    [current_section] after each header line. *)
Fixpoint sections_from (cur : cstring) (lines : list cstring) : list cstring :=
  match lines with
  | [] => []
  | l :: r =>
      if is_header l
      then trim_string (sscanf_section l cur)
           :: sections_from (trim_string (sscanf_section l cur)) r
      else sections_from cur r
  end.

Definition doc_sections (D : cstring) : list cstring := sections_from [] (file_lines D).

(** The section a line is read in: none before the first header line, then
    the name the last header line left in [current_section]. *)
Definition next_context (ctx : option cstring) (line : cstring) : option cstring :=
  if is_header line
  then Some (trim_string (sscanf_section line (default [] ctx)))
  else ctx.

Fixpoint context_after (ctx : option cstring) (lines : list cstring) : option cstring :=
  match lines with
  | [] => ctx
  | l :: r => context_after (next_context ctx l) r
  end.

(** A key line targeted by the batch: a line that is not a header, holds
    an equals sign, and whose key, in the section it is read in, is that of
    an entry of the batch for that section. *)
Definition targeted (es : list ConfigEntry) (ctx : option cstring) (line : cstring) : bool :=
  negb (is_header line) && has_eq line &&
  match ctx with
  | Some cur => bool_decide (Exists (targets cur (file_key_of line)) es)
  | None => false
  end.

(** The lines of a document that are not targeted, in order. *)
Fixpoint untargeted (es : list ConfigEntry) (ctx : option cstring) (lines : list cstring)
    : list cstring :=
  match lines with
  | [] => []
  | l :: r =>
      if targeted es ctx l then untargeted es (next_context ctx l) r
      else l :: untargeted es (next_context ctx l) r
  end.

(** A key line of section [S] for key [K], read in context [ctx]. *)
Definition key_line (S K : cstring) (ctx : option cstring) (line : cstring) : bool :=
  negb (is_header line) && has_eq line &&
  bool_decide (ctx = Some S /\ file_key_of line = K).

(** The number of key lines of section [S] for key [K]. *)
Fixpoint key_lines (S K : cstring) (ctx : option cstring) (lines : list cstring) : nat :=
  match lines with
  | [] => 0
  | l :: r =>
      (if key_line S K ctx l then 1 else 0) + key_lines S K (next_context ctx l) r
  end.

(** The lines with every key line of [S] for [K] replaced by [K = V]. *)
Fixpoint rewritten (S K V : cstring) (ctx : option cstring) (lines : list cstring)
    : list cstring :=
  match lines with
  | [] => []
  | l :: r =>
      (if key_line S K ctx l then key_value_line K V else l)
      :: rewritten S K V (next_context ctx l) r
  end.

(** No key line of [S] for [K] among the lines, and no header line read
    inside [S]: the scan neither rewrites nor appends a line for [K]. *)
Fixpoint no_write (S K : cstring) (ctx : option cstring) (lines : list cstring) : bool :=
  match lines with
  | [] => true
  | l :: r =>
      negb (is_header l && bool_decide (ctx = Some S)) &&
      negb (key_line S K ctx l) &&
      no_write S K (next_context ctx l) r
  end.

(** ** Batches and the states of the writers *)

(** An entry not yet written to the output. *)
Definition pending (e : ConfigEntry) : Prop := updated e = false.

Definition entry_line (e : ConfigEntry) : cstring := key_value_line (key e) (value e).

(** The sections of a batch, each once, in the order of their first entry. *)
Fixpoint first_sections (es : list ConfigEntry) : list cstring :=
  match es with
  | [] => []
  | e :: r => section e :: filter (fun s => s <> section e) (first_sections r)
  end.

(** A new section: an empty line, the header, and the lines of all the
    entries of the batch for that section, in the order of the batch. *)
Definition section_block (es : list ConfigEntry) (s : cstring) : list cstring :=
  [LF] :: (s2l "[" ++ s ++ s2l "]" ++ [LF])
       :: map entry_line (filter (fun e => section e = s) es).

Definition synthesized (es : list ConfigEntry) : list cstring :=
  flat_map (section_block es) (first_sections es).

(** Two states of a batch that differ in the [updated] flags only. *)
Definition same_entries (es1 es2 : list ConfigEntry) : Prop :=
  map reset_updated es1 = map reset_updated es2.

(** The context a state of [write_config_batch] stands for. *)
Definition context_of (st : batch_state) : option cstring :=
  if in_section st then Some (current_section st) else None.

Definition state_ok (st : batch_state) : Prop :=
  in_section st = false -> current_section st = [].

(** The states of the two writers that stand for a context, for a batch
    of the single entry [(S, K, V)]. *)
Definition in_context (ctx : option cstring) : bool :=
  match ctx with Some _ => true | None => false end.

Definition state_at (S K V : cstring) (ctx : option cstring) (upd : bool) : batch_state :=
  mkBatchState (default [] ctx) (in_context ctx) [mkEntry S K V upd].

Definition value_state_at (S : cstring) (ctx : option cstring) (upd found : bool)
    : value_state :=
  mkValueState (default [] ctx) (bool_decide (ctx = Some S)) upd found.

(** The writes at the end of the file, from the state the scan ends in. *)
Definition eof_writes (st : batch_state) : list cstring :=
  let '(es1, w1) := close_section st in
  let '(_, w2) := missing_sections (length es1) es1 in
  w1 ++ w2.

(** All that is written from a state on: the output of the scan of the
    lines, then the writes at the end of the file. *)
Definition total_writes (st : batch_state) (lines : list cstring) : list cstring :=
  let '(st', w) := scan batch_line st lines in w ++ eof_writes st'.

(** The first entry of a batch for section [S] and key [K]. *)
Definition first_target (S K : cstring) (es : list ConfigEntry) (e1 : ConfigEntry) : Prop :=
  exists before_it after_it,
    es = before_it ++ e1 :: after_it /\
    Forall (fun e => ~ targets S K e) before_it /\
    targets S K e1.

(** The first entry of the batch for [(S, K)] carries the value [V] and is
    not yet written. *)
Definition awaiting (S K V : cstring) (es : list ConfigEntry) : Prop :=
  exists before_it e1 after_it,
    es = before_it ++ e1 :: after_it /\
    Forall (fun e => ~ targets S K e) before_it /\
    targets S K e1 /\ value e1 = V /\ pending e1.

(** The entries of a state whose section has been current are written,
    except those of the section the scan is in; the others are pending. *)
Definition visited_ok (visited : list cstring) (st : batch_state) : Prop :=
  (forall e, e ∈ entries st -> pending e -> section e ∈ visited ->
     in_section st = true /\ section e = current_section st) /\
  (forall e, e ∈ entries st -> section e ∉ visited -> pending e) /\
  (in_section st = true -> current_section st ∈ visited).

(** The scan of [read_config_value] from a context. *)
Definition read_from (S K : cstring) (value_size : nat) (ctx : option cstring)
    (lines : list cstring) : option cstring :=
  read_loop S K value_size lines (default [] ctx) (bool_decide (ctx = Some S)).

(** ** Environments and calls *)

(** An environment in which every call succeeds at once. *)
Definition calm : Env := mkEnv false LockFree false false false.

Definition with_lock (l : lock_env) (env : Env) : Env :=
  mkEnv (open_fails env) l (fopen_fails env) (fopen_temp_fails env) (rename_fails env).

(** The polls and the forced kill in a list of calls. *)
Definition is_poll (ev : Event) : bool :=
  match ev with EvSystem Pgrep _ => true | _ => false end.

Definition is_forced_kill (ev : Event) : bool :=
  match ev with EvSystem KillallForce _ => true | _ => false end.

Definition polls (calls : list Event) : nat := length (List.filter is_poll calls).

Definition forced (calls : list Event) : bool := existsb is_forced_kill calls.

Definition reported (res : option (Response * FileSys * list Event)) : option Response :=
  option_map (fun x => fst (fst x)) res.

(** ** Documents and entries of the examples *)

(** An entry as the caller fills it in. *)
Definition entry (s k v : string) : ConfigEntry := mkEntry (s2l s) (s2l k) (s2l v) false.

(** The documents of scenarios A, B and C. *)
Definition docA : cstring := s2l "[storage.0]
enable = 0
folder_name = recordings
".

Definition docB : cstring := s2l "[a]
x = 1
".

Definition docC : cstring := s2l "[a]
x = 1
[b]
y = 2
".

(** A section with two lines for the same key, and a section in two
    blocks. *)
Definition doc_duplicate : cstring := s2l "[s]
k = 1
k = 2
".

Definition doc_split : cstring := s2l "[s]
[t]
[s]
k = 1
".

(** A header line with a carriage return inside its brackets. *)
Definition doc_cr : cstring :=
  s2l "[a" ++ [CR] ++ s2l "b]
k = 1
".


(** ** Vocabulary of the further properties *)

(** A document the reader and the writers agree on: a text whose last
    line is ended by a newline and whose header lines they read alike. *)
Record well_formed (D : cstring) : Prop := {
  wf_text : text D;
  wf_complete : complete_text D;
  wf_headers : headers_ok D
}.

Definition ends_lf (l : cstring) : Prop := exists l', l = l' ++ [LF].

(** Pieces of output whose last one, if any, ends with a newline. *)
Definition closed (ls : list cstring) : Prop :=
  forall l, last ls = Some l -> ends_lf l.

(** All that [write_config_value] writes from a state on. *)
Definition value_total (S K V : cstring) (st : value_state) (lines : list cstring)
    : list cstring :=
  let '(st', w) := scan (value_line S K V) st lines in w ++ value_eof S K V st'.

(** The entries marked as written have their line in the output. *)
Definition written_in (w : list cstring) (es : list ConfigEntry) : Prop :=
  forall e, e ∈ es -> updated e = true -> entry_line e ∈ w.

(** An environment in which a writer goes through: every call succeeds,
    the lock is free or given up after a while. *)
Record succeeds (env : Env) : Prop := {
  ok_open : open_fails env = false;
  ok_lock : exists t, flock_ex (lock env) = Some (true, t);
  ok_fopen : fopen_fails env = false;
  ok_fopen_temp : fopen_temp_fails env = false;
  ok_rename : rename_fails env = false
}.

(** The section and key of an entry. *)
Definition place (e : ConfigEntry) : cstring * cstring := (section e, key e).

(** A section name, key and value that a writer can be given and the
    reader gives back, into a buffer of [value_size] bytes. *)
Record write_ok (value_size : nat) (w : cstring * cstring * cstring) : Prop := {
  wo_section : section_ok w.1.1;
  wo_section_cr : free_of (is_char CR) w.1.1;
  wo_key : key_ok w.1.2;
  wo_key_cr : free_of (is_char CR) w.1.2;
  wo_value : value_ok w.2;
  wo_readable : readable value_size w.2
}.

(** The document after calls of [write_config_value] that go through, one
    after the other. *)
Definition write_all (ws : list (cstring * cstring * cstring)) (D : cstring) : cstring :=
  fold_left (fun D w => value_output D w.1.1 w.1.2 w.2) ws D.

(** The values the migration writes. *)
Definition migration_values : list (cstring * cstring * cstring) :=
  [ (s2l "storage.0", s2l "enable", s2l "1");
    (s2l "storage.0", s2l "folder_name", s2l "recordings");
    (s2l "storage.0", s2l "file_duration", s2l "120");
    (s2l "video.jpeg", s2l "enable_cycle_snapshot", s2l "1");
    (s2l "video.jpeg", s2l "snapshot_interval_ms", s2l "30000") ].

(** ** The request body, field by field *)

(** The fields of a body: the texts between its separators, in order. *)
Fixpoint fields (s : cstring) : list cstring :=
  match s with
  | [] => [[]]
  | c :: r =>
      if is_amp c then [] :: fields r
      else match fields r with
           | f :: fs => (c :: f) :: fs
           | [] => [[c]]
           end
  end.

(** What a field does to the updates. *)
Inductive field_step :=
  | FieldUndefined                           (* no defined behaviour *)
  | FieldNext (updates : list ConfigEntry)   (* the fields after it are read *)
  | FieldLast (updates : list ConfigEntry).  (* the fields after it are lost *)

(** The field [f] that starts at index [off] of the body.  A field
    without equals sign, or with a name that is not in the table, is
    passed over.  A converted value takes the place of the text it was
    read from: a conversion that is longer than that text runs over the
    separator and the start of the next field, and nothing is read after
    it; a conversion that ends after index 4095 has no defined
    behaviour. *)
Definition parse_field (off : nat) (f : cstring) (updates : list ConfigEntry)
    : field_step :=
  if existsb is_equals f then
    let name := before is_equals f in
    let v := after is_equals f in
    match translate name with
    | None => FieldNext updates
    | Some (sec, ini_key, None) => FieldNext (updates ++ [new_update sec ini_key v])
    | Some (sec, ini_key, Some factor) =>
        match atoi v with
        | None => FieldUndefined
        | Some val =>
            if in_int (val * factor) then
              let converted := itoa (val * factor) in
              if BODY_SIZE <? off + length name + 1 + length converted + 1
              then FieldUndefined
              else if length converted <=? length v
              then FieldNext (updates ++ [new_update sec ini_key converted])
              else FieldLast (updates ++ [new_update sec ini_key converted])
            else FieldUndefined
        end
    end
  else FieldNext updates.

(** The updates taken from the fields of a body, the first of them at
    index [off]: empty fields are passed over, and nothing is read once
    there are 32 updates. *)
Fixpoint parse_fields (off : nat) (updates : list ConfigEntry) (fs : list cstring)
    : parse_result :=
  match fs with
  | [] => Parsed updates
  | f :: rest =>
      if 32 <=? length updates then Parsed updates
      else match f with
           | [] => parse_fields (off + 1) updates rest
           | _ =>
               match parse_field off f updates with
               | FieldUndefined => ParseUndefined
               | FieldNext updates' => parse_fields (off + length f + 1) updates' rest
               | FieldLast updates' => Parsed updates'
               end
           end
  end.

(** The update a field stands for, when its name is one of the eight
    that are not converted. *)
Definition plain_update (f : cstring) : option ConfigEntry :=
  if existsb is_equals f then
    match translate (before is_equals f) with
    | Some (sec, ini_key, None) => Some (new_update sec ini_key (after is_equals f))
    | _ => None
    end
  else None.

(** A field whose value is converted. *)
Definition converted_field (f : cstring) : bool :=
  existsb is_equals f &&
  match translate (before is_equals f) with
  | Some (_, _, Some _) => true
  | _ => false
  end.

(** The ten places of the configuration file a request can write to. *)
Definition form_places : list (cstring * cstring) :=
  [ (s2l "storage.0", s2l "enable");
    (s2l "storage.0", s2l "folder_name");
    (s2l "storage.0", s2l "file_duration");
    (s2l "video.source", s2l "enable_rtsp");
    (s2l "video.0", s2l "width");
    (s2l "video.0", s2l "height");
    (s2l "video.0", s2l "max_rate");
    (s2l "video.0", s2l "output_data_type");
    (s2l "video.jpeg", s2l "enable_cycle_snapshot");
    (s2l "video.jpeg", s2l "snapshot_interval_ms") ].

(** An update as the loop makes them. *)
Definition form_update (e : ConfigEntry) : Prop := place e ∈ form_places.

(** The index of the field that follows the fields [fs], each of them
    with its separator. *)
Definition fields_end (fs : list cstring) : nat :=
  length (concat (map (fun f => f ++ ["&"%char]) fs)).

(** ** Requests *)

(** [needle] occurs in [hay]. *)
Definition occurs_in (needle hay : cstring) : Prop :=
  exists a b, hay = a ++ needle ++ b.

(** A request that holds, after ["Authorization:"], the text ["Basic "]
    followed by the expected token. *)
Definition carries_credentials (buffer : cstring) : Prop :=
  exists a b c,
    buffer = a ++ s2l "Authorization:" ++ b ++ s2l "Basic " ++ AUTH_BASE64 ++ c.

(** The string functions see the bytes received up to the first NUL. *)
Definition request_text (received : cstring) : cstring := c_str (take 8191 received).

(** The number of characters of a string that are not white space. *)
Fixpoint ink (s : cstring) : nat :=
  match s with
  | [] => 0
  | c :: r => (if is_space c then 0 else 1) + ink r
  end.

(** The request a browser sends for [POST /api/config] with the
    credentials and the body [body]. *)
Definition update_request (body : cstring) : cstring :=
  s2l "POST /api/config HTTP/1.1" ++ [CR; LF]
  ++ s2l "Authorization: Basic " ++ AUTH_BASE64 ++ [CR; LF; CR; LF] ++ body.

(** The request for [GET /api/config] with the credentials. *)
Definition config_request : cstring :=
  s2l "GET /api/config HTTP/1.1" ++ [CR; LF]
  ++ s2l "Authorization: Basic " ++ AUTH_BASE64 ++ [CR; LF; CR; LF].

(** * Properties *)

(** ** Strings *)

Lemma free_of_app stop s t : free_of stop (s ++ t) <-> free_of stop s /\ free_of stop t.
Proof. apply Forall_app. Qed.

Lemma before_free stop s : free_of stop s -> before stop s = s.
Proof. induction 1 as [|c r Hc _ IH]; simpl; [done|]. by rewrite Hc, IH. Qed.

Lemma before_stop stop p x r :
  free_of stop p -> stop x = true -> before stop (p ++ x :: r) = p.
Proof.
  induction 1 as [|c p Hc _ IH]; simpl; intros Hx; [by rewrite Hx|].
  by rewrite Hc, IH.
Qed.

Lemma after_stop stop p x r :
  free_of stop p -> stop x = true -> after stop (p ++ x :: r) = r.
Proof.
  induction 1 as [|c p Hc _ IH]; simpl; intros Hx; [by rewrite Hx|].
  by rewrite Hc, IH.
Qed.

Lemma before_is_free stop s : free_of stop (before stop s).
Proof.
  induction s as [|c r IH]; simpl; [constructor|].
  destruct (stop c) eqn:E; [constructor|]. by constructor.
Qed.

Lemma c_str_free buf : free_of (is_char NUL) buf -> c_str buf = buf.
Proof. apply before_free. Qed.

Lemma existsb_free stop s : free_of stop s -> existsb stop s = false.
Proof. induction 1 as [|c r Hc _ IH]; simpl; [done|]. by rewrite Hc, IH. Qed.

Lemma existsb_stop (stop : ascii -> bool) p x r : stop x = true -> existsb stop (p ++ x :: r) = true.
Proof.
  intros Hx. rewrite existsb_app. simpl. rewrite Hx. by rewrite orb_true_r.
Qed.

(** ** The lines [fgets] delivers *)

Lemma fgets_take_full n body rest :
  free_of (is_char LF) body -> length body < n ->
  fgets_take n (body ++ LF :: rest) = (body ++ [LF], rest).
Proof.
  intros Hb. revert n. induction Hb as [|c b Hc _ IH]; intros n Hn.
  - destruct n; [simpl in Hn; lia|]. done.
  - destruct n; [simpl in Hn; lia|]. simpl in *.
    unfold is_char in Hc. rewrite Hc. rewrite IH by lia. done.
Qed.

Lemma fgets_take_cut n l rest :
  free_of (is_char LF) l -> length l = n -> fgets_take n (l ++ rest) = (l, rest).
Proof.
  intros Hl. revert n. induction Hl as [|c b Hc _ IH]; intros n Hn.
  - simpl in Hn. subst n. by destruct rest.
  - destruct n; [simpl in Hn; lia|]. simpl in *.
    unfold is_char in Hc. rewrite Hc. rewrite IH by lia. done.
Qed.

Lemma fgets_take_partial n l :
  free_of (is_char LF) l -> length l <= n -> fgets_take n l = (l, []).
Proof.
  intros Hl. revert n. induction Hl as [|c b Hc _ IH]; intros n Hn.
  - by destruct n.
  - destruct n; [simpl in Hn; lia|]. simpl in *.
    unfold is_char in Hc. rewrite Hc. rewrite IH by lia. done.
Qed.

Lemma fgets_take_spec n s l rest :
  fgets_take n s = (l, rest) ->
  s = l ++ rest /\
  ((exists body, l = body ++ [LF] /\ free_of (is_char LF) body /\ length l <= n)
   \/ (length l = n /\ free_of (is_char LF) l)
   \/ (rest = [] /\ free_of (is_char LF) l /\ length l < n)).
Proof.
  revert s l rest. induction n as [|n IH]; intros s l rest H.
  - simpl in H. destruct s; inversion H; subst; split; try done;
      right; left; split; try done; constructor.
  - destruct s as [|c r]; simpl in H.
    + inversion H; subst. split; [done|]. right; right.
      repeat split; [constructor | simpl; lia].
    + destruct (Ascii.eqb c LF) eqn:E.
      * inversion H; subst. apply Ascii.eqb_eq in E. subst c. split; [done|].
        left. exists []. repeat split; [constructor | simpl; lia].
      * destruct (fgets_take n r) as [l' rest'] eqn:Er.
        inversion H; subst. destruct (IH _ _ _ Er) as [-> Hc]. split; [done|].
        destruct Hc as [(body & -> & Hb & Hlen) | [[Hlen Hf] | (-> & Hf & Hlen)]].
        -- left. exists (c :: body). repeat split; [by constructor | simpl in *; lia].
        -- right; left. split; [simpl; lia | by constructor].
        -- right; right. repeat split; [by constructor | simpl; lia].
Qed.

Local Arguments fgets_take : simpl never.

Lemma chunk_ok_nonempty l : chunk_ok l -> l <> [].
Proof.
  intros [(body & -> & _) | [Hlen _]]; [by destruct body|].
  intros ->. simpl in Hlen. lia.
Qed.

Lemma fgets_take_chunk l rest : chunk_ok l -> fgets_take 511 (l ++ rest) = (l, rest).
Proof.
  intros [(body & -> & Hb & Hlen) | [Hlen Hf]].
  - rewrite <- app_assoc. change ([LF] ++ rest) with (LF :: rest).
    apply fgets_take_full; [done|].
    rewrite length_app in Hlen. simpl in Hlen. lia.
  - by apply fgets_take_cut.
Qed.

Lemma fgets_chunk l rest :
  chunk_ok l -> free_of (is_char NUL) l -> fgets LINE_SIZE (l ++ rest) = Some (l, rest).
Proof.
  intros Hl Hn. unfold fgets. pose proof (chunk_ok_nonempty _ Hl).
  destruct (l ++ rest) eqn:E; [by destruct l|]. rewrite <- E.
  change (LINE_SIZE - 1) with 511. rewrite fgets_take_chunk by done.
  by rewrite c_str_free.
Qed.

Lemma read_lines_chunks ls fuel :
  chunks ls -> Forall (free_of (is_char NUL)) ls -> length (concat ls) <= fuel ->
  read_lines fuel (concat ls) = ls.
Proof.
  intros Hc. revert fuel. induction Hc as [|l [Hne [Hf Hlen]]|l ls Hl Hc IH]; intros fuel Hn Hfuel.
  - by destruct fuel.
  - simpl in *. rewrite app_nil_r in *. destruct fuel; [destruct l; simpl in *; [done|lia]|].
    simpl. unfold fgets. destruct l as [|c l]; [done|].
    change (LINE_SIZE - 1) with 511. rewrite fgets_take_partial by (done || lia).
    rewrite c_str_free by by inversion Hn. by destruct fuel.
  - inversion Hn; subst. simpl in *. pose proof (chunk_ok_nonempty _ Hl).
    rewrite length_app in Hfuel.
    destruct fuel; [destruct l; simpl in *; [done|lia]|].
    simpl. rewrite fgets_chunk by done. f_equal. apply IH; [done|].
    destruct l; simpl in *; [done|lia].
Qed.

Lemma file_lines_chunks ls :
  chunks ls -> Forall (free_of (is_char NUL)) ls -> file_lines (concat ls) = ls.
Proof. intros. by apply read_lines_chunks. Qed.

Lemma read_lines_spec fuel fp :
  length fp <= fuel -> text fp ->
  chunks (read_lines fuel fp) /\ concat (read_lines fuel fp) = fp.
Proof.
  revert fp. induction fuel as [|fuel IH]; intros fp Hlen Ht.
  - destruct fp; simpl in *; [split; [constructor|done] | lia].
  - simpl. unfold fgets. destruct fp as [|c r]; [split; [constructor|done]|].
    change (LINE_SIZE - 1) with 511.
    destruct (fgets_take 511 (c :: r)) as [l rest] eqn:E.
    destruct (fgets_take_spec _ _ _ _ E) as [Heq Hshape].
    assert (Hl : text l /\ text rest).
    { unfold text in *. rewrite Heq in Ht. by apply free_of_app in Ht. }
    destruct Hl as [Hl Hrest]. rewrite c_str_free by done.
    assert (Hne : l <> []).
    { destruct Hshape as [(body & -> & _) | [[Hl5 _] | (-> & _ & _)]].
      - by destruct body.
      - intros ->. simpl in Hl5. lia.
      - rewrite app_nil_r in Heq. by subst l. }
    assert (Hlr : length rest <= fuel).
    { apply (f_equal length) in Heq. rewrite length_app in Heq. simpl in *.
      destruct l; simpl in *; [done | lia]. }
    destruct (IH rest Hlr Hrest) as [Hch Hcat]. simpl. rewrite Hcat. split; [|done].
    destruct Hshape as [(body & -> & Hb & Hlb) | [[Hl5 Hf] | (-> & Hf & Hl5)]].
    + apply chunks_cons; [|done]. left. by exists body.
    + apply chunks_cons; [|done]. by right.
    + destruct fuel; simpl; by apply chunks_last.
Qed.

Lemma file_lines_spec D : text D -> chunks (file_lines D) /\ concat (file_lines D) = D.
Proof. intros. by apply read_lines_spec. Qed.

Lemma concat_file_lines D : text D -> concat (file_lines D) = D.
Proof. intros H. by apply file_lines_spec. Qed.

(** ** trim_string and the parsing of written lines *)

Lemma drop_trailing_snoc x c :
  is_trailing c = true -> drop_trailing (x ++ [c]) = drop_trailing x.
Proof.
  intros Hc. induction x as [|a x IH]; simpl.
  - by rewrite Hc.
  - by rewrite IH.
Qed.

Lemma skip_leading_snoc s c :
  skip_leading (s ++ [c]) = skip_leading s ++ [c] \/
  (skip_leading (s ++ [c]) = [] /\ skip_leading s = []).
Proof.
  induction s as [|a s IH]; simpl.
  - destruct (is_blank c); [right|left]; done.
  - destruct (is_blank a); [done|]. by left.
Qed.

Lemma trim_string_snoc s c :
  is_trailing c = true -> trim_string (s ++ [c]) = trim_string s.
Proof.
  intros Hc. unfold trim_string.
  destruct (skip_leading_snoc s c) as [-> | [-> ->]]; [|done].
  by apply drop_trailing_snoc.
Qed.

Lemma trim_string_blank_cons c s : is_blank c = true -> trim_string (c :: s) = trim_string s.
Proof. intros Hc. unfold trim_string. simpl. by rewrite Hc. Qed.

Lemma free_of_s2l_sep : free_of (is_char LF) (s2l " = ") /\ free_of (is_char NUL) (s2l " = ").
Proof. split; repeat constructor. Qed.

Section WrittenLines.

Variables K V : cstring.
Hypothesis HK : key_ok K.

Lemma key_value_line_not_header : is_header (key_value_line K V) = false.
Proof.
  unfold key_value_line. pose proof (key_no_bracket K HK).
  by destruct K.
Qed.

Lemma key_value_line_has_eq : has_eq (key_value_line K V) = true.
Proof.
  unfold key_value_line, has_eq. rewrite existsb_app. simpl. apply orb_true_r.
Qed.

Lemma key_value_line_key : file_key_of (key_value_line K V) = K.
Proof.
  unfold file_key_of, key_value_line, strncpy.
  change (s2l " = " ++ V ++ [LF]) with ([" "%char] ++ "="%char :: " "%char :: V ++ [LF]).
  rewrite app_assoc, before_stop; [| |done].
  - rewrite take_ge.
    + rewrite trim_string_snoc by done. apply (key_trim K HK).
    + rewrite length_app. simpl. pose proof (key_length K HK). lia.
  - apply free_of_app. split; [apply (key_no_eq K HK)|]. by repeat constructor.
Qed.

Lemma key_value_line_full :
  value_ok V -> full_line (key_value_line K V).
Proof.
  intros HV. exists (K ++ s2l " = " ++ V). split; [|split].
  - unfold key_value_line. by rewrite <- !app_assoc.
  - apply free_of_app. split; [apply (key_no_lf K HK)|].
    apply free_of_app. split; [apply free_of_s2l_sep | apply (value_no_lf V HV)].
  - unfold key_value_line. rewrite !length_app. simpl.
    pose proof (key_length K HK). pose proof (value_length V HV). lia.
Qed.

Lemma key_value_line_text : value_ok V -> text (key_value_line K V).
Proof.
  intros HV. unfold text, key_value_line.
  apply free_of_app. split; [apply (key_no_nul K HK)|].
  apply free_of_app. split; [apply free_of_s2l_sep|].
  apply free_of_app. split; [apply (value_no_nul V HV) | by repeat constructor].
Qed.

End WrittenLines.

Lemma header_line_is_header S : is_header (header_line S) = true.
Proof. done. Qed.

Lemma header_line_section S cur :
  section_ok S -> trim_string (sscanf_section (header_line S) cur) = S.
Proof.
  intros HS. unfold header_line, sscanf_section. simpl.
  rewrite before_stop; [| apply (section_no_bracket S HS) | done].
  rewrite take_ge by (pose proof (section_length S HS); lia).
  pose proof (section_nonempty S HS) as Hne. pose proof (section_trim S HS) as Ht.
  by destruct S.
Qed.

Lemma header_line_full S : section_ok S -> full_line (header_line S).
Proof.
  intros HS. exists (s2l "[" ++ S ++ s2l "]"). split; [|split].
  - unfold header_line. by rewrite <- !app_assoc.
  - apply free_of_app. split; [by repeat constructor|].
    apply free_of_app. split; [apply (section_no_lf S HS) | by repeat constructor].
  - unfold header_line. rewrite !length_app. simpl.
    pose proof (section_length S HS). lia.
Qed.

Lemma header_line_text S : section_ok S -> text (header_line S).
Proof.
  intros HS. unfold text, header_line. apply free_of_app. split; [by repeat constructor|].
  apply free_of_app. split; [apply (section_no_nul S HS) | by repeat constructor].
Qed.

Lemma empty_line_full : full_line [LF].
Proof. exists []. repeat split; [constructor | simpl; lia]. Qed.

Lemma empty_line_text : text [LF].
Proof. by repeat constructor. Qed.

(** ** The scenarios of the specification *)

Example scenario_A :
  batch_output docA [entry "storage.0" "enable" "1"] = s2l "[storage.0]
enable = 1
folder_name = recordings
".
Proof. vm_compute. reflexivity. Qed.

Example scenario_A_single :
  value_output docA (s2l "storage.0") (s2l "enable") (s2l "1") = s2l "[storage.0]
enable = 1
folder_name = recordings
".
Proof. vm_compute. reflexivity. Qed.

Example scenario_C :
  batch_output docC [entry "a" "z" "9"; entry "b" "y" "3"] = s2l "[a]
x = 1
z = 9
[b]
y = 3
".
Proof. vm_compute. reflexivity. Qed.

Example scenario_read :
  read_scan docC (s2l "b") (s2l "y") 32 = Some (s2l "2") /\
  read_scan docC (s2l "a") (s2l "y") 32 = None.
Proof. split; vm_compute; reflexivity. Qed.

(** ** The calls around the rewrite *)

Lemma locked_rewrite_cases rewrite env fs :
  temp_file fs = None ->
  lock env <> LockHeld None ->
  exists r fs' calls,
    locked_rewrite rewrite env fs = Some (r, fs', calls) /\
    (r = 1%Z \/ r = 0%Z) /\
    (r = 1%Z -> exists D before_rename,
        config_file fs = Some D /\
        calls = before_rename ++ [EvRename true; EvUnlock; EvClose] /\
        fs' = mkFS (Some (rewrite D)) None) /\
    (config_file fs = None \/ open_fails env = true \/ lock env = LockError \/
     fopen_fails env = true \/ fopen_temp_fails env = true \/ rename_fails env = true ->
     r = 0%Z) /\
    (r = 0%Z -> config_file fs' = config_file fs /\ temp_file fs' = None).
Proof.
  intros Htemp Hlock. unfold locked_rewrite.
  destruct fs as [[D|] tmp]; simpl in *; subst tmp.
  2:{ eexists _, _, _. split; [done|]. repeat split; try done; by right. }
  destruct env as [o l f t rn]; simpl in *.
  destruct o.
  { eexists _, _, _. split; [done|]. repeat split; try done; by right. }
  destruct l as [|[n|]|]; try done; simpl.
  3:{ eexists _, _, _. split; [done|]. repeat split; try done; by right. }
  all: destruct f;
    [ eexists _, _, _; split; [done|]; repeat split; try done; by right |].
  all: destruct t;
    [ eexists _, _, _; split; [done|]; repeat split; try done; by right |].
  all: destruct rn;
    [ eexists _, _, _; split; [done|]; repeat split; try done; by right |].
  all: eexists _, _, _; split; [done|]; split; [by left|]; split;
    [ intros _; eexists D, [_; _; _; _; _]; split; [done|]; split; reflexivity
    | split; [intros [?|[?|[?|[?|[?|?]]]]]; done | done] ].
Qed.

(** C1.  Whatever the document and the batch, when the call returns
    (the lock is not held for ever) and the temporary file did not exist
    before: [write_config_batch] returns 1 or 0; it returns 1 only with
    the rename done as the last file operation, the file then holding the
    rewritten text; any failure to open the file, to lock it, to create
    the temporary file or to rename makes it return 0; and whenever it
    returns 0 the configuration file is what it was and no temporary file
    is left. *)
Theorem write_config_batch_atomic (es : list ConfigEntry) (env : Env) (fs : FileSys) :
  temp_file fs = None ->
  lock env <> LockHeld None ->
  exists r fs' calls,
    write_config_batch es env fs = Some (r, fs', calls) /\
    (r = 1%Z \/ r = 0%Z) /\
    (r = 1%Z -> exists D before_rename,
        config_file fs = Some D /\
        calls = before_rename ++ [EvRename true; EvUnlock; EvClose] /\
        fs' = mkFS (Some (batch_output D es)) None) /\
    (config_file fs = None \/ open_fails env = true \/ lock env = LockError \/
     fopen_fails env = true \/ fopen_temp_fails env = true \/ rename_fails env = true ->
     r = 0%Z) /\
    (r = 0%Z -> config_file fs' = config_file fs /\ temp_file fs' = None).
Proof.
  intros Htemp Hlock. unfold write_config_batch.
  exact (locked_rewrite_cases (fun content => batch_output content es) env fs Htemp Hlock).
Qed.

Lemma write_config_batch_atomic_witness :
  exists r fs' calls,
    write_config_batch [entry "b" "y" "2"] (mkEnv false LockFree false false true)
                       (mkFS (Some docB) None) = Some (r, fs', calls) /\
    (r = 1%Z \/ r = 0%Z) /\
    (r = 1%Z -> exists D before_rename,
        config_file (mkFS (Some docB) None) = Some D /\
        calls = before_rename ++ [EvRename true; EvUnlock; EvClose] /\
        fs' = mkFS (Some (batch_output D [entry "b" "y" "2"])) None) /\
    (config_file (mkFS (Some docB) None) = None \/
     open_fails (mkEnv false LockFree false false true) = true \/
     lock (mkEnv false LockFree false false true) = LockError \/
     fopen_fails (mkEnv false LockFree false false true) = true \/
     fopen_temp_fails (mkEnv false LockFree false false true) = true \/
     rename_fails (mkEnv false LockFree false false true) = true ->
     r = 0%Z) /\
    (r = 0%Z -> config_file fs' = config_file (mkFS (Some docB) None) /\ temp_file fs' = None).
Proof.
  apply (write_config_batch_atomic [entry "b" "y" "2"]
           (mkEnv false LockFree false false true) (mkFS (Some docB) None)).
  - reflexivity.
  - discriminate.
Defined.

(** C7, as the claim states it, fails: with the lock held by another
    caller that never releases it the call does not return at all, and
    with the lock held for 1000 ticks the call waits them out and then
    rewrites the file and returns 1. *)
Lemma lock_held_counterexample :
  write_config_batch [entry "b" "y" "2"] (with_lock (LockHeld None) calm)
                     (mkFS (Some docB) None) = None /\
  exists calls,
    write_config_batch [entry "b" "y" "2"] (with_lock (LockHeld (Some 1000)) calm)
                       (mkFS (Some docB) None)
    = Some (1%Z, mkFS (Some (docB ++ s2l "
[b]
y = 2
")) None, calls) /\ In (EvFlock true 1000) calls.
Proof.
  split; [reflexivity|]. eexists. split; [vm_compute; reflexivity|].
  simpl. right. left. reflexivity.
Qed.

(** C7, amended.  [flock] is called without a time limit.  When the call
    itself reports an error, [write_config_batch] returns 0 and leaves
    both files as they were; when another caller holds the lock and never
    releases it, [write_config_batch] does not return; when that caller
    releases it after [n] ticks, [write_config_batch] waits for them and
    then does what it does on a free lock. *)
Theorem write_config_batch_lock (es : list ConfigEntry) (env : Env) (fs : FileSys) (D : cstring) :
  config_file fs = Some D ->
  open_fails env = false ->
  match lock env with
  | LockError =>
      exists calls, write_config_batch es env fs = Some (0%Z, fs, calls)
  | LockHeld None => write_config_batch es env fs = None
  | LockHeld (Some n) =>
      exists r fs' calls calls',
        write_config_batch es env fs = Some (r, fs', calls) /\
        In (EvFlock true n) calls /\
        write_config_batch es (with_lock LockFree env) fs = Some (r, fs', calls')
  | LockFree => exists res, write_config_batch es env fs = Some res
  end.
Proof.
  intros HD Hopen. unfold write_config_batch, locked_rewrite.
  destruct env as [o l f t rn]; simpl in *. subst o. rewrite HD.
  destruct l as [|[n|]|]; simpl; [| |done|eexists; reflexivity].
  - destruct f; [eexists; reflexivity|]. destruct t; [eexists; reflexivity|].
    destruct rn; eexists; reflexivity.
  - destruct f; [eexists _, _, _, _; repeat split; simpl; tauto|].
    destruct t; [eexists _, _, _, _; repeat split; simpl; tauto|].
    destruct rn; eexists _, _, _, _; repeat split; simpl; tauto.
Qed.

Lemma write_config_batch_lock_witness :
  exists calls,
    write_config_batch [entry "b" "y" "2"] (with_lock LockError calm) (mkFS (Some docB) None)
    = Some (0%Z, mkFS (Some docB) None, calls).
Proof.
  apply (write_config_batch_lock [entry "b" "y" "2"] (with_lock LockError calm)
           (mkFS (Some docB) None) docB); reflexivity.
Defined.

(** ** stop_rkipc and handle_config_update *)

Lemma stop_poll_polls left retries penv : polls (stop_poll left retries penv) <= left.
Proof.
  revert retries. induction left as [|left IH]; intros retries; simpl; [done|].
  unfold polls in *. simpl.
  destruct (negb _); simpl; [lia|]. specialize (IH (S retries)). lia.
Qed.

Lemma stop_poll_length left retries penv : length (stop_poll left retries penv) <= 2 * left + 2.
Proof.
  revert retries. induction left as [|left IH]; intros retries; simpl; [lia|].
  destruct (negb _); simpl; [lia|]. specialize (IH (S retries)). lia.
Qed.

Lemma stop_poll_forced left retries penv :
  forced (stop_poll left retries penv) = true <->
  forall i, retries <= i < retries + left -> pgrep_status penv i = 0%Z.
Proof.
  revert retries. induction left as [|left IH]; intros retries; simpl.
  - split; [intros _ i Hi; lia | done].
  - destruct (Z.eqb_spec (pgrep_status penv retries) 0) as [E|E]; simpl.
    + unfold forced in *. simpl. rewrite IH. split.
      * intros H i Hi. destruct (decide (i = retries)) as [->|]; [done|].
        apply H. lia.
      * intros H i Hi. apply H. lia.
    + split; [done|]. intros H. exfalso. apply E, H. lia.
Qed.

(** C9.  For a request with at least one update: the stop step ends
    after at most 50 polls (103 calls), with the forced kill exactly when
    all 50 polls found the service; the batch write is then made, and when
    it returns the response is the success response if and only if it
    returned 1, the calls being those of the stop step, those of the
    write and the start command; the response is the same whatever the
    statuses of the stop and start commands. *)
Theorem handle_config_update_reports_write
    (parse_updates : cstring -> list ConfigEntry) (body : cstring)
    (penv : ProcEnv) (env : Env) (fs : FileSys) :
  body <> [] ->
  parse_updates body <> [] ->
  polls (stop_rkipc penv) <= 50 /\
  length (stop_rkipc penv) <= 103 /\
  (forced (stop_rkipc penv) = true <-> forall i, i < 50 -> pgrep_status penv i = 0%Z) /\
  match write_config_batch (parse_updates body) env fs with
  | Some (r, fs', calls) =>
      exists response,
        handle_config_update parse_updates body penv env fs
        = Some (response, fs',
                stop_rkipc penv ++ calls ++ [EvSystem StartRkipc (start_status penv)]) /\
        (response = RespSaved (length (parse_updates body)) <-> r = 1%Z) /\
        (response = RespWriteFailed <-> r = 0%Z)
  | None => handle_config_update parse_updates body penv env fs = None
  end /\
  forall penv',
    reported (handle_config_update parse_updates body penv' env fs)
    = reported (handle_config_update parse_updates body penv env fs).
Proof.
  intros Hbody Hup.
  split; [|split; [|split; [|split]]].
  - change (polls (stop_rkipc penv)) with (polls (stop_poll 50 0 penv)).
    apply stop_poll_polls.
  - change (length (stop_rkipc penv)) with (S (length (stop_poll 50 0 penv))).
    pose proof (stop_poll_length 50 0 penv). lia.
  - change (forced (stop_rkipc penv)) with (forced (stop_poll 50 0 penv)).
    rewrite (stop_poll_forced 50 0 penv). split; intros H i Hi; apply H; lia.
  - unfold handle_config_update. destruct body as [|c body]; [done|].
    destruct (parse_updates (c :: body)) as [|e es] eqn:E; [done|].
    change (0 <? length (e :: es))%nat with true. cbv iota.
    destruct (write_config_batch (e :: es) env fs) as [[[r fs'] calls]|] eqn:W; [|done].
    assert (Hr : r = 1%Z \/ r = 0%Z).
    { unfold write_config_batch, locked_rewrite in W.
      repeat match type of W with
             | context [match ?x with _ => _ end] => destruct x
             end; inversion W; auto. }
    eexists. split; [reflexivity|].
    destruct Hr as [-> | ->]; simpl; split; split; done.
  - intros penv'. unfold handle_config_update. destruct body as [|c body]; [done|].
    destruct (parse_updates (c :: body)) as [|e es] eqn:E; [done|].
    change (0 <? length (e :: es))%nat with true. cbv iota.
    by destruct (write_config_batch (e :: es) env fs) as [[[r fs'] calls]|].
Qed.

Lemma handle_config_update_reports_write_witness :
  polls (stop_rkipc (mkProcEnv 0 (fun _ => 0%Z) 0 1)) <= 50 /\
  length (stop_rkipc (mkProcEnv 0 (fun _ => 0%Z) 0 1)) <= 103 /\
  (forced (stop_rkipc (mkProcEnv 0 (fun _ => 0%Z) 0 1)) = true <->
   forall i, i < 50 -> pgrep_status (mkProcEnv 0 (fun _ => 0%Z) 0 1) i = 0%Z) /\
  match write_config_batch ((fun _ => [entry "b" "y" "2"]) (s2l "x=1")) calm
                           (mkFS (Some docB) None) with
  | Some (r, fs', calls) =>
      exists response,
        handle_config_update (fun _ => [entry "b" "y" "2"]) (s2l "x=1")
                             (mkProcEnv 0 (fun _ => 0%Z) 0 1) calm (mkFS (Some docB) None)
        = Some (response, fs',
                stop_rkipc (mkProcEnv 0 (fun _ => 0%Z) 0 1) ++ calls ++
                [EvSystem StartRkipc (start_status (mkProcEnv 0 (fun _ => 0%Z) 0 1))]) /\
        (response = RespSaved (length ((fun _ => [entry "b" "y" "2"]) (s2l "x=1"))) <-> r = 1%Z) /\
        (response = RespWriteFailed <-> r = 0%Z)
  | None => handle_config_update (fun _ => [entry "b" "y" "2"]) (s2l "x=1")
                                 (mkProcEnv 0 (fun _ => 0%Z) 0 1) calm
                                 (mkFS (Some docB) None) = None
  end /\
  forall penv',
    reported (handle_config_update (fun _ => [entry "b" "y" "2"]) (s2l "x=1") penv' calm
                                   (mkFS (Some docB) None))
    = reported (handle_config_update (fun _ => [entry "b" "y" "2"]) (s2l "x=1")
                                     (mkProcEnv 0 (fun _ => 0%Z) 0 1) calm
                                     (mkFS (Some docB) None)).
Proof.
  apply (handle_config_update_reports_write (fun _ => [entry "b" "y" "2"]) (s2l "x=1")
           (mkProcEnv 0 (fun _ => 0%Z) 0 1) calm (mkFS (Some docB) None)); discriminate.
Defined.

(** ** The loops over the entries *)

Lemma pending_test e cur :
  negb (updated e) && bool_decide (section e = cur)
  = bool_decide (pending e /\ section e = cur).
Proof.
  unfold pending. destruct (updated e); cbn [negb andb].
  - symmetry. apply bool_decide_eq_false_2. by intros [? _].
  - apply bool_decide_ext. tauto.
Qed.

Lemma append_missing_writes cur es :
  (append_missing cur es).2
  = map entry_line (filter (fun e => pending e /\ section e = cur) es).
Proof.
  induction es as [|e es IH]; [done|]. simpl.
  destruct (append_missing cur es) as [rest' w]. simpl in IH. subst w.
  rewrite filter_cons, pending_test.
  case_bool_decide; simpl.
  - by rewrite decide_True by done.
  - by rewrite decide_False by done.
Qed.

Lemma append_missing_entries cur es :
  (append_missing cur es).1
  = map (fun e => if decide (pending e /\ section e = cur) then mark_updated e else e) es.
Proof.
  induction es as [|e es IH]; [done|]. simpl.
  destruct (append_missing cur es) as [rest' w]. simpl in IH. subst rest'.
  rewrite pending_test.
  case_bool_decide; simpl.
  - by rewrite decide_True by done.
  - by rewrite decide_False by done.
Qed.

Lemma append_missing_length cur es : length (append_missing cur es).1 = length es.
Proof. rewrite append_missing_entries. by rewrite length_map. Qed.

Lemma append_missing_pending cur es :
  filter pending (append_missing cur es).1
  = filter (fun e => section e <> cur) (filter pending es).
Proof.
  rewrite append_missing_entries.
  induction es as [|e es IH]; [done|]. simpl.
  rewrite !filter_cons. destruct (decide (pending e /\ section e = cur)) as [[Hp Hs]|Hn].
  - rewrite decide_False by done. rewrite decide_True by done.
    rewrite filter_cons. by rewrite decide_False by (intros ?; done).
  - destruct (decide (pending e)) as [Hp|Hp]; [|done].
    rewrite filter_cons. rewrite decide_True by (intros ?; apply Hn; done).
    by rewrite IH.
Qed.

Lemma append_missing_none cur es :
  (forall e, e ∈ es -> pending e -> section e <> cur) ->
  append_missing cur es = (es, []).
Proof.
  intros H. induction es as [|e es IH]; [done|]. simpl.
  rewrite IH by (intros; apply H; [by right|done]).
  destruct (updated e) eqn:U; simpl; [done|].
  case_bool_decide; [|done]. exfalso. by apply (H e); [left| |].
Qed.

(** ** Sections that are not in the document *)

Lemma first_sections_filter a es :
  first_sections (filter (fun e => section e <> a) es)
  = filter (fun s => s <> a) (first_sections es).
Proof.
  induction es as [|e es IH]; [done|].
  rewrite filter_cons. destruct (decide (section e <> a)) as [Hne|Heq].
  - simpl. rewrite filter_cons, decide_True by done. f_equal.
    rewrite IH. rewrite !list_filter_filter. apply list_filter_iff. tauto.
  - assert (section e = a) as <- by (by destruct (decide (section e = a))).
    simpl. rewrite filter_cons, decide_False by (intros ?; done).
    rewrite IH. rewrite list_filter_filter. apply list_filter_iff. tauto.
Qed.

Lemma first_sections_NoDup es : NoDup (first_sections es).
Proof.
  induction es as [|e es IH]; simpl; constructor.
  - rewrite list_elem_of_filter. tauto.
  - by apply NoDup_filter.
Qed.

Lemma first_sections_elem s es : s ∈ first_sections es <-> exists e, e ∈ es /\ section e = s.
Proof.
  induction es as [|e es IH]; simpl.
  - split; [by intros ?%elem_of_nil | by intros (? & ?%elem_of_nil & _)].
  - rewrite elem_of_cons, list_elem_of_filter, IH. split.
    + intros [-> | [_ (e' & He' & <-)]]; [exists e; split; [by left|done]|].
      exists e'. split; [by right|done].
    + intros (e' & He' & <-). apply elem_of_cons in He' as [-> | He']; [by left|].
      destruct (decide (section e' = section e)); [by left|].
      right. split; [done|]. by exists e'.
Qed.

Lemma missing_sections_writes n es :
  length es <= n ->
  (missing_sections n es).2 = synthesized (filter pending es).
Proof.
  revert es. induction n as [|n IH]; intros es Hlen.
  { destruct es; simpl in *; [done|lia]. }
  destruct es as [|e rest]; [done|]. simpl in Hlen. simpl.
  rewrite filter_cons. destruct (decide (pending e)) as [U|U].
  2:{ assert (updated e = true) as -> by (unfold pending in U; by destruct (updated e)).
      specialize (IH rest ltac:(lia)). destruct (missing_sections n rest). by simpl in *. }
  - unfold pending in U. rewrite U.
    pose proof (append_missing_writes (section e) rest) as Hw.
    pose proof (append_missing_pending (section e) rest) as Hp.
    pose proof (append_missing_length (section e) rest) as Hl.
    destruct (append_missing (section e) rest) as [rest1 w1]. simpl in *.
    specialize (IH rest1 ltac:(lia)).
    destruct (missing_sections n rest1) as [rest2 w2]. simpl in *.
    subst w1 w2. rewrite Hp.
    unfold synthesized. simpl. unfold section_block at 1.
    rewrite filter_cons, decide_True by done. simpl.
    unfold new_section_text, entry_line at 1. simpl. do 3 f_equal.
    f_equal.
    + f_equal. rewrite list_filter_filter. apply list_filter_iff. tauto.
    + rewrite first_sections_filter, !flat_map_concat_map. f_equal.
      apply map_ext_in.
      intros s Hs. apply list_elem_of_In in Hs.
      apply list_elem_of_filter in Hs as [Hs _].
      unfold section_block. do 3 f_equal.
      rewrite filter_cons, decide_False by (intros ?; done).
      rewrite list_filter_filter. apply list_filter_iff. intros x. split; [tauto|].
      intros ->. done.
Qed.

Lemma scan_batch_absent lines cur ins es :
  (forall e, e ∈ es ->
     (ins = true -> section e <> cur) /\ section e ∉ sections_from cur lines) ->
  exists cur' ins',
    scan batch_line (mkBatchState cur ins es) lines = (mkBatchState cur' ins' es, lines) /\
    (ins' = true -> forall e, e ∈ es -> section e <> cur').
Proof.
  revert cur ins. induction lines as [|l r IH]; intros cur ins H.
  { exists cur, ins. split; [done|]. intros Hi e He. by apply H. }
  simpl. unfold batch_line at 1. simpl in H.
  destruct (is_header l) eqn:Hh.
  - assert (Hc : close_section (mkBatchState cur ins es) = (es, [])).
    { unfold close_section. simpl. destruct ins; [|done].
      apply append_missing_none. intros e He _.
      destruct (H e He) as [Hne _]. by apply Hne. }
    rewrite Hc.
    destruct (IH (trim_string (sscanf_section l cur)) true) as (cur' & ins' & Hs & Hi).
    { intros e He. destruct (H e He) as [_ Hn]. rewrite not_elem_of_cons in Hn.
      split; [intros _; apply Hn | apply Hn]. }
    simpl. rewrite Hs. by exists cur', ins'.
  - assert (Hb : (if in_section (mkBatchState cur ins es) && has_eq l
                  then match list_find (targets (current_section (mkBatchState cur ins es))
                                                (file_key_of l))
                                       (entries (mkBatchState cur ins es)) with
                       | Some (match_idx, e) =>
                           (mkBatchState cur ins (<[match_idx:=mark_updated e]> es),
                            [key_value_line (key e) (value e)])
                       | None => (mkBatchState cur ins es, [l])
                       end
                  else (mkBatchState cur ins es, [l]))
                 = (mkBatchState cur ins es, [l])).
    { simpl. destruct ins; [|done]. simpl. destruct (has_eq l); [|done].
      destruct (list_find _ es) as [[i e]|] eqn:F; [|done].
      apply list_find_Some in F as (Hi & [Hs _] & _).
      exfalso. apply list_elem_of_lookup_2 in Hi.
      destruct (H e Hi) as [Hne _]. by apply Hne. }
    simpl in Hb. simpl. rewrite Hb.
    destruct (IH cur ins H) as (cur' & ins' & Hs & Hi).
    rewrite Hs. by exists cur', ins'.
Qed.

Lemma scan_value_absent lines sec k v cur :
  sec ∉ sections_from cur lines ->
  exists cur',
    scan (value_line sec k v) (mkValueState cur false false false) lines
    = (mkValueState cur' false false false, lines).
Proof.
  revert cur. induction lines as [|l r IH]; intros cur H; [by exists cur|].
  simpl. unfold value_line at 1. simpl in *.
  destruct (is_header l) eqn:Hh.
  - rewrite not_elem_of_cons in H. destruct H as [Hne H].
    rewrite bool_decide_eq_false_2 by done. simpl.
    destruct (IH _ H) as (cur' & ->). by exists cur'.
  - destruct (IH _ H) as (cur' & ->). by exists cur'.
Qed.

Lemma filter_pending_reset es : filter pending (map reset_updated es) = map reset_updated es.
Proof.
  induction es as [|e es IH]; [done|]. simpl.
  rewrite filter_cons, decide_True by done. by rewrite IH.
Qed.

Lemma filter_section_reset s es :
  map entry_line (filter (fun e => section e = s) (map reset_updated es))
  = map entry_line (filter (fun e => section e = s) es).
Proof.
  induction es as [|e es IH]; [done|]. simpl. rewrite !filter_cons. simpl.
  destruct (decide (section e = s)); simpl; by rewrite IH.
Qed.

Lemma first_sections_reset es : first_sections (map reset_updated es) = first_sections es.
Proof. induction es as [|e es IH]; [done|]. simpl. by rewrite IH. Qed.

Lemma synthesized_reset es : synthesized (map reset_updated es) = synthesized es.
Proof.
  unfold synthesized. rewrite first_sections_reset, !flat_map_concat_map. f_equal.
  apply map_ext. intros s. unfold section_block. by rewrite filter_section_reset.
Qed.

Lemma batch_writes_absent D es :
  (forall e, e ∈ es -> section e ∉ doc_sections D) ->
  batch_writes D es = file_lines D ++ synthesized es.
Proof.
  intros H. unfold batch_writes.
  destruct (scan_batch_absent (file_lines D) [] false (map reset_updated es))
    as (cur' & ins' & Hs & Hi).
  { intros e He. apply list_elem_of_fmap in He as (e1 & -> & He1). split; [done|].
    exact (H e1 He1). }
  rewrite Hs.
  assert (Hc : close_section (mkBatchState cur' ins' (map reset_updated es))
               = (map reset_updated es, [])).
  { unfold close_section. simpl. destruct ins'; [|done].
    apply append_missing_none. intros e He _. by apply Hi. }
  rewrite Hc.
  pose proof (missing_sections_writes (length (map reset_updated es)) (map reset_updated es)
                ltac:(done)) as Hm.
  destruct (missing_sections _ _) as [es2 w2]. simpl in Hm. subst w2.
  by rewrite filter_pending_reset, synthesized_reset.
Qed.

Lemma value_writes_absent D sec k v :
  sec ∉ doc_sections D ->
  value_writes D sec k v = file_lines D ++ new_section_text sec k v.
Proof.
  intros H. unfold value_writes.
  destruct (scan_value_absent (file_lines D) sec k v [] H) as (cur' & ->). done.
Qed.

(** ** What the batch leaves alone *)

Lemma same_entries_refl es : same_entries es es.
Proof. done. Qed.

Lemma same_entries_reset es : same_entries (map reset_updated es) es.
Proof.
  unfold same_entries. rewrite map_map. apply map_ext. by intros [].
Qed.

Lemma same_entries_trans es1 es2 es3 :
  same_entries es1 es2 -> same_entries es2 es3 -> same_entries es1 es3.
Proof. unfold same_entries. congruence. Qed.

Lemma reset_mark e : reset_updated (mark_updated e) = reset_updated e.
Proof. done. Qed.

Lemma same_entries_append_missing cur es : same_entries (append_missing cur es).1 es.
Proof.
  rewrite append_missing_entries. unfold same_entries. rewrite map_map.
  apply map_ext. intros e. by destruct (decide _).
Qed.

Lemma same_entries_insert i e es :
  es !! i = Some e -> same_entries (<[i := mark_updated e]> es) es.
Proof.
  intros H. unfold same_entries.
  change (map reset_updated) with (fmap (M:=list) reset_updated).
  rewrite list_fmap_insert, reset_mark. apply list_insert_id.
  by rewrite list_lookup_fmap, H.
Qed.

Lemma same_entries_targets c k es1 es2 :
  same_entries es1 es2 ->
  Exists (targets c k) es1 -> Exists (targets c k) es2.
Proof.
  unfold same_entries. revert es2. induction es1 as [|e1 es1 IH]; intros es2 H Hex.
  - by apply Exists_nil in Hex.
  - destruct es2 as [|e2 es2]; [done|]. simpl in H. inversion H as [[Hs Hk Hv Hr]].
    apply Exists_cons in Hex as [[Hc Hkk]|Hex].
    + left. unfold targets. by rewrite <- Hs, <- Hk.
    + right. by apply IH.
Qed.

Lemma close_section_same st : same_entries (close_section st).1 (entries st).
Proof.
  unfold close_section. destruct (in_section st); [|done].
  apply same_entries_append_missing.
Qed.

Lemma batch_line_same st l : same_entries (entries (batch_line st l).1) (entries st).
Proof.
  unfold batch_line. destruct (is_header l).
  - pose proof (close_section_same st). by destruct (close_section st).
  - destruct (in_section st && has_eq l); [|done].
    destruct (list_find _ _) as [[i e]|] eqn:F; [|done]. simpl.
    apply list_find_Some in F as [Hi _]. by apply same_entries_insert.
Qed.

Lemma batch_line_context st l :
  state_ok st ->
  context_of (batch_line st l).1 = next_context (context_of st) l /\
  state_ok (batch_line st l).1.
Proof.
  intros Hok. unfold batch_line, next_context, context_of, state_ok in *.
  destruct (is_header l).
  - destruct (close_section st). simpl. split; [|done].
    destruct (in_section st); [done|]. by rewrite Hok.
  - destruct (in_section st && has_eq l); [|done].
    by destruct (list_find _ _) as [[i e]|].
Qed.

Lemma batch_line_verbatim st l :
  targeted (entries st) (context_of st) l = false ->
  exists w, (batch_line st l).2 = w ++ [l].
Proof.
  unfold targeted, batch_line, context_of. destruct (is_header l); simpl.
  - intros _. destruct (close_section st) as [es w]. by exists w.
  - destruct (in_section st); simpl; [|by exists []].
    destruct (has_eq l); simpl; [|by exists []].
    destruct (list_find _ _) as [[i e]|] eqn:F; [|by exists []].
    intros H. apply bool_decide_eq_false_1 in H. exfalso. apply H.
    apply list_find_Some in F as (Hi & Ht & _).
    apply Exists_exists. exists e. split; [|done]. by eapply list_elem_of_lookup_2.
Qed.

Lemma targeted_same es1 es2 ctx l :
  same_entries es1 es2 -> targeted es1 ctx l = targeted es2 ctx l.
Proof.
  intros H. unfold targeted. f_equal. destruct ctx as [c|]; [|done].
  apply bool_decide_ext. split; apply same_entries_targets; [done|].
  unfold same_entries in *. done.
Qed.

Lemma scan_batch_sublist es lines st :
  state_ok st -> same_entries (entries st) es ->
  sublist (untargeted es (context_of st) lines) (scan batch_line st lines).2.
Proof.
  revert st. induction lines as [|l r IH]; intros st Hok Hsame; [constructor|].
  simpl. destruct (batch_line_context st l Hok) as [Hctx Hok'].
  pose proof (batch_line_same st l) as Hs'.
  pose proof (batch_line_verbatim st l) as Hv.
  destruct (batch_line st l) as [st1 w1]. simpl in *.
  specialize (IH st1 Hok' (same_entries_trans _ _ _ Hs' Hsame)).
  destruct (scan batch_line st1 r) as [st2 w2]. simpl in *.
  rewrite <- Hctx.
  destruct (targeted es (context_of st) l) eqn:T.
  - by apply sublist_inserts_l.
  - rewrite (targeted_same _ _ _ _ Hsame) in Hv. destruct (Hv T) as [w ->].
    rewrite <- app_assoc. apply sublist_inserts_l. simpl. by apply sublist_skip.
Qed.

Lemma untargeted_pieces D es :
  sublist (untargeted es None (file_lines D)) (batch_writes D es).
Proof.
  unfold batch_writes.
  pose proof (scan_batch_sublist es (file_lines D)
                (mkBatchState [] false (map reset_updated es))
                ltac:(done) (same_entries_reset es)) as H.
  destruct (scan batch_line _ _) as [st w]. simpl in H.
  destruct (close_section st) as [es1 w1].
  destruct (missing_sections _ _) as [es2 w2].
  by apply sublist_inserts_r.
Qed.

(** ** A batch of one entry, line by line *)

Lemma scan_app {St : Type} (body : St -> cstring -> St * list cstring) st l1 l2 :
  scan body st (l1 ++ l2)
  = let '(st1, w1) := scan body st l1 in
    let '(st2, w2) := scan body st1 l2 in (st2, w1 ++ w2).
Proof.
  revert st. induction l1 as [|l l1 IH]; intros st; simpl.
  - by destruct (scan body st l2).
  - destruct (body st l) as [st1 w1]. rewrite IH.
    destruct (scan body st1 l1) as [st2 w2]. destruct (scan body st2 l2) as [st3 w3].
    by rewrite app_assoc.
Qed.

Lemma context_after_app ctx l1 l2 :
  context_after ctx (l1 ++ l2) = context_after (context_after ctx l1) l2.
Proof. revert ctx. induction l1 as [|l l1 IH]; intros ctx; simpl; [done|]. apply IH. Qed.

Lemma rewritten_app S K V ctx l1 l2 :
  rewritten S K V ctx (l1 ++ l2)
  = rewritten S K V ctx l1 ++ rewritten S K V (context_after ctx l1) l2.
Proof.
  revert ctx. induction l1 as [|l l1 IH]; intros ctx; simpl; [done|]. by rewrite IH.
Qed.

Lemma key_line_context S K ctx l : key_line S K ctx l = true -> ctx = Some S.
Proof.
  unfold key_line. intros H. apply andb_true_iff in H as [_ H].
  apply bool_decide_eq_true_1 in H. tauto.
Qed.

Lemma key_line_next S K ctx l : key_line S K ctx l = true -> next_context ctx l = ctx.
Proof.
  unfold key_line, next_context. intros H. apply andb_true_iff in H as [H _].
  apply andb_true_iff in H as [H _]. by destruct (is_header l).
Qed.

Lemma key_line_header S K ctx l : is_header l = true -> key_line S K ctx l = false.
Proof. unfold key_line. by intros ->. Qed.

Section SingleEntry.

Variables S K V : cstring.

Lemma batch_line_single ctx upd l :
  batch_line (state_at S K V ctx upd) l
  = if is_header l then
      (state_at S K V (next_context ctx l) (upd || bool_decide (ctx = Some S)),
       (if negb upd && bool_decide (ctx = Some S) then [key_value_line K V] else []) ++ [l])
    else if key_line S K ctx l then
      (state_at S K V (next_context ctx l) true, [key_value_line K V])
    else (state_at S K V (next_context ctx l) upd, [l]).
Proof.
  unfold batch_line, next_context, key_line. destruct (is_header l) eqn:Hh; simpl.
  - unfold close_section, state_at. destruct ctx as [cur|]; simpl.
    + destruct upd; simpl.
      * done.
      * destruct (decide (S = cur)) as [->|Hne].
        -- by rewrite !bool_decide_eq_true_2 by done.
        -- rewrite bool_decide_eq_false_2 by done.
           by rewrite bool_decide_eq_false_2 by congruence.
    + by rewrite orb_false_r, andb_false_r.
  - destruct ctx as [cur|]; simpl; [|by rewrite andb_false_r].
    destruct (has_eq l); simpl; [|done].
    unfold list_find, targets. simpl.
    destruct (decide (S = cur /\ file_key_of l = K)) as [[-> HK]|Hn].
    + rewrite decide_True by done. simpl. by rewrite bool_decide_eq_true_2 by done.
    + rewrite decide_False by (intros [? ?]; apply Hn; done). simpl.
      rewrite bool_decide_eq_false_2; [done|]. intros [E HK]. apply Hn. split; congruence.
Qed.

Lemma value_line_single ctx upd found l :
  value_line S K V (value_state_at S ctx upd found) l
  = if is_header l then
      (value_state_at S (next_context ctx l) (upd || bool_decide (ctx = Some S))
                      (found || bool_decide (next_context ctx l = Some S)),
       (if negb upd && bool_decide (ctx = Some S) then [key_value_line K V] else []) ++ [l])
    else if negb upd && key_line S K ctx l then
      (value_state_at S (next_context ctx l) true found, [key_value_line K V])
    else (value_state_at S (next_context ctx l) upd found, [l]).
Proof.
  unfold value_line, next_context, key_line. destruct (is_header l) eqn:Hh; simpl.
  - unfold value_state_at. simpl.
    assert (E : bool_decide (trim_string (sscanf_section l (default [] ctx)) = S)
                = bool_decide (Some (trim_string (sscanf_section l (default [] ctx))) = Some S)).
    { apply bool_decide_ext. split; congruence. }
    rewrite <- E. f_equal. by rewrite andb_comm.
  - destruct (decide (ctx = Some S)) as [->|Hne].
    + rewrite bool_decide_eq_true_2 by done. simpl.
      destruct upd; simpl; [done|]. destruct (has_eq l); simpl; [|done].
      destruct (decide (file_key_of l = K)) as [HK|HK].
      * rewrite !bool_decide_eq_true_2 by done. unfold value_state_at.
        by rewrite bool_decide_eq_true_2.
      * rewrite bool_decide_eq_false_2 by done.
        by rewrite bool_decide_eq_false_2 by tauto.
    + rewrite bool_decide_eq_false_2 by done. simpl.
      rewrite (bool_decide_eq_false_2 (_ /\ _)) by tauto.
      by rewrite !andb_false_r.
Qed.

Lemma scan_batch_no_write ctx lines :
  no_write S K ctx lines = true ->
  scan batch_line (state_at S K V ctx false) lines
  = (state_at S K V (context_after ctx lines) false, lines).
Proof.
  revert ctx. induction lines as [|l r IH]; intros ctx H; [done|].
  simpl in *. apply andb_true_iff in H as [H Hr]. apply andb_true_iff in H as [Hh Hk].
  apply negb_true_iff in Hh, Hk. rewrite batch_line_single, Hk.
  destruct (is_header l); simpl in *.
  - rewrite Hh. simpl. by rewrite IH.
  - by rewrite IH.
Qed.

Lemma scan_value_no_write ctx found lines :
  no_write S K ctx lines = true ->
  exists found',
    scan (value_line S K V) (value_state_at S ctx false found) lines
    = (value_state_at S (context_after ctx lines) false found', lines) /\
    ((ctx = Some S -> found = true) -> context_after ctx lines = Some S -> found' = true).
Proof.
  revert ctx found. induction lines as [|l r IH]; intros ctx found H.
  { exists found. split; [done|]. simpl. auto. }
  simpl in *. apply andb_true_iff in H as [H Hr]. apply andb_true_iff in H as [Hh Hk].
  apply negb_true_iff in Hh, Hk. rewrite value_line_single, Hk.
  destruct (is_header l) eqn:Hd; simpl in *.
  - rewrite Hh. simpl.
    destruct (IH _ (found || bool_decide (next_context ctx l = Some S)) Hr) as (f' & -> & Hf).
    exists f'. split; [done|]. intros _. apply Hf. intros E.
    rewrite bool_decide_eq_true_2 by done. apply orb_true_r.
  - destruct (IH _ found Hr) as (f' & -> & Hf). exists f'. split; [done|].
    intros Hi. apply Hf. unfold next_context. by rewrite Hd.
Qed.

Lemma scan_batch_done ctx lines :
  scan batch_line (state_at S K V ctx true) lines
  = (state_at S K V (context_after ctx lines) true, rewritten S K V ctx lines).
Proof.
  revert ctx. induction lines as [|l r IH]; intros ctx; [done|].
  simpl. rewrite batch_line_single. destruct (is_header l) eqn:Hh; simpl.
  - rewrite IH. by rewrite key_line_header.
  - destruct (key_line S K ctx l); by rewrite IH.
Qed.

Lemma scan_value_done ctx found lines :
  found = true ->
  exists found',
    scan (value_line S K V) (value_state_at S ctx true found) lines
    = (value_state_at S (context_after ctx lines) true found', lines) /\ found' = true.
Proof.
  intros ->. revert ctx. induction lines as [|l r IH]; intros ctx; [by exists true|].
  simpl. rewrite value_line_single. simpl.
  destruct (is_header l) eqn:Hh; simpl; destruct (IH (next_context ctx l)) as (f' & -> & ->);
    by exists true.
Qed.

Lemma batch_eof_done ctx :
  close_section (state_at S K V ctx true) = ([mkEntry S K V true], []) /\
  missing_sections 1 [mkEntry S K V true] = ([mkEntry S K V true], []).
Proof. unfold close_section, state_at. by destruct ctx. Qed.

Lemma value_eof_done ctx : value_eof S K V (value_state_at S ctx true true) = [].
Proof. unfold value_eof, value_state_at. simpl. by rewrite andb_false_r. Qed.

(** The output when the first key line for [K] in [S] comes before any
    block of [S] ends. *)
Lemma batch_writes_first_key u l1 k1 l2 D :
  file_lines D = l1 ++ k1 :: l2 ->
  no_write S K None l1 = true ->
  key_line S K (context_after None l1) k1 = true ->
  batch_writes D [mkEntry S K V u]
  = l1 ++ key_value_line K V :: rewritten S K V (context_after None l1) l2.
Proof.
  intros HD Hn Hk. unfold batch_writes. rewrite HD. simpl.
  change (mkBatchState [] false [reset_updated (mkEntry S K V u)])
    with (state_at S K V None false).
  rewrite scan_app, scan_batch_no_write by done. simpl.
  rewrite batch_line_single, Hk.
  assert (Hh : is_header k1 = false).
  { destruct (is_header k1) eqn:E; [|done]. by rewrite key_line_header in Hk. }
  rewrite Hh, scan_batch_done, (key_line_next _ _ _ _ Hk).
  destruct (batch_eof_done (context_after (context_after None l1) l2)) as [-> Hm].
  cbn [length]. rewrite Hm. by rewrite !app_nil_r.
Qed.

Lemma value_writes_first_key l1 k1 l2 D :
  file_lines D = l1 ++ k1 :: l2 ->
  no_write S K None l1 = true ->
  key_line S K (context_after None l1) k1 = true ->
  value_writes D S K V = l1 ++ key_value_line K V :: l2.
Proof.
  intros HD Hn Hk. unfold value_writes. rewrite HD.
  change (mkValueState [] false false false) with (value_state_at S None false false).
  rewrite scan_app.
  destruct (scan_value_no_write None false l1 Hn) as (f1 & -> & Hf1).
  simpl. rewrite value_line_single, Hk.
  assert (Hh : is_header k1 = false).
  { destruct (is_header k1) eqn:E; [|done]. by rewrite key_line_header in Hk. }
  rewrite Hh. simpl. rewrite (key_line_next _ _ _ _ Hk).
  assert (f1 = true) as ->.
  { apply Hf1; [done|]. by eapply key_line_context. }
  destruct (scan_value_done (context_after None l1) true l2 eq_refl) as (f2 & -> & ->).
  rewrite value_eof_done. by rewrite !app_nil_r.
Qed.

End SingleEntry.




(** ** Reading back what was written *)

Lemma text_concat ls : text (concat ls) -> Forall text ls.
Proof.
  induction ls as [|l ls IH]; simpl; [constructor|].
  unfold text in *. rewrite free_of_app. intros [H1 H2]. constructor; auto.
Qed.

Lemma file_lines_text D : text D -> Forall text (file_lines D).
Proof. intros H. apply text_concat. by rewrite concat_file_lines. Qed.

Lemma chunks_replace ls ls' :
  chunks ls -> Forall2 (fun a b => b = a \/ chunk_ok b) ls ls' -> chunks ls'.
Proof.
  intros Hc. revert ls'. induction Hc as [|l Hp|l ls Hl Hc IH]; intros ls' HF.
  - inversion HF. constructor.
  - inversion HF as [|? b ? bs [->|Hb] HF']; subst. inversion HF'; subst.
    + by apply chunks_last.
    + inversion HF'; subst. apply chunks_cons; [done|constructor].
  - inversion HF as [|? b ? bs Hb HF']; subst. apply chunks_cons; [|by apply IH].
    by destruct Hb as [->|Hb].
Qed.

Lemma chunks_all ls : Forall chunk_ok ls -> chunks ls.
Proof. induction 1; by constructor. Qed.

Lemma key_lines_app S K ctx l1 l2 :
  key_lines S K ctx (l1 ++ l2)
  = key_lines S K ctx l1 + key_lines S K (context_after ctx l1) l2.
Proof.
  revert ctx. induction l1 as [|l l1 IH]; intros ctx; simpl; [done|].
  rewrite IH. lia.
Qed.

Lemma key_line_written S K V :
  key_ok K -> key_line S K (Some S) (key_value_line K V) = true.
Proof.
  intros HK. unfold key_line.
  rewrite key_value_line_not_header, key_value_line_has_eq by done. simpl.
  apply bool_decide_eq_true_2. split; [done|]. by apply key_value_line_key.
Qed.

Lemma next_context_written K V ctx :
  key_ok K -> next_context ctx (key_value_line K V) = ctx.
Proof. intros HK. unfold next_context. by rewrite key_value_line_not_header. Qed.

Lemma key_lines_rewritten S K V ctx lines :
  key_ok K ->
  key_lines S K ctx (rewritten S K V ctx lines) = key_lines S K ctx lines.
Proof.
  intros HK. revert ctx. induction lines as [|l r IH]; intros ctx; simpl; [done|].
  destruct (key_line S K ctx l) eqn:E.
  - pose proof (key_line_context _ _ _ _ E) as ->.
    rewrite key_line_written, next_context_written by done.
    rewrite (key_line_next _ _ _ _ E). by rewrite IH.
  - rewrite E. by rewrite IH.
Qed.

Lemma rewritten_replace S K V ctx lines :
  key_ok K -> value_ok V ->
  Forall2 (fun a b => b = a \/ chunk_ok b) lines (rewritten S K V ctx lines).
Proof.
  intros HK HV. revert ctx. induction lines as [|l r IH]; intros ctx; simpl; constructor.
  - destruct (key_line S K ctx l); [|by left]. right. left. by apply key_value_line_full.
  - apply IH.
Qed.

Lemma rewritten_text S K V ctx lines :
  key_ok K -> value_ok V -> Forall text lines -> Forall text (rewritten S K V ctx lines).
Proof.
  intros HK HV H. revert ctx. induction H as [|l r Hl _ IH]; intros ctx; simpl; constructor.
  - destruct (key_line S K ctx l); [|done]. by apply key_value_line_text.
  - apply IH.
Qed.

Lemma same_replace (ls : list cstring) : Forall2 (fun a b => b = a \/ chunk_ok b) ls ls.
Proof. induction ls; constructor; auto. Qed.




(** ** The shape of the pieces written *)

Lemma chunks_complete ls : chunks ls -> complete_text (concat ls) -> Forall chunk_ok ls.
Proof.
  induction 1 as [|l [Hne [Hf Hlen]]|l ls Hl Hc IH]; intros Hcomp.
  - constructor.
  - exfalso. simpl in Hcomp. rewrite app_nil_r in Hcomp.
    destruct Hcomp as [->|[D' ->]]; [done|].
    apply free_of_app in Hf as [_ Hf]. by inversion Hf.
  - constructor; [done|]. apply IH. simpl in Hcomp.
    destruct (concat ls) as [|c x] eqn:E using rev_ind; [by left|].
    right. exists x. clear IHx. destruct Hcomp as [Hnil|[D' HD]].
    + apply (f_equal length) in Hnil. rewrite !length_app in Hnil. simpl in Hnil. lia.
    + rewrite app_assoc in HD. apply app_inj_tail in HD as [_ ->]. done.
Qed.

Lemma file_lines_complete D :
  text D -> complete_text D -> Forall chunk_ok (file_lines D).
Proof.
  intros Ht Hc. destruct (file_lines_spec D Ht) as [Hch Hcat].
  apply chunks_complete; [done|]. by rewrite Hcat.
Qed.

Lemma same_entries_lines (P : cstring -> Prop) es1 es2 :
  same_entries es1 es2 ->
  Forall (fun e => P (entry_line e)) es2 -> Forall (fun e => P (entry_line e)) es1.
Proof.
  unfold same_entries. revert es2. induction es1 as [|e1 es1 IH]; intros es2 H HF.
  - constructor.
  - destruct es2 as [|e2 es2]; [done|]. simpl in H. inversion H as [[Hs Hk Hv Hr]].
    inversion HF; subst. constructor; [|by eapply IH].
    unfold entry_line in *. by rewrite Hk, Hv.
Qed.

Lemma same_entries_sections (P : cstring -> Prop) es1 es2 :
  same_entries es1 es2 ->
  Forall (fun e => P (section e)) es2 -> Forall (fun e => P (section e)) es1.
Proof.
  unfold same_entries. revert es2. induction es1 as [|e1 es1 IH]; intros es2 H HF.
  - constructor.
  - destruct es2 as [|e2 es2]; [done|]. simpl in H. inversion H as [[Hs Hk Hv Hr]].
    inversion HF; subst. constructor; [|by eapply IH]. by rewrite Hs.
Qed.

Lemma same_entries_sym es1 es2 : same_entries es1 es2 -> same_entries es2 es1.
Proof. unfold same_entries. congruence. Qed.

Section WritesForall.

Variable P : cstring -> Prop.

Lemma close_section_Forall st :
  Forall (fun e => P (entry_line e)) (entries st) -> Forall P (close_section st).2.
Proof.
  intros H. unfold close_section. destruct (in_section st); [|constructor].
  rewrite append_missing_writes. apply Forall_fmap.
  apply Forall_forall. intros e He. apply list_elem_of_filter in He as [_ He].
  rewrite Forall_forall in H. by apply H.
Qed.

Lemma batch_line_Forall st l :
  P l -> Forall (fun e => P (entry_line e)) (entries st) -> Forall P (batch_line st l).2.
Proof.
  intros Hl H. unfold batch_line. destruct (is_header l).
  - pose proof (close_section_Forall st H). destruct (close_section st). simpl in *.
    apply Forall_app. split; [done|]. by constructor.
  - destruct (in_section st && has_eq l); [|by repeat constructor].
    destruct (list_find _ _) as [[i e]|] eqn:F; [|by repeat constructor].
    simpl. constructor; [|constructor].
    apply list_find_Some in F as [Hi _]. rewrite Forall_forall in H.
    apply (H e). by eapply list_elem_of_lookup_2.
Qed.

Lemma scan_batch_Forall lines st :
  Forall P lines -> Forall (fun e => P (entry_line e)) (entries st) ->
  Forall P (scan batch_line st lines).2 /\
  same_entries (entries (scan batch_line st lines).1) (entries st).
Proof.
  intros Hl. revert st. induction Hl as [|l r Hl _ IH]; intros st H; simpl.
  - split; [constructor|done].
  - pose proof (batch_line_Forall st l Hl H) as H1.
    pose proof (batch_line_same st l) as Hs.
    destruct (batch_line st l) as [st1 w1]. simpl in *.
    destruct (IH st1 (same_entries_lines P _ _ Hs H)) as [H2 Hs2].
    destruct (scan batch_line st1 r) as [st2 w2]. simpl in *. split.
    + apply Forall_app. by split.
    + by eapply same_entries_trans.
Qed.

Lemma synthesized_Forall es :
  P [LF] ->
  Forall (fun e => P (entry_line e)) es ->
  Forall (fun e => P (header_line (section e))) es ->
  Forall P (synthesized es).
Proof.
  intros HLF Hl Hh. unfold synthesized. rewrite flat_map_concat_map.
  apply Forall_concat. apply Forall_fmap, Forall_forall. intros s Hs.
  apply first_sections_elem in Hs as (e & He & <-).
  unfold section_block. constructor; [done|]. constructor.
  - rewrite Forall_forall in Hh. by apply (Hh e).
  - apply Forall_fmap, Forall_forall. intros e' He'.
    apply list_elem_of_filter in He' as [_ He']. rewrite Forall_forall in Hl. by apply Hl.
Qed.

Lemma batch_writes_Forall D es :
  P [LF] ->
  Forall P (file_lines D) ->
  Forall (fun e => P (entry_line e)) es ->
  Forall (fun e => P (header_line (section e))) es ->
  Forall P (batch_writes D es).
Proof.
  intros HLF HD Hl Hh. unfold batch_writes.
  pose proof (same_entries_reset es) as Hr.
  destruct (scan_batch_Forall (file_lines D) (mkBatchState [] false (map reset_updated es)) HD)
    as [Hw Hs].
  { simpl. by eapply same_entries_lines. }
  destruct (scan batch_line _ _) as [st w]. simpl in *.
  pose proof (same_entries_trans _ _ _ Hs Hr) as Hst.
  pose proof (close_section_Forall st (same_entries_lines P _ _ Hst Hl)) as Hc.
  pose proof (close_section_same st) as Hcs.
  destruct (close_section st) as [es1 w1]. simpl in *.
  pose proof (same_entries_trans _ _ _ Hcs Hst) as H1.
  pose proof (missing_sections_writes (length es1) es1 ltac:(done)) as Hm.
  destruct (missing_sections _ _) as [es2 w2]. simpl in Hm. subst w2.
  apply Forall_app. split; [done|]. apply Forall_app. split; [done|].
  apply synthesized_Forall; [done| |].
  - apply Forall_forall. intros e He. apply list_elem_of_filter in He as [_ He].
    pose proof (same_entries_lines P _ _ H1 Hl) as HF. rewrite Forall_forall in HF.
    by apply HF.
  - apply Forall_forall. intros e He. apply list_elem_of_filter in He as [_ He].
    pose proof (same_entries_sections (fun s => P (header_line s)) _ _ H1 Hh) as HF.
    rewrite Forall_forall in HF. by apply HF.
Qed.

End WritesForall.
(** ** The lines of the output *)

Lemma chunks_app la lb : Forall chunk_ok la -> chunks lb -> chunks (la ++ lb).
Proof.
  induction 1 as [|l la Hl _ IH]; intros Hb; [done|]. simpl. constructor; auto.
Qed.

(** A text whose last line is complete can be followed by another text
    without a change to its lines. *)
Lemma file_lines_app A B :
  text A -> Forall chunk_ok (file_lines A) -> text B ->
  file_lines (A ++ B) = file_lines A ++ file_lines B.
Proof.
  intros HA Hc HB.
  destruct (file_lines_spec A HA) as [_ HcA].
  destruct (file_lines_spec B HB) as [HchB HcB].
  rewrite <- HcA at 1. rewrite <- HcB at 1. rewrite <- concat_app.
  apply file_lines_chunks.
  - by apply chunks_app.
  - apply Forall_app. split; by apply file_lines_text.
Qed.

Lemma file_lines_concat ps :
  Forall (fun p => text p /\ Forall chunk_ok (file_lines p)) ps ->
  file_lines (concat ps) = concat (map file_lines ps).
Proof.
  induction 1 as [|p ps [Hp Hc] Hps IH]; [done|]. simpl.
  rewrite file_lines_app, IH; try done.
  unfold text, free_of. apply Forall_concat.
  eapply Forall_impl; [exact Hps|]. by intros q [Hq _].
Qed.

Lemma chunk_lines l : chunk_ok l -> text l -> file_lines l = [l].
Proof.
  intros Hc Ht. rewrite <- (app_nil_r l) at 1.
  apply (file_lines_chunks [l]); [|by constructor].
  apply chunks_cons; [done | constructor].
Qed.

Lemma Forall_of_sublist {A} (P : A -> Prop) (l k : list A) :
  sublist l k -> Forall P k -> Forall P l.
Proof.
  intros Hs Hk. apply Forall_forall. intros x Hx.
  rewrite Forall_forall in Hk. apply Hk. by apply (sublist_subseteq _ _ Hs).
Qed.

Lemma sublist_lines (ls ps : list cstring) :
  sublist ls ps -> Forall (fun l => file_lines l = [l]) ls ->
  sublist ls (concat (map file_lines ps)).
Proof.
  induction 1 as [|x l1 l2 _ IH|x l1 l2 _ IH]; intros Hl; simpl.
  - constructor.
  - apply Forall_cons in Hl as [Hx Hl]. rewrite Hx. simpl.
    apply sublist_skip. by apply IH.
  - apply sublist_inserts_l. by apply IH.
Qed.

Lemma entry_line_piece e :
  entry_text e ->
  text (entry_line e) /\ Forall chunk_ok (file_lines (entry_line e)).
Proof.
  intros (_ & Hk & Hv).
  assert (Ht : text (entry_line e)).
  { unfold entry_line, key_value_line, text. apply free_of_app. split; [done|].
    apply free_of_app. split; [apply free_of_s2l_sep|].
    apply free_of_app. split; [done | by repeat constructor]. }
  split; [done|]. apply file_lines_complete; [done|].
  right. exists (key e ++ s2l " = " ++ value e).
  unfold entry_line, key_value_line. by rewrite <- !app_assoc.
Qed.

Lemma header_line_piece S :
  text S -> text (header_line S) /\ Forall chunk_ok (file_lines (header_line S)).
Proof.
  intros HS.
  assert (Ht : text (header_line S)).
  { unfold header_line, text. apply free_of_app. split; [by repeat constructor|].
    apply free_of_app. split; [done | by repeat constructor]. }
  split; [done|]. apply file_lines_complete; [done|].
  right. exists (s2l "[" ++ S ++ s2l "]"). unfold header_line. by rewrite <- !app_assoc.
Qed.

(** The lines of the output of [write_config_batch] are the lines of the
    pieces it writes, when the last line of the document is complete. *)
Lemma batch_output_pieces D es :
  text D -> complete_text D -> Forall entry_text es ->
  file_lines (batch_output D es) = concat (map file_lines (batch_writes D es)).
Proof.
  intros Ht Hc Hes. unfold batch_output. apply file_lines_concat.
  apply (batch_writes_Forall (fun p => text p /\ Forall chunk_ok (file_lines p))).
  - split; [apply empty_line_text|]. rewrite chunk_lines.
    + constructor; [left; apply empty_line_full | constructor].
    + left. apply empty_line_full.
    + apply empty_line_text.
  - pose proof (file_lines_text D Ht) as Htx.
    pose proof (file_lines_complete D Ht Hc) as Hch.
    apply Forall_forall. intros l Hl.
    rewrite Forall_forall in Htx, Hch. split; [by apply Htx|].
    rewrite chunk_lines by auto. constructor; [by apply Hch | constructor].
  - eapply Forall_impl; [exact Hes|]. intros e. apply entry_line_piece.
  - eapply Forall_impl; [exact Hes|]. intros e (Hs & _). by apply header_line_piece.
Qed.




(** ** Which entries are left for the new sections *)

Lemma elem_of_append_missing cur es e' :
  e' ∈ (append_missing cur es).1 ->
  exists e, e ∈ es /\ section e' = section e /\
            (pending e' -> pending e /\ section e <> cur) /\
            (pending e -> section e <> cur -> pending e').
Proof.
  rewrite append_missing_entries. intros H.
  apply list_elem_of_fmap in H as (e & -> & He). exists e. split; [done|].
  destruct (decide (pending e /\ section e = cur)) as [[Hp Hs]|Hn]; simpl.
  - split; [done|]. split; [by intros ?|]. by intros _ ?.
  - split; [done|]. split; [|done]. intros Hp. split; [done|]. intros Hs. by apply Hn.
Qed.

Lemma elem_of_insert_mark (es : list ConfigEntry) j ej e' :
  es !! j = Some ej ->
  e' ∈ <[j := mark_updated ej]> es ->
  (e' = mark_updated ej) \/ (e' ∈ es).
Proof.
  intros Hj H. apply list_elem_of_lookup in H as [i Hi].
  destruct (decide (i = j)) as [->|Hne].
  - rewrite list_lookup_insert_eq in Hi by (by eapply lookup_lt_Some).
    left. by inversion Hi.
  - rewrite list_lookup_insert_ne in Hi by done. right. by eapply list_elem_of_lookup_2.
Qed.

Lemma elem_of_insert_keep (es : list ConfigEntry) j ej e :
  es !! j = Some ej -> e ∈ es -> e <> ej -> e ∈ <[j := mark_updated ej]> es.
Proof.
  intros Hj He Hne. apply list_elem_of_lookup in He as [i Hi].
  apply list_elem_of_lookup. exists i. rewrite list_lookup_insert_ne; [done|].
  intros ->. congruence.
Qed.

Lemma batch_line_visited st l visited :
  visited_ok visited st ->
  visited_ok (visited ++ sections_from (current_section st) [l]) (batch_line st l).1.
Proof.
  intros (H1 & H2 & H3). unfold batch_line. simpl.
  destruct (is_header l) eqn:Hh.
  - unfold close_section.
    set (cur' := trim_string (sscanf_section l (current_section st))).
    destruct (in_section st) eqn:Hin.
    + pose proof (elem_of_append_missing (current_section st) (entries st)) as Hel.
      destruct (append_missing _ _) as [es1 w1]. simpl in *.
      split; [|split].
      * intros e' He' Hp Hv. split; [done|].
        destruct (Hel e' He') as (e & He & Hs & Hpe & _). destruct (Hpe Hp) as [Hpp Hne].
        apply elem_of_app in Hv as [Hv|Hv].
        -- rewrite Hs in Hv. destruct (H1 e He Hpp Hv) as [_ Heq]. done.
        -- apply list_elem_of_singleton in Hv. done.
      * intros e' He' Hv. destruct (Hel e' He') as (e & He & Hs & _ & Hpe).
        rewrite not_elem_of_app in Hv. destruct Hv as [Hv _]. rewrite Hs in Hv.
        apply Hpe; [by apply H2|]. intros Heq. apply Hv. rewrite Heq. by apply H3.
      * intros _. apply elem_of_app. right. by left.
    + simpl. split; [|split].
      * intros e He Hp Hv. split; [done|].
        apply elem_of_app in Hv as [Hv|Hv].
        -- by destruct (H1 e He Hp Hv).
        -- by apply list_elem_of_singleton in Hv.
      * intros e He Hv. rewrite not_elem_of_app in Hv. destruct Hv as [Hv _]. by apply H2.
      * intros _. apply elem_of_app. right. by left.
  - rewrite app_nil_r. destruct (in_section st && has_eq l) eqn:Hie; [|done].
    apply andb_true_iff in Hie as [Hin _].
    destruct (list_find _ _) as [[j ej]|] eqn:F; [|done]. simpl.
    apply list_find_Some in F as (Hj & [Hs _] & _).
    split; [|split; [|done]].
    + intros e' He' Hp Hv.
      destruct (elem_of_insert_mark _ _ _ _ Hj He') as [->|He]; [done|]. by apply H1.
    + intros e' He' Hv.
      destruct (elem_of_insert_mark _ _ _ _ Hj He') as [->|He]; [|by apply H2].
      exfalso. apply Hv. simpl. rewrite Hs. by apply H3.
Qed.

Lemma batch_line_current st l :
  sections_from (current_section st) (l :: [])
  ++ sections_from (current_section (batch_line st l).1) []
  = sections_from (current_section st) [l] /\
  forall r, sections_from (current_section st) (l :: r)
            = sections_from (current_section st) [l]
              ++ sections_from (current_section (batch_line st l).1) r.
Proof.
  split; [by rewrite app_nil_r|]. intros r. unfold batch_line. simpl.
  destruct (is_header l).
  - by destruct (close_section st).
  - destruct (in_section st && has_eq l); [|done].
    by destruct (list_find _ _) as [[j ej]|].
Qed.

Lemma scan_batch_visited lines st visited :
  visited_ok visited st ->
  visited_ok (visited ++ sections_from (current_section st) lines)
             (scan batch_line st lines).1.
Proof.
  revert st visited. induction lines as [|l r IH]; intros st visited H.
  - simpl. by rewrite app_nil_r.
  - destruct (batch_line_current st l) as [_ Hc]. rewrite Hc, app_assoc.
    pose proof (batch_line_visited st l visited H) as H1.
    specialize (IH _ _ H1). simpl.
    destruct (batch_line st l) as [st1 w1]. simpl in *.
    by destruct (scan batch_line st1 r).
Qed.

Lemma filter_ext_elem {A} (P Q : A -> Prop) `{!forall x, Decision (P x)}
    `{!forall x, Decision (Q x)} (l : list A) :
  (forall x, x ∈ l -> P x <-> Q x) -> filter P l = filter Q l.
Proof.
  induction l as [|x l IH]; intros Hext; [done|]. rewrite !filter_cons.
  rewrite IH by (intros y Hy; apply Hext; by right).
  destruct (decide (P x)) as [Hp|Hp].
  - rewrite decide_True; [done|]. apply Hext; [by left|done].
  - rewrite decide_False; [done|]. intros Hq. apply Hp. apply Hext; [by left|done].
Qed.

Lemma filter_section_reset_comm (Psec : cstring -> Prop) `{!forall s, Decision (Psec s)} es :
  filter (fun e => Psec (section e)) (map reset_updated es)
  = map reset_updated (filter (fun e => Psec (section e)) es).
Proof.
  induction es as [|e es IH]; [done|]. simpl. rewrite !filter_cons. simpl.
  destruct (decide (Psec (section e))); simpl; by rewrite IH.
Qed.

Lemma synthesized_same (Psec : cstring -> Prop) `{!forall s, Decision (Psec s)} es1 es2 :
  same_entries es1 es2 ->
  synthesized (filter (fun e => Psec (section e)) es1)
  = synthesized (filter (fun e => Psec (section e)) es2).
Proof.
  intros Hsame. unfold same_entries in Hsame.
  rewrite <- (synthesized_reset (filter _ es1)), <- (synthesized_reset (filter _ es2)).
  by rewrite <- !filter_section_reset_comm, Hsame.
Qed.

(** At the end of the file the entries still to be written are those
    whose section is not a section of the document. *)
Lemma batch_writes_missing D es :
  exists kept,
    batch_writes D es
    = kept ++ synthesized (filter (fun e => section e ∉ doc_sections D) es).
Proof.
  unfold batch_writes.
  pose proof (scan_batch_visited (file_lines D)
                (mkBatchState [] false (map reset_updated es)) []) as Hv.
  simpl in Hv. fold (doc_sections D) in Hv.
  assert (H0 : visited_ok [] (mkBatchState [] false (map reset_updated es))).
  { split; [|split]; simpl; try done.
    - intros e _ _ Hin. by apply elem_of_nil in Hin.
    - intros e He _. apply list_elem_of_fmap in He as (e' & -> & _). done. }
  specialize (Hv H0).
  pose proof (scan_batch_Forall (fun _ => True) (file_lines D)
                (mkBatchState [] false (map reset_updated es))) as Hsame.
  destruct (scan batch_line _ _) as [st w]. simpl in *.
  destruct Hsame as [_ Hsame].
  { apply Forall_forall. done. }
  { apply Forall_forall. done. }
  destruct Hv as (H1 & H2 & H3).
  pose proof (close_section_same st) as Hcs.
  assert (Hpend : forall e, e ∈ (close_section st).1 ->
                            pending e <-> section e ∉ doc_sections D).
  { unfold close_section. destruct (in_section st) eqn:Hin.
    - intros e' He'.
      destruct (elem_of_append_missing _ _ _ He') as (e & He & Hs & Hp1 & Hp2).
      rewrite Hs. split.
      + intros Hp Hin'. destruct (Hp1 Hp) as [Hpe Hne].
        destruct (H1 e He Hpe Hin') as [_ Heq]. done.
      + intros Hn. apply Hp2; [by apply H2|]. intros Heq. apply Hn. rewrite Heq.
        by apply H3.
    - simpl. intros e He. split.
      + intros Hp Hin'. by destruct (H1 e He Hp Hin').
      + by apply H2. }
  destruct (close_section st) as [es1 w1]. simpl in *.
  pose proof (missing_sections_writes (length es1) es1 ltac:(done)) as Hm.
  destruct (missing_sections _ _) as [es2 w2]. simpl in Hm. subst w2.
  exists (w ++ w1). rewrite <- app_assoc. do 2 f_equal.
  rewrite (filter_ext_elem pending (fun e => section e ∉ doc_sections D) es1 Hpend).
  pose proof (synthesized_same (fun s => (s ∉ doc_sections D)) es1 es) as Hsyn.
  apply Hsyn.
  eapply same_entries_trans; [exact Hcs|].
  eapply same_entries_trans; [exact Hsame|]. apply same_entries_reset.
Qed.



(** ** Running the batch again on its own output *)

Section Replay.

Variables S K V : cstring.
Hypothesis HS : section_ok S.
Hypothesis HK : key_ok K.

Lemma scan_one (st : batch_state) l : scan batch_line st [l] = batch_line st l.
Proof. simpl. destruct (batch_line st l). by rewrite app_nil_r. Qed.

Lemma batch_line_written ctx upd :
  ctx = Some S ->
  batch_line (state_at S K V ctx upd) (key_value_line K V)
  = (state_at S K V ctx true, [key_value_line K V]).
Proof.
  intros ->. rewrite batch_line_single.
  by rewrite key_value_line_not_header, key_line_written, next_context_written.
Qed.

Lemma replay_line ctx upd l :
  exists ctx' upd' w,
    batch_line (state_at S K V ctx upd) l = (state_at S K V ctx' upd', w) /\
    scan batch_line (state_at S K V ctx upd) w = (state_at S K V ctx' upd', w).
Proof.
  rewrite batch_line_single. destruct (is_header l) eqn:Hh.
  - destruct (negb upd && bool_decide (ctx = Some S)) eqn:E.
    + apply andb_true_iff in E as [Hu Hc]. apply negb_true_iff in Hu. subst upd.
      apply bool_decide_eq_true_1 in Hc.
      eexists _, _, _. split; [reflexivity|].
      cbn [scan app]. rewrite batch_line_written by done.
      rewrite batch_line_single, Hh. simpl.
      by rewrite bool_decide_eq_true_2 by done.
    + eexists _, _, _. split; [reflexivity|].
      cbn [app]. rewrite scan_one, batch_line_single, Hh, E. done.
  - destruct (key_line S K ctx l) eqn:E.
    + eexists _, _, _. split; [reflexivity|].
      rewrite scan_one, batch_line_written by (by eapply key_line_context).
      by rewrite (key_line_next _ _ _ _ E).
    + eexists _, _, _. split; [reflexivity|].
      by rewrite scan_one, batch_line_single, Hh, E.
Qed.

Lemma replay_scan lines ctx upd :
  exists ctx' upd' w,
    scan batch_line (state_at S K V ctx upd) lines = (state_at S K V ctx' upd', w) /\
    scan batch_line (state_at S K V ctx upd) w = (state_at S K V ctx' upd', w).
Proof.
  revert ctx upd. induction lines as [|l r IH]; intros ctx upd.
  { by exists ctx, upd, []. }
  destruct (replay_line ctx upd l) as (ctx1 & upd1 & w1 & H1 & R1).
  destruct (IH ctx1 upd1) as (ctx2 & upd2 & w2 & H2 & R2).
  exists ctx2, upd2, (w1 ++ w2). simpl. rewrite H1, H2. split; [done|].
  by rewrite scan_app, R1, R2.
Qed.

Lemma eof_writes_single ctx upd :
  eof_writes (state_at S K V ctx upd)
  = if upd then []
    else if bool_decide (ctx = Some S) then [key_value_line K V]
    else new_section_text S K V.
Proof.
  unfold eof_writes, close_section, state_at. destruct ctx as [cur|]; simpl.
  - destruct upd; simpl; [done|].
    destruct (decide (S = cur)) as [->|Hne].
    + by rewrite !bool_decide_eq_true_2 by done.
    + rewrite bool_decide_eq_false_2 by done.
      by rewrite bool_decide_eq_false_2 by congruence.
  - by destruct upd.
Qed.

Lemma replay_eof ctx upd :
  exists ctx',
    scan batch_line (state_at S K V ctx upd) (eof_writes (state_at S K V ctx upd))
    = (state_at S K V ctx' (upd || true), eof_writes (state_at S K V ctx upd)).
Proof.
  rewrite eof_writes_single. destruct upd; [by exists ctx|].
  destruct (bool_decide (ctx = Some S)) eqn:E.
  - apply bool_decide_eq_true_1 in E. exists ctx.
    by rewrite scan_one, batch_line_written.
  - exists (Some S). unfold new_section_text. cbn [scan].
    rewrite batch_line_single. cbn [is_header]. change (Ascii.eqb LF "[") with false.
    cbv iota. assert (key_line S K ctx [LF] = false) as -> by done.
    change (next_context ctx [LF]) with ctx.
    rewrite batch_line_single.
    change (is_header (s2l "[" ++ S ++ s2l "]" ++ [LF])) with true. cbv iota.
    rewrite E. cbn [negb andb orb app].
    assert (Hn : next_context ctx (s2l "[" ++ S ++ s2l "]" ++ [LF]) = Some S).
    { unfold next_context at 1.
      change (is_header (s2l "[" ++ S ++ s2l "]" ++ [LF])) with true. cbv iota.
      f_equal. by apply (header_line_section S). }
    rewrite Hn. rewrite batch_line_written by done. done.
Qed.

Lemma batch_writes_single D u :
  exists ctx' upd' w,
    scan batch_line (state_at S K V None false) (file_lines D)
    = (state_at S K V ctx' upd', w) /\
    scan batch_line (state_at S K V None false) w = (state_at S K V ctx' upd', w) /\
    batch_writes D [mkEntry S K V u] = w ++ eof_writes (state_at S K V ctx' upd').
Proof.
  destruct (replay_scan (file_lines D) None false) as (ctx' & upd' & w & H & R).
  exists ctx', upd', w. split; [done|]. split; [done|].
  unfold batch_writes, eof_writes.
  change (mkBatchState [] false (map reset_updated [mkEntry S K V u]))
    with (state_at S K V None false).
  rewrite H. destruct (close_section _) as [es1 w1].
  by destruct (missing_sections _ _).
Qed.

End Replay.




(** ** The reader on the lines of the writers *)

Lemma is_header_cut l : is_header (before is_eol l) = is_header l.
Proof.
  destruct l as [|c r]; [done|]. simpl.
  destruct (is_eol c) eqn:E; [|done]. simpl.
  unfold is_eol in E. destruct (Ascii.eqb_spec c "["%char) as [->|]; done.
Qed.

Lemma before_before f g s :
  free_of g (before f s) -> before f (before g s) = before f s.
Proof.
  induction s as [|c r IH]; simpl; [done|].
  destruct (f c) eqn:Ef.
  - intros _. destruct (g c); simpl; [done|]. by rewrite Ef.
  - intros H. inversion H as [|? ? Hg Hr]; subst. rewrite Hg. simpl. rewrite Ef.
    by rewrite IH.
Qed.

Lemma has_eq_cut l :
  has_eq (before is_eol l) = true ->
  has_eq l = true /\
  before (is_char "="%char) (before is_eol l) = before (is_char "="%char) l.
Proof.
  unfold has_eq. induction l as [|c r IH]; simpl; [done|].
  destruct (is_eol c) eqn:E; simpl; [done|].
  destruct (is_char "="%char c) eqn:Eq; simpl; [done|].
  intros H. destruct (IH H) as [H1 H2]. by rewrite H2.
Qed.

Lemma file_key_of_cut l :
  has_eq (before is_eol l) = true -> file_key_of (before is_eol l) = file_key_of l.
Proof. intros H. unfold file_key_of. by destruct (has_eq_cut l H) as [_ ->]. Qed.

Lemma sscanf_cut h cur :
  header_ok h -> is_header h = true ->
  sscanf_section (before is_eol h) cur = sscanf_section h cur.
Proof.
  intros Hok Hh. specialize (Hok Hh). destruct h as [|c body]; [done|].
  simpl in *. apply Ascii.eqb_eq in Hh. subst c. simpl.
  by rewrite before_before.
Qed.

Lemma header_line_ok S :
  section_ok S -> free_of (is_char CR) S -> header_ok (header_line S).
Proof.
  intros HS Hcr _. unfold header_line. simpl.
  rewrite before_stop; [| apply (section_no_bracket S HS) | done].
  pose proof (section_no_lf S HS) as Hlf. unfold free_of in *.
  rewrite Forall_forall in *. intros c Hc. unfold is_eol.
  specialize (Hcr c Hc). specialize (Hlf c Hc). unfold is_char in *.
  by rewrite Hcr, Hlf.
Qed.

Section Reader.

Variables (S K : cstring) (value_size : nat).

Lemma read_from_nil ctx : read_from S K value_size ctx [] = None.
Proof. done. Qed.

Lemma read_from_header ctx l rest :
  is_header l = true -> header_ok l ->
  read_from S K value_size ctx (l :: rest)
  = read_from S K value_size (next_context ctx l) rest.
Proof.
  intros Hh Hok. unfold read_from, next_context. simpl.
  rewrite is_header_cut, Hh, sscanf_cut by done. simpl.
  f_equal. apply bool_decide_ext. split; congruence.
Qed.

Lemma read_from_skip ctx l rest :
  is_header l = false -> key_line S K ctx l = false ->
  read_from S K value_size ctx (l :: rest) = read_from S K value_size ctx rest.
Proof.
  intros Hh Hk. unfold read_from. simpl. rewrite is_header_cut, Hh.
  destruct (bool_decide (ctx = Some S)) eqn:Ec; simpl; [|done].
  apply bool_decide_eq_true_1 in Ec.
  destruct (has_eq (before is_eol l)) eqn:He; [|done].
  rewrite file_key_of_cut by done. destruct (has_eq_cut l He) as [He' _].
  unfold key_line in Hk. rewrite Hh, He' in Hk. simpl in Hk.
  apply bool_decide_eq_false_1 in Hk.
  rewrite bool_decide_eq_false_2; [done|]. intros Hfk. by apply Hk.
Qed.

Lemma cut_key_value_line k v :
  free_of is_eol k -> free_of is_eol v ->
  before is_eol (key_value_line k v) = k ++ s2l " = " ++ v.
Proof.
  intros Hk Hv. unfold key_value_line.
  rewrite !app_assoc. apply before_stop; [|done].
  apply free_of_app. split; [|done]. apply free_of_app. split; [done|].
  by repeat constructor.
Qed.

Lemma read_from_found V rest :
  key_ok K -> free_of (is_char CR) K -> readable value_size V ->
  read_from S K value_size (Some S) (key_value_line K V :: rest) = Some V.
Proof.
  intros HK Hcr HV. unfold read_from. cbn [read_loop].
  rewrite is_header_cut, key_value_line_not_header by done.
  rewrite bool_decide_eq_true_2 by done. cbn [andb].
  assert (HKe : free_of is_eol K).
  { pose proof (key_no_lf K HK) as Hlf. unfold free_of in *. rewrite Forall_forall in *.
    intros c Hc. specialize (Hcr c Hc). specialize (Hlf c Hc).
    unfold is_eol, is_char in *. by rewrite Hcr, Hlf. }
  pose proof (readable_no_eol _ V HV) as HVe.
  assert (He : has_eq (before is_eol (key_value_line K V)) = true).
  { rewrite cut_key_value_line by done. unfold has_eq. rewrite existsb_app. simpl.
    apply orb_true_r. }
  rewrite He, file_key_of_cut, key_value_line_key by done.
  rewrite bool_decide_eq_true_2 by done. f_equal.
  rewrite cut_key_value_line by done. unfold file_value_of, strncpy.
  change (s2l " = " ++ V) with ([" "%char] ++ "="%char :: " "%char :: V).
  rewrite app_assoc, after_stop; [| |done].
  - rewrite (take_ge (" "%char :: V))
      by (simpl; pose proof (readable_length _ V HV); lia).
    rewrite trim_string_blank_cons by done. rewrite (readable_trim _ V HV).
    apply take_ge. pose proof (readable_fits _ V HV). lia.
  - apply free_of_app. split; [apply (key_no_eq K HK) | by repeat constructor].
Qed.

Lemma key_line_entry ctx e :
  key_ok (key e) ->
  key_line S K ctx (entry_line e) = bool_decide (ctx = Some S /\ key e = K).
Proof.
  intros HK. unfold key_line, entry_line.
  rewrite key_value_line_not_header, key_value_line_has_eq, key_value_line_key by done.
  done.
Qed.

(** Lines written for entries that are not for [(S, K)] are passed over. *)
Lemma read_from_entries ctx es rest :
  Forall (fun e => key_ok (key e)) es ->
  Forall (fun e => ~ (ctx = Some S /\ key e = K)) es ->
  read_from S K value_size ctx (map entry_line es ++ rest)
  = read_from S K value_size ctx rest.
Proof.
  induction es as [|e es IH]; intros Hok Hn; [done|].
  inversion Hok; subst. inversion Hn; subst. simpl.
  rewrite read_from_skip.
  - by apply IH.
  - by apply key_value_line_not_header.
  - rewrite key_line_entry by done. by apply bool_decide_eq_false_2.
Qed.

Lemma read_from_empty_line ctx rest :
  read_from S K value_size ctx ([LF] :: rest) = read_from S K value_size ctx rest.
Proof. by apply read_from_skip. Qed.

Lemma read_from_header_line ctx s rest :
  section_ok s -> free_of (is_char CR) s ->
  read_from S K value_size ctx (header_line s :: rest)
  = read_from S K value_size (Some s) rest.
Proof.
  intros Hs Hcr. rewrite read_from_header; [|done|by apply header_line_ok].
  unfold next_context. rewrite header_line_is_header. by rewrite header_line_section.
Qed.

End Reader.

(** ** Reading back the value of the first entry for a key *)

Lemma entry_ok_reset e : entry_ok (reset_updated e) <-> entry_ok e.
Proof. destruct e. split; intros [? ? ? ?]; by constructor. Qed.

Lemma same_entries_ok es1 es2 :
  same_entries es1 es2 -> Forall entry_ok es2 -> Forall entry_ok es1.
Proof.
  unfold same_entries. revert es2. induction es1 as [|e1 es1 IH]; intros es2 H HF.
  - constructor.
  - destruct es2 as [|e2 es2]; [done|]. simpl in H. inversion H as [[Hs Hk Hv Hr]].
    inversion HF as [|? ? [? ? ? ?] HF']; subst. constructor; [|by eapply IH].
    constructor; by rewrite ?Hs, ?Hk, ?Hv.
Qed.

Lemma total_writes_cons st l r :
  total_writes st (l :: r) = (batch_line st l).2 ++ total_writes (batch_line st l).1 r.
Proof.
  unfold total_writes. simpl. destruct (batch_line st l) as [st1 w1]. simpl.
  destruct (scan batch_line st1 r) as [st2 w2]. by rewrite app_assoc.
Qed.

Section ReadBack.

Variables (S K V : cstring) (value_size : nat).
Hypothesis HK : key_ok K.
Hypothesis HKcr : free_of (is_char CR) K.
Hypothesis HV : readable value_size V.

Lemma awaiting_find es :
  awaiting S K V es ->
  exists j e1, list_find (targets S K) es = Some (j, e1) /\ key e1 = K /\ value e1 = V.
Proof.
  intros (pre & e1 & post & -> & Hpre & Ht & Hv & _).
  exists (length pre), e1. split; [|split; [apply Ht|done]].
  apply list_find_Some. split; [|split; [done|]].
  - by rewrite list_lookup_middle.
  - intros j y Hj Hlt. rewrite lookup_app_l in Hj by done.
    rewrite Forall_forall in Hpre. apply Hpre. by eapply list_elem_of_lookup_2.
Qed.

Lemma awaiting_lines (P : ConfigEntry -> Prop) `{!forall e, Decision (P e)} es rest :
  awaiting S K V es -> Forall entry_ok es ->
  (forall e, pending e -> section e = S -> P e) ->
  (forall e, P e -> section e = S) ->
  read_from S K value_size (Some S) (map entry_line (filter P es) ++ rest) = Some V.
Proof.
  intros (pre & e1 & post & -> & Hpre & [Hs Hk] & Hv & Hp) Hok HP1 HP2.
  rewrite filter_app, filter_cons, decide_True by (by apply HP1).
  rewrite map_app, <- app_assoc. rewrite read_from_entries.
  - simpl. unfold entry_line. rewrite Hk, Hv. by apply read_from_found.
  - apply Forall_app in Hok as [Hok _]. apply Forall_forall. intros e He.
    apply list_elem_of_filter in He as [_ He]. rewrite Forall_forall in Hok.
    apply (entry_key e). by apply Hok.
  - apply Forall_forall. intros e He. apply list_elem_of_filter in He as [HPe He].
    rewrite Forall_forall in Hpre. intros [_ Hke]. apply (Hpre e He).
    split; [by apply HP2|done].
Qed.

Lemma awaiting_append_other cur es :
  awaiting S K V es -> cur <> S -> awaiting S K V (append_missing cur es).1.
Proof.
  intros (pre & e1 & post & -> & Hpre & [Hs Hk] & Hv & Hp) Hne.
  rewrite append_missing_entries, map_app. simpl.
  rewrite decide_False by (intros [_ ?]; congruence).
  eexists _, e1, _. split; [reflexivity|]. split; [|done].
  apply Forall_fmap. eapply Forall_impl; [exact Hpre|].
  intros e He. simpl. by destruct (decide _).
Qed.

Lemma awaiting_insert cur fk es j ej :
  awaiting S K V es ->
  list_find (targets cur fk) es = Some (j, ej) ->
  ~ (cur = S /\ fk = K) ->
  awaiting S K V (<[j := mark_updated ej]> es).
Proof.
  intros (pre & e1 & post & -> & Hpre & [Hs Hk] & Hv & Hp) Hfind Hne.
  apply list_find_Some in Hfind as (Hj & [Hjs Hjk] & _).
  destruct (lt_eq_lt_dec j (length pre)) as [[Hlt|Heq]|Hgt].
  - rewrite insert_app_l by done.
    eexists _, e1, post. split; [reflexivity|]. split; [|done].
    rewrite lookup_app_l in Hj by done.
    apply Forall_insert; [done|]. rewrite Forall_forall in Hpre.
    apply (Hpre ej). by eapply list_elem_of_lookup_2.
  - subst j. rewrite list_lookup_middle in Hj by done. inversion Hj; subst ej.
    exfalso. apply Hne. split; congruence.
  - rewrite insert_app_r_alt by lia.
    destruct (j - length pre) as [|k] eqn:E; [lia|]. simpl.
    by eexists pre, e1, _.
Qed.

Lemma awaiting_pending es : awaiting S K V es -> awaiting S K V (filter pending es).
Proof.
  intros (pre & e1 & post & -> & Hpre & Ht & Hv & Hp).
  rewrite filter_app, filter_cons, decide_True by done.
  eexists _, e1, _. split; [reflexivity|]. split; [|done].
  apply Forall_forall. intros e He. apply list_elem_of_filter in He as [_ He].
  rewrite Forall_forall in Hpre. by apply Hpre.
Qed.

Lemma awaiting_elem es : awaiting S K V es -> exists e, e ∈ es /\ section e = S.
Proof.
  intros (pre & e1 & post & -> & _ & [Hs _] & _). exists e1. split; [|done].
  apply elem_of_app. right. by left.
Qed.

Lemma read_from_block ctx es s rest :
  Forall entry_ok es -> s <> S -> (exists e, e ∈ es /\ section e = s) ->
  read_from S K value_size ctx (section_block es s ++ rest)
  = read_from S K value_size (Some s) rest.
Proof.
  intros Hok Hne (e & He & <-). rewrite Forall_forall in Hok.
  unfold section_block. cbn [app].
  rewrite read_from_empty_line.
  change (s2l "[" ++ section e ++ s2l "]" ++ [LF]) with (header_line (section e)).
  rewrite read_from_header_line
    by (apply (entry_section e) || apply (entry_section_no_cr e); by apply Hok).
  apply read_from_entries.
  - apply Forall_forall. intros e' He'. apply list_elem_of_filter in He' as [_ He'].
    apply (entry_key e'). by apply Hok.
  - apply Forall_forall. intros e' _ [Hc _]. congruence.
Qed.

Lemma read_from_blocks ctx es secs rest :
  Forall entry_ok es ->
  Forall (fun s => s <> S /\ exists e, e ∈ es /\ section e = s) secs ->
  exists ctx',
    read_from S K value_size ctx (flat_map (section_block es) secs ++ rest)
    = read_from S K value_size ctx' rest.
Proof.
  intros Hok. revert ctx. induction secs as [|s secs IH]; intros ctx Hs.
  - by exists ctx.
  - inversion Hs as [|? ? [Hne Hex] Hs']; subst. cbn [flat_map]. rewrite <- app_assoc.
    rewrite read_from_block by done. by apply IH.
Qed.

Lemma read_from_synthesized ctx es :
  Forall entry_ok es -> awaiting S K V es -> Forall pending es ->
  read_from S K value_size ctx (synthesized es) = Some V.
Proof.
  intros Hok Haw Hpend. destruct (awaiting_elem es Haw) as (e1 & He1 & Hs1).
  assert (Hin : S ∈ first_sections es) by (apply first_sections_elem; eauto).
  apply list_elem_of_split_l in Hin as (a & b & Hsplit & Hna).
  unfold synthesized. rewrite Hsplit, flat_map_app. cbn [flat_map].
  destruct (read_from_blocks ctx es a
              (section_block es S ++ flat_map (section_block es) b) Hok) as (ctx' & ->).
  { apply Forall_forall. intros s Hs. split; [by intros ->|].
    apply first_sections_elem. rewrite Hsplit. apply elem_of_app. by left. }
  unfold section_block at 1. cbn [app].
  rewrite read_from_empty_line.
  change (s2l "[" ++ S ++ s2l "]" ++ [LF]) with (header_line S).
  rewrite Forall_forall in Hok. pose proof (Hok e1 He1) as Hok1.
  pose proof (entry_section e1 Hok1) as HSok. pose proof (entry_section_no_cr e1 Hok1) as HScr.
  rewrite Hs1 in HSok, HScr.
  rewrite read_from_header_line by done.
  apply awaiting_lines; [done| by apply Forall_forall | done | done].
Qed.

Lemma read_back_eof st :
  state_ok st -> Forall entry_ok (entries st) -> awaiting S K V (entries st) ->
  read_from S K value_size (context_of st) (eof_writes st) = Some V.
Proof.
  intros Hst Hok Haw. unfold eof_writes, close_section, context_of.
  destruct (in_section st) eqn:Hin.
  - pose proof (append_missing_writes (current_section st) (entries st)) as Hw.
    pose proof (same_entries_append_missing (current_section st) (entries st)) as Hsame.
    pose proof (append_missing_pending (current_section st) (entries st)) as Hp.
    destruct (decide (current_section st = S)) as [Hc|Hc].
    + destruct (append_missing _ _) as [es1 w1]. simpl in *. subst w1.
      destruct (missing_sections _ _) as [es2 w2]. rewrite Hc.
      apply awaiting_lines; [done|done| |].
      * intros e He Hs. by split.
      * by intros e [_ Hs].
    + pose proof (awaiting_append_other _ _ Haw Hc) as Haw1.
      destruct (append_missing _ _) as [es1 w1]. simpl in *. subst w1.
      pose proof (missing_sections_writes (length es1) es1 ltac:(done)) as Hm.
      destruct (missing_sections _ _) as [es2 w2]. simpl in Hm. subst w2.
      rewrite read_from_entries.
      * apply read_from_synthesized.
        -- apply Forall_forall. intros e He. apply list_elem_of_filter in He as [_ He].
           pose proof (same_entries_ok _ _ Hsame Hok) as Hok1.
           rewrite Forall_forall in Hok1. by apply Hok1.
        -- by apply awaiting_pending.
        -- apply Forall_forall. intros e He. by apply list_elem_of_filter in He as [He _].
      * apply Forall_forall. intros e He. apply list_elem_of_filter in He as [_ He].
        rewrite Forall_forall in Hok. apply (entry_key e). by apply Hok.
      * apply Forall_forall. intros e _ [Hcs _]. congruence.
  - pose proof (missing_sections_writes (length (entries st)) (entries st) ltac:(done)) as Hm.
    destruct (missing_sections _ _) as [es2 w2]. simpl in Hm. subst w2. simpl.
    apply read_from_synthesized.
    + apply Forall_forall. intros e He. apply list_elem_of_filter in He as [_ He].
      rewrite Forall_forall in Hok. by apply Hok.
    + by apply awaiting_pending.
    + apply Forall_forall. intros e He. by apply list_elem_of_filter in He as [He _].
Qed.

End ReadBack.

Section ReadBackScan.

Variables (S K V : cstring) (value_size : nat).
Hypothesis HK : key_ok K.
Hypothesis HKcr : free_of (is_char CR) K.
Hypothesis HV : readable value_size V.

Lemma key_line_state st l :
  key_line S K (context_of st) l = true ->
  in_section st = true /\ has_eq l = true /\ is_header l = false /\
  current_section st = S /\ file_key_of l = K.
Proof.
  unfold key_line, context_of. intros H.
  apply andb_true_iff in H as [H Hd]. apply andb_true_iff in H as [Hh He].
  apply negb_true_iff in Hh. apply bool_decide_eq_true_1 in Hd as [Hc Hk].
  destruct (in_section st); [|done]. inversion Hc. done.
Qed.

Lemma read_back_line st l rest :
  state_ok st -> header_ok l ->
  Forall entry_ok (entries st) -> awaiting S K V (entries st) ->
  read_from S K value_size (context_of st) ((batch_line st l).2 ++ rest) = Some V \/
  (read_from S K value_size (context_of st) ((batch_line st l).2 ++ rest)
   = read_from S K value_size (context_of (batch_line st l).1) rest /\
   awaiting S K V (entries (batch_line st l).1)).
Proof.
  intros Hst Hl Hok Haw.
  destruct (batch_line_context st l Hst) as [Hctx _]. rewrite Hctx.
  unfold batch_line. destruct (is_header l) eqn:Hh.
  - unfold close_section, context_of, next_context. rewrite Hh.
    destruct (in_section st) eqn:Hin.
    + pose proof (append_missing_writes (current_section st) (entries st)) as Hw.
      destruct (decide (current_section st = S)) as [Hc|Hc].
      * left. destruct (append_missing _ _) as [es1 w1]. simpl in *. subst w1.
        rewrite <- app_assoc, Hc. apply awaiting_lines; try done.
        by intros e [_ Hs].
      * right. pose proof (awaiting_append_other S K V _ _ Haw Hc) as Haw1.
        destruct (append_missing _ _) as [es1 w1]. simpl in *. subst w1.
        split; [|done]. rewrite <- app_assoc. rewrite read_from_entries.
        -- cbn [app]. rewrite read_from_header by done. unfold next_context. by rewrite Hh.
        -- apply Forall_forall. intros e He. apply list_elem_of_filter in He as [_ He].
           rewrite Forall_forall in Hok. apply (entry_key e). by apply Hok.
        -- apply Forall_forall. intros e _ [Hcs _]. congruence.
    + right. simpl. split; [|done].
      rewrite read_from_header by done. unfold next_context. by rewrite Hh.
  - assert (Hskip : key_line S K (context_of st) l = false ->
                    read_from S K value_size (context_of st) ([l] ++ rest)
                    = read_from S K value_size (next_context (context_of st) l) rest).
    { intros Hkl. simpl. rewrite read_from_skip by done.
      unfold next_context. by rewrite Hh. }
    destruct (in_section st && has_eq l) eqn:Hie.
    2:{ right. split; [|done]. apply Hskip.
        destruct (key_line S K (context_of st) l) eqn:Hkl; [|done].
        destruct (key_line_state st l Hkl) as (Hi & He & _). by rewrite Hi, He in Hie. }
    apply andb_true_iff in Hie as [Hin He].
    destruct (list_find _ _) as [[j ej]|] eqn:Hfind.
    2:{ right. split; [|done]. apply Hskip.
        destruct (key_line S K (context_of st) l) eqn:Hkl; [|done].
        destruct (key_line_state st l Hkl) as (_ & _ & _ & Hc & Hfk).
        rewrite Hc, Hfk in Hfind.
        destruct (awaiting_find S K V _ Haw) as (j & e1 & Hf & _). congruence. }
    simpl.
    assert (Hnc : next_context (context_of st) l = Some (current_section st)).
    { unfold next_context, context_of. by rewrite Hh, Hin. }
    destruct (decide (current_section st = S /\ file_key_of l = K)) as [[Hc Hfk]|Hn].
    + left. rewrite Hc, Hfk in Hfind.
      destruct (awaiting_find S K V _ Haw) as (j' & e1 & Hf & Hk1 & Hv1).
      rewrite Hf in Hfind. inversion Hfind; subst j' e1. rewrite Hk1, Hv1.
      unfold context_of. rewrite Hin, Hc. by apply read_from_found.
    + right. split; [|by eapply awaiting_insert].
      pose proof Hfind as Hfind'.
      apply list_find_Some in Hfind' as (Hj & [Hjs Hjk] & _).
      rewrite Forall_forall in Hok.
      pose proof (Hok ej ltac:(by eapply list_elem_of_lookup_2)) as Hokj.
      rewrite read_from_skip.
      * by rewrite Hnc; unfold context_of; rewrite Hin.
      * apply key_value_line_not_header. apply (entry_key ej Hokj).
      * change (key_value_line (key ej) (value ej)) with (entry_line ej).
        rewrite key_line_entry by apply (entry_key ej Hokj).
        apply bool_decide_eq_false_2. unfold context_of. rewrite Hin.
        intros [Hc Hke]. apply Hn. split; congruence.
Qed.

Lemma read_back lines st :
  state_ok st -> Forall header_ok lines ->
  Forall entry_ok (entries st) -> awaiting S K V (entries st) ->
  read_from S K value_size (context_of st) (total_writes st lines) = Some V.
Proof.
  intros Hst Hl. revert st Hst. induction Hl as [|l r Hl _ IH]; intros st Hst Hok Haw.
  - unfold total_writes. simpl. by apply read_back_eof.
  - rewrite total_writes_cons.
    destruct (read_back_line st l (total_writes (batch_line st l).1 r) Hst Hl Hok Haw)
      as [Hfound | [Hnext Haw1]]; [done|].
    rewrite Hnext. apply IH; [| |done].
    + by apply batch_line_context.
    + eapply same_entries_ok; [apply batch_line_same|done].
Qed.

(** The value read back from the output of a batch is that of the first
    entry of the batch for the section and key read. *)
Lemma read_back_output D es e1 :
  text D -> complete_text D -> headers_ok D ->
  Forall entry_ok es ->
  first_target S K es e1 -> value e1 = V ->
  read_scan (batch_output D es) S K value_size = Some V.
Proof.
  intros Ht Hc Hh Hok (pre & post & -> & Hpre & Htg) Hv.
  assert (Hshape : Forall (fun l => chunk_ok l /\ text l)
                          (batch_writes D (pre ++ e1 :: post))).
  { rewrite Forall_forall in Hok. apply batch_writes_Forall.
    - split; [left; apply empty_line_full | apply empty_line_text].
    - apply Forall_and. split; [by apply file_lines_complete | by apply file_lines_text].
    - apply Forall_forall. intros e He. destruct (Hok e He) as [Hs _ Hk Hvl]. split.
      + left. by apply key_value_line_full.
      + by apply key_value_line_text.
    - apply Forall_forall. intros e He. destruct (Hok e He) as [Hs _ Hk Hvl]. split.
      + left. by apply header_line_full.
      + by apply header_line_text. }
  apply Forall_and in Hshape as [Hck Htx].
  unfold read_scan, batch_output.
  rewrite file_lines_chunks by (by apply chunks_all || done).
  pose proof (read_back (file_lines D)
                (mkBatchState [] false (map reset_updated (pre ++ e1 :: post)))) as H.
  unfold total_writes, eof_writes in H. unfold batch_writes.
  destruct (scan batch_line _ _) as [st w].
  destruct (close_section st) as [es1 w1]. destruct (missing_sections _ _) as [es2 w2].
  apply H; try done.
  - simpl. eapply same_entries_ok; [apply same_entries_reset|done].
  - simpl. rewrite map_app. simpl.
    eexists _, (reset_updated e1), _. split; [reflexivity|]. split; [|done].
    apply Forall_fmap. eapply Forall_impl; [exact Hpre|]. by intros [].
Qed.

End ReadBackScan.

(** ** Round trip *)







(** * Further properties of the code *)

(** ** trim_string *)

Lemma skip_leading_split s :
  exists a, s = a ++ skip_leading s /\ Forall (fun c => is_blank c = true) a.
Proof.
  induction s as [|c r (a & Ha & Hb)]; [by exists []|]. simpl.
  destruct (is_blank c) eqn:E.
  - exists (c :: a). split; [by rewrite Ha at 1 | by constructor].
  - by exists [].
Qed.

Lemma skip_leading_head s c : head (skip_leading s) = Some c -> is_blank c = false.
Proof.
  induction s as [|x r IH]; simpl; [done|].
  destruct (is_blank x) eqn:E; [done|]. simpl. congruence.
Qed.

Lemma drop_trailing_split s :
  exists b, s = drop_trailing s ++ b /\ Forall (fun c => is_trailing c = true) b.
Proof.
  induction s as [|c r (b & Hb & Ht)]; [by exists []|]. simpl.
  destruct (drop_trailing r) as [|x r'] eqn:E.
  - simpl in Hb. subst b. destruct (is_trailing c) eqn:Ec.
    + exists (c :: r). split; [done | by constructor].
    + by exists r.
  - exists b. split; [|done]. by rewrite Hb at 1.
Qed.

Lemma drop_trailing_last s c : last (drop_trailing s) = Some c -> is_trailing c = false.
Proof.
  induction s as [|x r IH]; simpl; [done|].
  destruct (drop_trailing r) as [|y r'] eqn:E.
  - destruct (is_trailing x) eqn:Ex; simpl; [done | congruence].
  - intros H. apply IH. by rewrite last_cons_cons in H.
Qed.

Lemma drop_trailing_head s c : head (drop_trailing s) = Some c -> head s = Some c.
Proof.
  destruct s as [|x r]; simpl; [done|].
  destruct (drop_trailing r); [destruct (is_trailing x)|]; simpl; congruence.
Qed.

Lemma skip_leading_fixed s :
  (forall c, head s = Some c -> is_blank c = false) -> skip_leading s = s.
Proof. destruct s as [|c r]; simpl; [done|]. intros H. by rewrite (H c). Qed.

Lemma drop_trailing_fixed s :
  (forall c, last s = Some c -> is_trailing c = false) -> drop_trailing s = s.
Proof.
  induction s as [|x r IH]; simpl; [done|]. intros H.
  destruct r as [|y r'].
  - simpl. by rewrite (H x).
  - rewrite IH; [done|]. intros c Hc. apply H. by rewrite last_cons_cons.
Qed.

(** A string with a clean first and last character is left alone. *)
Lemma trim_string_fixed s :
  (forall c, head s = Some c -> is_blank c = false) ->
  (forall c, last s = Some c -> is_trailing c = false) ->
  trim_string s = s.
Proof.
  intros Hh Hl. unfold trim_string. rewrite skip_leading_fixed by done.
  by apply drop_trailing_fixed.
Qed.

Lemma trim_string_parts s :
  exists a b,
    s = a ++ trim_string s ++ b /\
    Forall (fun c => is_blank c = true) a /\
    Forall (fun c => is_trailing c = true) b.
Proof.
  destruct (skip_leading_split s) as (a & Ha & Hba).
  destruct (drop_trailing_split (skip_leading s)) as (b & Hb & Htb).
  exists a, b. unfold trim_string. repeat split; try done. by rewrite <- Hb.
Qed.

Lemma trim_string_head s c : head (trim_string s) = Some c -> is_blank c = false.
Proof. intros Hc. apply (skip_leading_head s). by apply drop_trailing_head. Qed.

Lemma trim_string_last s c : last (trim_string s) = Some c -> is_trailing c = false.
Proof. apply drop_trailing_last. Qed.

Lemma trim_string_length s : length (trim_string s) <= length s.
Proof.
  destruct (trim_string_parts s) as (a & b & Hs & _).
  rewrite Hs at 2. rewrite !length_app. lia.
Qed.

Lemma trim_string_free stop s : free_of stop s -> free_of stop (trim_string s).
Proof.
  destruct (trim_string_parts s) as (a & b & Hs & _). intros H.
  rewrite Hs in H. apply free_of_app in H as [_ H]. by apply free_of_app in H as [H _].
Qed.

(** [trim_string] cuts blanks and tabs off the front and blanks, tabs,
    carriage returns and newlines off the end, and nothing else: the
    string is what was cut off the front, the result, and what was cut off
    the end; the result neither starts with a blank or tab nor ends with a
    blank, tab, carriage return or newline.  (A carriage return or newline
    at the front stays.) *)
Theorem trim_string_cuts (s : cstring) :
  exists a b,
    s = a ++ trim_string s ++ b /\
    Forall (fun c => is_blank c = true) a /\
    Forall (fun c => is_trailing c = true) b /\
    (forall c, head (trim_string s) = Some c -> is_blank c = false) /\
    (forall c, last (trim_string s) = Some c -> is_trailing c = false).
Proof.
  destruct (trim_string_parts s) as (a & b & Hs & Ha & Hb).
  exists a, b. split; [done|]. split; [done|]. split; [done|]. split.
  - apply trim_string_head.
  - apply trim_string_last.
Qed.

(** Trimming twice is trimming once. *)
Theorem trim_string_idempotent (s : cstring) :
  trim_string (trim_string s) = trim_string s.
Proof.
  apply trim_string_fixed.
  - apply trim_string_head.
  - apply trim_string_last.
Qed.

(** ** read_config_value: the value returned *)

Lemma free_of_take stop n s : free_of stop s -> free_of stop (take n s).
Proof. unfold free_of. apply Forall_take. Qed.

Lemma free_of_after stop f s : free_of stop s -> free_of stop (after f s).
Proof.
  induction s as [|c r IH]; simpl; [done|]. intros H. inversion H; subst.
  destruct (f c); auto.
Qed.

Lemma head_take_blank n (s : cstring) :
  (forall c, head s = Some c -> is_blank c = false) ->
  forall c, head (take n s) = Some c -> is_blank c = false.
Proof. destruct n, s; simpl; try done. Qed.

(** Lines that fit: what [strncpy] copies is the whole text. *)
Lemma lines_fit_elem D l :
  lines_fit D -> l ∈ file_lines D -> key_fits l = true /\ value_fits l = true.
Proof.
  unfold lines_fit. intros H Hl. rewrite forallb_forall in H.
  apply andb_prop. apply H. by apply list_elem_of_In.
Qed.

Lemma file_key_fits l :
  has_eq l = true -> key_fits l = true ->
  file_key_of l = trim_string (before (is_char "="%char) l).
Proof.
  unfold key_fits, file_key_of, strncpy. intros -> H. simpl in H.
  apply Nat.ltb_lt in H. by rewrite take_ge by lia.
Qed.

Lemma file_value_fits l :
  value_fits l = true ->
  file_value_of (before is_eol l)
  = trim_string (after (is_char "="%char) (before is_eol l)).
Proof.
  unfold value_fits, file_value_of, strncpy. intros H.
  apply Nat.ltb_lt in H. by rewrite take_ge by lia.
Qed.

Lemma read_loop_source S K value_size lines cur ins v :
  read_loop S K value_size lines cur ins = Some v ->
  exists raw, raw ∈ lines /\
    v = take (value_size - 1) (file_value_of (before is_eol raw)).
Proof.
  revert cur ins. induction lines as [|raw rest IH]; intros cur ins; simpl; [done|].
  assert (Hrest : forall c i, read_loop S K value_size rest c i = Some v ->
            exists raw0, raw0 ∈ raw :: rest /\
              v = take (value_size - 1) (file_value_of (before is_eol raw0))).
  { intros c i H. destruct (IH c i H) as (raw0 & Hin & Hv).
    exists raw0. split; [by apply elem_of_cons; right | done]. }
  destruct (is_header (before is_eol raw)); [apply Hrest|].
  destruct (ins && has_eq (before is_eol raw)); [|apply Hrest].
  case_bool_decide; [|apply Hrest].
  intros Hv. inversion Hv; subst v. exists raw. split; [by apply elem_of_cons; left | done].
Qed.

(** On a file whose lines fit the arrays of the reader,
    [read_config_value] returns 0 and leaves the buffer alone, or returns
    1 with a value that fits the buffer with its NUL, is shorter than 255
    characters, holds neither carriage return nor newline and does not
    start with a blank or tab. *)
Theorem read_config_value_result (sec k : cstring) (value_size : nat) (fopen_ok : bool)
    (fs : FileSys) :
  0 < value_size ->
  match config_file fs with Some D => lines_fit D | None => True end ->
  read_config_value sec k value_size fopen_ok fs = (0%Z, None) \/
  exists v,
    read_config_value sec k value_size fopen_ok fs = (1%Z, Some v) /\
    length v < value_size /\ length v < 255 /\ free_of is_eol v /\
    (forall c, head v = Some c -> is_blank c = false).
Proof.
  intros Hsize Hfit. unfold read_config_value, read_scan.
  destruct (config_file fs) as [D|]; [|by left].
  destruct fopen_ok; [|by left].
  destruct (read_loop _ _ _ _ _ _) as [v|] eqn:E; [|by left].
  right. exists v. split; [done|].
  destruct (read_loop_source _ _ _ _ _ _ _ E) as (raw & Hin & ->).
  destruct (lines_fit_elem D raw Hfit Hin) as [_ Hv].
  rewrite (file_value_fits raw Hv).
  pose proof (trim_string_length (after (is_char "="%char) (before is_eol raw))) as Hlen.
  unfold value_fits in Hv. apply Nat.ltb_lt in Hv.
  repeat split.
  - rewrite length_take. lia.
  - rewrite length_take. lia.
  - apply free_of_take, trim_string_free, free_of_after, before_is_free.
  - apply head_take_blank. apply trim_string_head.
Qed.

Lemma read_config_value_result_witness :
  read_config_value (s2l "a") (s2l "x") 32 true (mkFS (Some docB) None) = (0%Z, None) \/
  exists v,
    read_config_value (s2l "a") (s2l "x") 32 true (mkFS (Some docB) None)
    = (1%Z, Some v) /\
    length v < 32 /\ length v < 255 /\ free_of is_eol v /\
    (forall c, head v = Some c -> is_blank c = false).
Proof.
  apply (read_config_value_result (s2l "a") (s2l "x") 32 true (mkFS (Some docB) None)).
  - lia.
  - reflexivity.
Defined.

(** ** read_config_value: a key that is not there *)

Lemma read_from_key_line S K value_size lines ctx v :
  Forall header_ok lines ->
  read_from S K value_size ctx lines = Some v ->
  0 < key_lines S K ctx lines.
Proof.
  intros Hl. revert ctx. induction Hl as [|l r Hl _ IH]; intros ctx; [done|].
  cbn [key_lines]. destruct (is_header l) eqn:Hh.
  - rewrite read_from_header by done. intros H. apply IH in H. lia.
  - destruct (key_line S K ctx l) eqn:Hk; [lia|].
    rewrite read_from_skip by done. intros H.
    assert (next_context ctx l = ctx) as -> by (unfold next_context; by rewrite Hh).
    apply IH in H. lia.
Qed.



(** ** read_config_value: the first line for a key *)

Lemma read_scan_from D S K value_size :
  read_scan D S K value_size = read_from S K value_size None (file_lines D).
Proof. done. Qed.

Lemma read_from_first S K value_size l1 :
  forall ctx k1 l2,
    Forall header_ok l1 ->
    key_lines S K ctx l1 = 0 ->
    context_after ctx l1 = Some S ->
    is_header k1 = false -> has_eq (before is_eol k1) = true -> file_key_of k1 = K ->
    read_from S K value_size ctx (l1 ++ k1 :: l2)
    = Some (strncpy (value_size - 1) (file_value_of (before is_eol k1))).
Proof.
  induction l1 as [|l l1 IH]; intros ctx k1 l2 Hh Hn Hctx Hk1 He Hk.
  - simpl in Hctx. subst ctx. unfold read_from. cbn [app read_loop].
    rewrite is_header_cut, Hk1, He, file_key_of_cut by done.
    rewrite !bool_decide_eq_true_2 by done. done.
  - apply Forall_cons in Hh as [Hhl Hh]. cbn [key_lines] in Hn.
    cbn [context_after] in Hctx. cbn [app].
    destruct (is_header l) eqn:Hl.
    + rewrite read_from_header by done. apply IH; try done. lia.
    + destruct (key_line S K ctx l) eqn:Hkl; [lia|].
      rewrite read_from_skip by done.
      assert (Hnext : next_context ctx l = ctx) by (unfold next_context; by rewrite Hl).
      rewrite Hnext in *. by apply IH.
Qed.

(** [read_config_value] returns the value of the first line of the
    section with the key.  On a file whose lines fit the arrays of the
    reader, for a buffer of at least one byte: when [k1] is read inside
    [sec], is not a header line, has an equals sign in front of any
    carriage return, its text in front of the equals sign is [k] once
    trimmed, and no line before it has that key inside [sec], then the
    value returned is the text of [k1] between the equals sign and the
    first carriage return or newline, trimmed and cut to the size of the
    buffer; the lines after [k1] play no role. *)
Theorem read_config_value_first (D sec k : cstring) (value_size : nat) (fs : FileSys)
    (l1 : list cstring) (k1 : cstring) (l2 : list cstring) :
  config_file fs = Some D -> headers_ok D -> lines_fit D -> 0 < value_size ->
  file_lines D = l1 ++ k1 :: l2 ->
  key_lines sec k None l1 = 0 ->
  context_after None l1 = Some sec ->
  is_header k1 = false -> has_eq (before is_eol k1) = true ->
  trim_string (before (is_char "="%char) k1) = k ->
  read_config_value sec k value_size true fs
  = (1%Z, Some (take (value_size - 1)
                  (trim_string (after (is_char "="%char) (before is_eol k1))))).
Proof.
  intros Hfs Hh Hfit _ Hsplit Hn Hctx Hk1 He Hk. unfold read_config_value. rewrite Hfs.
  rewrite read_scan_from, Hsplit.
  destruct (lines_fit_elem D k1 Hfit) as [Hkf Hvf].
  { rewrite Hsplit. apply elem_of_app. right. by apply elem_of_cons; left. }
  rewrite (read_from_first sec k value_size l1 None k1 l2); try done.
  - by rewrite (file_value_fits k1 Hvf).
  - unfold headers_ok in Hh. rewrite Hsplit in Hh. by apply Forall_app in Hh as [Hh _].
  - rewrite file_key_fits; [done | | done]. by apply has_eq_cut in He as [He _].
Qed.

Lemma read_config_value_first_witness :
  read_config_value (s2l "s") (s2l "k") 32 true (mkFS (Some doc_duplicate) None)
  = (1%Z, Some (take (32 - 1)
                  (trim_string (after (is_char "="%char) (before is_eol (s2l "k = 1
")))))).
Proof.
  apply (read_config_value_first doc_duplicate (s2l "s") (s2l "k") 32
           (mkFS (Some doc_duplicate) None) [s2l "[s]
"] (s2l "k = 1
") [s2l "k = 2
"]).
  - reflexivity.
  - unfold headers_ok. vm_compute file_lines.
    repeat (apply List.Forall_cons;
            [intros H; try (vm_compute in H; discriminate H); cbv; repeat constructor |]).
    apply List.Forall_nil.
  - reflexivity.
  - lia.
  - vm_compute. reflexivity.
  - vm_compute. reflexivity.
  - vm_compute. reflexivity.
  - reflexivity.
  - reflexivity.
  - vm_compute. reflexivity.
Defined.

(** ** The writers in an environment without faults *)

Lemma locked_rewrite_succeeds rewrite env fs D :
  succeeds env -> config_file fs = Some D ->
  exists calls,
    locked_rewrite rewrite env fs = Some (1%Z, mkFS (Some (rewrite D)) None, calls).
Proof.
  intros [Ho [t Hl] Hf Ht Hr] HD. unfold locked_rewrite.
  rewrite HD, Ho, Hl, Hf, Ht, Hr. by eexists.
Qed.

Lemma locked_rewrite_file rewrite env fs fs' D r calls :
  config_file fs = Some D ->
  locked_rewrite rewrite env fs = Some (r, fs', calls) ->
  (r = 1%Z /\ config_file fs' = Some (rewrite D)) \/
  (r = 0%Z /\ config_file fs' = Some D).
Proof.
  intros HD H. unfold locked_rewrite in H. rewrite HD in H.
  repeat match type of H with
         | context [match ?x with _ => _ end] => destruct x
         end; inversion H; subst; auto.
Qed.

(** ** Pieces of output and the lines read from them *)

Lemma closed_app w e : closed w -> Forall ends_lf e -> closed (w ++ e).
Proof.
  intros Hw He l Hl. destruct e as [|x e'] using rev_ind.
  - rewrite app_nil_r in Hl. by apply Hw.
  - rewrite app_assoc, last_snoc in Hl. inversion Hl; subst.
    apply Forall_app in He as [_ He]. by inversion He.
Qed.

Lemma closed_concat ws : closed ws -> complete_text (concat ws).
Proof.
  intros H. destruct ws as [|x ws'] using rev_ind; [by left|].
  destruct (H x) as [l' Hl]; [by rewrite last_snoc|].
  right. exists (concat ws' ++ l'). rewrite concat_app. simpl.
  by rewrite app_nil_r, Hl, app_assoc.
Qed.

Lemma chunks_closed ls D :
  Forall chunk_ok ls -> concat ls = D -> complete_text D -> closed ls.
Proof.
  intros Hck Hcat Hc l Hl.
  destruct ls as [|x ls _] using rev_ind; [done|].
  rewrite last_snoc in Hl. inversion Hl; subst x. clear Hl.
  apply Forall_app in Hck as [_ Hck]. inversion Hck as [|? ? Hl _]; subst.
  destruct Hl as [(body & -> & _)|[Hlen Hfree]]; [by exists body|].
  exfalso. rewrite concat_app in Hc. simpl in Hc. rewrite app_nil_r in Hc.
  destruct l as [|c l' _] using rev_ind; [simpl in Hlen; lia|].
  destruct Hc as [Hc|[D' Hc]].
  - apply (f_equal length) in Hc. rewrite !length_app in Hc. simpl in Hc. lia.
  - rewrite app_assoc in Hc. apply app_inj_tail in Hc as [_ ->].
    apply free_of_app in Hfree as [_ Hfree]. by inversion Hfree.
Qed.

Lemma file_lines_closed D : text D -> complete_text D -> closed (file_lines D).
Proof.
  intros Ht Hc. apply (chunks_closed _ D); [| |done].
  - by apply file_lines_complete.
  - by apply concat_file_lines.
Qed.

(** A loop over the lines that writes, for every line, at least one
    piece, the last of them the line itself or a piece that ends with a
    newline. *)
Lemma scan_closed {St : Type} (body : St -> cstring -> St * list cstring) :
  (forall st l, exists w x, (body st l).2 = w ++ [x] /\ (x = l \/ ends_lf x)) ->
  forall lines st, closed lines -> closed (scan body st lines).2.
Proof.
  intros Hbody. induction lines as [|l r IH]; intros st Hc; [done|].
  simpl. destruct (Hbody st l) as (w & x & Hw & Hx).
  destruct (body st l) as [st1 w1]. simpl in Hw. subst w1.
  specialize (IH st1). destruct (scan body st1 r) as [st2 w2] eqn:E. simpl in *.
  destruct r as [|l2 r'].
  - simpl in E. inversion E; subst. rewrite app_nil_r. intros y Hy.
    rewrite last_snoc in Hy. inversion Hy; subst y.
    destruct Hx as [->|Hx]; [|done]. by apply Hc.
  - assert (Hc' : closed (l2 :: r')).
    { intros y Hy. apply Hc. by rewrite last_cons_cons. }
    specialize (IH Hc').
    assert (Hne : w2 <> []).
    { simpl in E. destruct (Hbody st1 l2) as (w' & x' & Hw' & _).
      destruct (body st1 l2) as [st3 w3]. simpl in Hw'. subst w3.
      destruct (scan body st3 r') as [st4 w4]. inversion E; subst.
      by destruct w'. }
    intros y Hy. apply IH.
    destruct w2 as [|z w2'] using rev_ind; [done|].
    rewrite !app_assoc, last_snoc in Hy. by rewrite last_snoc.
Qed.

Lemma key_value_line_ends k v : ends_lf (key_value_line k v).
Proof. exists (k ++ s2l " = " ++ v). unfold key_value_line. by rewrite <- !app_assoc. Qed.

Lemma header_line_ends s : ends_lf (header_line s).
Proof. exists (s2l "[" ++ s ++ s2l "]"). unfold header_line. by rewrite <- !app_assoc. Qed.

Lemma empty_line_ends : ends_lf [LF].
Proof. by exists []. Qed.

(** ** write_config_value: the lines written *)

Section ValueWriter.

Variables (S K V : cstring).
Hypothesis HS : section_ok S.
Hypothesis HScr : free_of (is_char CR) S.
Hypothesis HK : key_ok K.

Lemma value_total_nil st : value_total S K V st [] = value_eof S K V st.
Proof. done. Qed.

Lemma value_total_cons st l r :
  value_total S K V st (l :: r)
  = (value_line S K V st l).2 ++ value_total S K V (value_line S K V st l).1 r.
Proof.
  unfold value_total. simpl. destruct (value_line S K V st l) as [st1 w1]. simpl.
  destruct (scan _ st1 r) as [st2 w2]. by rewrite app_assoc.
Qed.

Lemma value_writes_total D :
  value_writes D S K V = value_total S K V (value_state_at S None false false) (file_lines D).
Proof. done. Qed.

Lemma value_eof_cases ctx upd found :
  value_eof S K V (value_state_at S ctx upd found)
  = if bool_decide (ctx = Some S) && negb upd then [key_value_line K V]
    else if negb found then [[LF]; header_line S; key_value_line K V]
    else [].
Proof. done. Qed.

Lemma value_line_last st l :
  exists w x, (value_line S K V st l).2 = w ++ [x] /\ (x = l \/ ends_lf x).
Proof.
  unfold value_line. destruct (is_header l).
  - eexists _, l. split; [reflexivity | by left].
  - destruct (_ && _).
    + exists [], (key_value_line K V). split; [done|]. right. apply key_value_line_ends.
    + exists [], l. split; [done | by left].
Qed.

Lemma value_line_Forall (P : cstring -> Prop) st l :
  P l -> P (key_value_line K V) -> Forall P (value_line S K V st l).2.
Proof.
  intros Hl Hkv. unfold value_line. destruct (is_header l).
  - simpl. apply Forall_app. split; [|by repeat constructor].
    destruct (_ && _); by repeat constructor.
  - destruct (_ && _); by repeat constructor.
Qed.

Lemma value_total_Forall (P : cstring -> Prop) lines st :
  Forall P lines -> P (key_value_line K V) -> P [LF] -> P (header_line S) ->
  Forall P (value_total S K V st lines).
Proof.
  intros Hl Hkv Hlf Hh. revert st. induction Hl as [|l r Hl _ IH]; intros st.
  - rewrite value_total_nil. unfold value_eof, new_section_text.
    destruct (_ && _); [by repeat constructor|].
    destruct (negb _); by repeat constructor.
  - rewrite value_total_cons. apply Forall_app. split; [by apply value_line_Forall | apply IH].
Qed.

Lemma value_total_closed lines st : closed lines -> closed (value_total S K V st lines).
Proof.
  intros Hc. unfold value_total.
  pose proof (scan_closed (value_line S K V) value_line_last lines st Hc) as H.
  destruct (scan _ st lines) as [st' w]. simpl in H. apply closed_app; [done|].
  unfold value_eof, new_section_text. destruct (_ && _).
  - repeat constructor. apply key_value_line_ends.
  - destruct (negb _); repeat constructor.
    + apply empty_line_ends.
    + apply header_line_ends.
    + apply key_value_line_ends.
Qed.

(** The pieces written are the lines read from the output. *)
Lemma value_writes_shape D :
  value_ok V -> well_formed D ->
  Forall (fun l => chunk_ok l /\ text l /\ header_ok l) (value_writes D S K V) /\
  closed (value_writes D S K V).
Proof.
  intros HV [Ht Hc Hh]. rewrite value_writes_total. split.
  - apply value_total_Forall.
    + apply Forall_and. split; [by apply file_lines_complete|].
      apply Forall_and. split; [by apply file_lines_text | done].
    + split; [left; by apply key_value_line_full|].
      split; [by apply key_value_line_text|].
      intros Hhd. by rewrite key_value_line_not_header in Hhd.
    + split; [left; apply empty_line_full|]. split; [apply empty_line_text | done].
    + split; [left; by apply header_line_full|].
      split; [by apply header_line_text | by apply header_line_ok].
  - apply value_total_closed. by apply file_lines_closed.
Qed.

Lemma value_output_lines D :
  value_ok V -> well_formed D ->
  file_lines (value_output D S K V) = value_writes D S K V.
Proof.
  intros HV HD. destruct (value_writes_shape D HV HD) as [Hsh _].
  apply Forall_and in Hsh as [Hck Hsh]. apply Forall_and in Hsh as [Htx _].
  unfold value_output. apply file_lines_chunks; [by apply chunks_all | done].
Qed.

Lemma value_output_well_formed D :
  value_ok V -> well_formed D -> well_formed (value_output D S K V).
Proof.
  intros HV HD. destruct (value_writes_shape D HV HD) as [Hsh Hcl].
  pose proof (value_output_lines D HV HD) as Hlines.
  apply Forall_and in Hsh as [Hck Hsh]. apply Forall_and in Hsh as [Htx Hhd].
  split.
  - unfold value_output, text, free_of. apply Forall_concat. exact Htx.
  - by apply closed_concat.
  - unfold headers_ok. by rewrite Hlines.
Qed.

(** *** Reading the value back *)

Section ReadValueBack.

Variable value_size : nat.
Hypothesis HKcr : free_of (is_char CR) K.
Hypothesis HV : readable value_size V.

Lemma value_read_back lines ctx found :
  Forall header_ok lines -> found = bool_decide (ctx = Some S) ->
  read_from S K value_size ctx
    (value_total S K V (value_state_at S ctx false found) lines) = Some V.
Proof.
  intros Hl. revert ctx found. induction Hl as [|l r Hl _ IH]; intros ctx found Hf.
  - rewrite value_total_nil, value_eof_cases.
    destruct (bool_decide (ctx = Some S)) eqn:Hc; simpl.
    + apply bool_decide_eq_true_1 in Hc. subst ctx. by apply read_from_found.
    + subst found. simpl.
      rewrite read_from_empty_line, read_from_header_line by done.
      by apply read_from_found.
  - rewrite value_total_cons, value_line_single. destruct (is_header l) eqn:Hh.
    + simpl. destruct (bool_decide (ctx = Some S)) eqn:Hc; simpl.
      * apply bool_decide_eq_true_1 in Hc. subst ctx. by apply read_from_found.
      * rewrite read_from_header by done. apply IH. subst found. done.
    + simpl. destruct (key_line S K ctx l) eqn:Hk; simpl.
      * apply key_line_context in Hk. subst ctx. by apply read_from_found.
      * rewrite read_from_skip by done.
        assert (next_context ctx l = ctx) as -> by (unfold next_context; by rewrite Hh).
        by apply IH.
Qed.

End ReadValueBack.

(** *** Reading another key *)

Section ReadOther.

Variables (S' K' : cstring) (value_size : nat).
Hypothesis Hother : ~ (S' = S /\ K' = K).

Lemma read_from_same_line ctx l a b :
  is_header l = false ->
  read_from S' K' value_size ctx a = read_from S' K' value_size ctx b ->
  read_from S' K' value_size ctx (l :: a) = read_from S' K' value_size ctx (l :: b).
Proof.
  intros Hh Hab. unfold read_from in *. simpl. rewrite is_header_cut, Hh.
  destruct (_ && _); [|done]. by destruct (bool_decide (file_key_of _ = K')).
Qed.

Lemma read_from_other_line ctx rest :
  ctx = Some S ->
  read_from S' K' value_size ctx (key_value_line K V :: rest)
  = read_from S' K' value_size ctx rest.
Proof.
  intros ->. apply read_from_skip; [by apply key_value_line_not_header|].
  change (key_value_line K V) with (entry_line (mkEntry S K V false)).
  rewrite key_line_entry by done. apply bool_decide_eq_false_2.
  intros [Hc Hk]. simpl in Hk. inversion Hc. by apply Hother.
Qed.

Lemma value_frame lines ctx upd found :
  Forall header_ok lines ->
  (upd = true -> found = true) ->
  (upd = false -> found = bool_decide (ctx = Some S)) ->
  read_from S' K' value_size ctx
    (value_total S K V (value_state_at S ctx upd found) lines)
  = read_from S' K' value_size ctx lines.
Proof.
  intros Hl. revert ctx upd found.
  induction Hl as [|l r Hl _ IH]; intros ctx upd found Hu Hf.
  - rewrite value_total_nil, value_eof_cases.
    destruct (bool_decide (ctx = Some S)) eqn:Hc; simpl.
    + apply bool_decide_eq_true_1 in Hc. destruct upd; simpl.
      * by rewrite Hu.
      * by rewrite read_from_other_line.
    + destruct upd; simpl; [by rewrite Hu|]. rewrite Hf by done. simpl.
      rewrite read_from_empty_line, read_from_header_line by done.
      by rewrite read_from_other_line.
  - rewrite value_total_cons, value_line_single. destruct (is_header l) eqn:Hh.
    + simpl. rewrite <- app_assoc. simpl.
      assert (Hpre : forall rest,
        read_from S' K' value_size ctx
          ((if negb upd && bool_decide (ctx = Some S) then [key_value_line K V] else [])
           ++ rest) = read_from S' K' value_size ctx rest).
      { intros rest. destruct (negb upd && bool_decide (ctx = Some S)) eqn:E; [|done].
        apply andb_true_iff in E as [_ E]. apply bool_decide_eq_true_1 in E.
        by apply read_from_other_line. }
      rewrite Hpre, !read_from_header by done. apply IH.
      * intros Hupd. destruct upd; simpl in *; [by rewrite Hu|].
        apply bool_decide_eq_true_1 in Hupd. rewrite Hf by done.
        by rewrite bool_decide_eq_true_2.
      * intros Hupd. destruct upd; simpl in *; [done|].
        rewrite Hf by done. by rewrite Hupd.
    + simpl. assert (Hn : next_context ctx l = ctx) by (unfold next_context; by rewrite Hh).
      rewrite Hn. destruct (negb upd && key_line S K ctx l) eqn:E; simpl.
      * apply andb_true_iff in E as [Hupd Hk]. apply negb_true_iff in Hupd. subst upd.
        pose proof (key_line_context _ _ _ _ Hk) as Hc.
        rewrite read_from_other_line by done.
        rewrite (read_from_skip S' K' value_size ctx l r); [|done|].
        -- apply IH; [|done]. intros _. rewrite Hf by done. by apply bool_decide_eq_true_2.
        -- destruct (key_line S' K' ctx l) eqn:Hk'; [|done]. exfalso. apply Hother.
           unfold key_line in Hk, Hk'.
           apply andb_true_iff in Hk as [_ Hk]. apply andb_true_iff in Hk' as [_ Hk'].
           apply bool_decide_eq_true_1 in Hk as [H1 H2].
           apply bool_decide_eq_true_1 in Hk' as [H3 H4]. split; congruence.
      * apply read_from_same_line; [done|]. by apply IH.
Qed.

End ReadOther.

End ValueWriter.

(** ** write_config_batch: the lines written *)

Lemma batch_writes_total D es :
  batch_writes D es
  = total_writes (mkBatchState [] false (map reset_updated es)) (file_lines D).
Proof.
  unfold batch_writes, total_writes, eof_writes.
  destruct (scan batch_line _ _) as [st w]. destruct (close_section st) as [es1 w1].
  by destruct (missing_sections _ _) as [es2 w2].
Qed.

Lemma batch_line_last st l :
  exists w x, (batch_line st l).2 = w ++ [x] /\ (x = l \/ ends_lf x).
Proof.
  unfold batch_line. destruct (is_header l).
  - destruct (close_section st) as [es w]. eexists w, l. split; [done | by left].
  - destruct (_ && _); [|exists [], l; split; [done | by left]].
    destruct (list_find _ _) as [[j e]|].
    + exists [], (key_value_line (key e) (value e)). split; [done|].
      right. apply key_value_line_ends.
    + exists [], l. split; [done | by left].
Qed.

Lemma eof_writes_ends st : Forall ends_lf (eof_writes st).
Proof.
  unfold eof_writes.
  pose proof (close_section_Forall ends_lf st) as H1.
  pose proof (close_section_same st) as Hsame.
  destruct (close_section st) as [es1 w1]. simpl in *.
  pose proof (missing_sections_writes (length es1) es1 (le_n _)) as H2.
  destruct (missing_sections _ _) as [es2 w2]. simpl in H2. subst w2.
  apply Forall_app. split.
  - apply H1. apply Forall_forall. intros e _. apply key_value_line_ends.
  - apply synthesized_Forall.
    + apply empty_line_ends.
    + apply Forall_forall. intros e _. apply key_value_line_ends.
    + apply Forall_forall. intros e _. apply header_line_ends.
Qed.

Lemma total_writes_closed st lines : closed lines -> closed (total_writes st lines).
Proof.
  intros Hc. unfold total_writes.
  pose proof (scan_closed batch_line batch_line_last lines st Hc) as H.
  destruct (scan batch_line st lines) as [st' w]. simpl in H.
  apply closed_app; [done | apply eof_writes_ends].
Qed.

Lemma batch_writes_shape D es :
  well_formed D -> Forall entry_ok es ->
  Forall (fun l => chunk_ok l /\ text l /\ header_ok l) (batch_writes D es) /\
  closed (batch_writes D es).
Proof.
  intros [Ht Hc Hh] Hok. split.
  - rewrite Forall_forall in Hok. apply batch_writes_Forall.
    + split; [left; apply empty_line_full|]. split; [apply empty_line_text | done].
    + apply Forall_and. split; [by apply file_lines_complete|].
      apply Forall_and. split; [by apply file_lines_text | done].
    + apply Forall_forall. intros e He. destruct (Hok e He) as [Hs _ Hk Hvl].
      split; [left; by apply key_value_line_full|].
      split; [by apply key_value_line_text|].
      intros Hhd. unfold entry_line in Hhd. by rewrite key_value_line_not_header in Hhd.
    + apply Forall_forall. intros e He. destruct (Hok e He) as [Hs Hcr Hk Hvl].
      split; [left; by apply header_line_full|].
      split; [by apply header_line_text | by apply header_line_ok].
  - rewrite batch_writes_total. apply total_writes_closed. by apply file_lines_closed.
Qed.

Lemma batch_output_lines D es :
  well_formed D -> Forall entry_ok es ->
  file_lines (batch_output D es) = batch_writes D es.
Proof.
  intros HD Hok. destruct (batch_writes_shape D es HD Hok) as [Hsh _].
  apply Forall_and in Hsh as [Hck Hsh]. apply Forall_and in Hsh as [Htx _].
  unfold batch_output. apply file_lines_chunks; [by apply chunks_all | done].
Qed.

Lemma batch_output_well_formed D es :
  well_formed D -> Forall entry_ok es -> well_formed (batch_output D es).
Proof.
  intros HD Hok. destruct (batch_writes_shape D es HD Hok) as [Hsh Hcl].
  pose proof (batch_output_lines D es HD Hok) as Hlines.
  apply Forall_and in Hsh as [Hck Hsh]. apply Forall_and in Hsh as [Htx Hhd].
  split.
  - unfold batch_output, text, free_of. apply Forall_concat. exact Htx.
  - by apply closed_concat.
  - unfold headers_ok. by rewrite Hlines.
Qed.

(** *** Reading a key the batch does not hold *)

Lemma same_entries_not_targets c k es1 es2 :
  same_entries es1 es2 ->
  Forall (fun e => ~ targets c k e) es2 -> Forall (fun e => ~ targets c k e) es1.
Proof.
  intros Hs H. apply Forall_forall. intros e He Ht.
  assert (Hex : Exists (targets c k) es1) by (apply Exists_exists; eauto).
  apply (same_entries_targets c k es1 es2 Hs) in Hex.
  apply Exists_exists in Hex as (e2 & He2 & Ht2).
  rewrite Forall_forall in H. by apply (H e2).
Qed.

Section BatchFrame.

Variables (S' K' : cstring) (value_size : nat).

Lemma read_from_pending ctx (P : ConfigEntry -> Prop) `{!forall e, Decision (P e)} es rest :
  Forall entry_ok es -> Forall (fun e => ~ targets S' K' e) es ->
  (forall e, P e -> ctx = Some (section e)) ->
  read_from S' K' value_size ctx (map entry_line (filter P es) ++ rest)
  = read_from S' K' value_size ctx rest.
Proof.
  intros Hok Hn HP. rewrite Forall_forall in Hok, Hn. apply read_from_entries.
  - apply Forall_forall. intros e He. apply list_elem_of_filter in He as [_ He].
    apply entry_key. by apply Hok.
  - apply Forall_forall. intros e He [Hc Hk]. apply list_elem_of_filter in He as [HPe He].
    apply (Hn e He). rewrite (HP e HPe) in Hc. inversion Hc. by split.
Qed.

Lemma read_from_block_other ctx es s rest :
  Forall entry_ok es -> Forall (fun e => ~ targets S' K' e) es ->
  (exists e, e ∈ es /\ section e = s) ->
  read_from S' K' value_size ctx (section_block es s ++ rest)
  = read_from S' K' value_size (Some s) rest.
Proof.
  intros Hok Hn (e0 & He0 & Hs0). unfold section_block.
  pose proof Hok as Hok'. rewrite Forall_forall in Hok'.
  destruct (Hok' e0 He0) as [Hsec Hcr _ _]. rewrite Hs0 in Hsec, Hcr.
  cbn [app]. rewrite read_from_empty_line.
  change (s2l "[" ++ s ++ s2l "]" ++ [LF]) with (header_line s).
  rewrite read_from_header_line by done.
  apply read_from_pending; try done. by intros e ->.
Qed.

Lemma read_from_blocks_other ctx es secs :
  Forall entry_ok es -> Forall (fun e => ~ targets S' K' e) es ->
  Forall (fun s => exists e, e ∈ es /\ section e = s) secs ->
  read_from S' K' value_size ctx (flat_map (section_block es) secs) = None.
Proof.
  intros Hok Hn Hsecs. revert ctx. induction Hsecs as [|s secs Hs _ IH]; intros ctx.
  - done.
  - cbn [flat_map]. rewrite read_from_block_other by done. apply IH.
Qed.

Lemma batch_frame_eof st :
  Forall entry_ok (entries st) -> Forall (fun e => ~ targets S' K' e) (entries st) ->
  read_from S' K' value_size (context_of st) (eof_writes st) = None.
Proof.
  intros Hok Hn. unfold eof_writes.
  pose proof (close_section_same st) as Hsame.
  assert (Hw1 : forall rest,
    read_from S' K' value_size (context_of st) ((close_section st).2 ++ rest)
    = read_from S' K' value_size (context_of st) rest).
  { intros rest. unfold close_section, context_of. destruct (in_section st); [|done].
    rewrite append_missing_writes. apply read_from_pending; try done.
    by intros e [_ ->]. }
  destruct (close_section st) as [es1 w1]. simpl in *.
  pose proof (missing_sections_writes (length es1) es1 (le_n _)) as H2.
  destruct (missing_sections _ _) as [es2 w2]. simpl in H2. subst w2.
  rewrite Hw1.
  assert (Hok1 : Forall entry_ok es1) by (eapply same_entries_ok; eauto).
  assert (Hn1 : Forall (fun e => ~ targets S' K' e) es1)
    by (eapply same_entries_not_targets; eauto).
  apply read_from_blocks_other.
  - rewrite Forall_forall in *. intros e He. apply list_elem_of_filter in He as [_ He]. auto.
  - rewrite Forall_forall in *. intros e He. apply list_elem_of_filter in He as [_ He]. auto.
  - apply Forall_forall. intros s Hs. by apply first_sections_elem in Hs.
Qed.

Lemma batch_frame lines st :
  state_ok st -> Forall header_ok lines ->
  Forall entry_ok (entries st) -> Forall (fun e => ~ targets S' K' e) (entries st) ->
  read_from S' K' value_size (context_of st) (total_writes st lines)
  = read_from S' K' value_size (context_of st) lines.
Proof.
  intros Hst Hl. revert st Hst. induction Hl as [|l r Hl _ IH]; intros st Hst Hok Hn.
  - unfold total_writes. simpl. by apply batch_frame_eof.
  - rewrite total_writes_cons.
    assert (IH' : read_from S' K' value_size (next_context (context_of st) l)
                    (total_writes (batch_line st l).1 r)
                  = read_from S' K' value_size (next_context (context_of st) l) r).
    { destruct (batch_line_context st l Hst) as [Hctx Hst']. rewrite <- Hctx.
      apply IH; [done| |].
      - eapply same_entries_ok; [apply batch_line_same | done].
      - eapply same_entries_not_targets; [apply batch_line_same | done]. }
    revert IH'. generalize (total_writes (batch_line st l).1 r). intros out IH'.
    unfold batch_line. destruct (is_header l) eqn:Hh.
    + assert (Hw1 : forall rest,
        read_from S' K' value_size (context_of st) ((close_section st).2 ++ rest)
        = read_from S' K' value_size (context_of st) rest).
      { intros rest. unfold close_section, context_of. destruct (in_section st); [|done].
        rewrite append_missing_writes. apply read_from_pending; try done.
        by intros e [_ ->]. }
      destruct (close_section st) as [es1 w1]. simpl in *.
      rewrite <- app_assoc, Hw1. cbn [app]. by rewrite !read_from_header.
    + assert (Hnext : next_context (context_of st) l = context_of st)
        by (unfold next_context; by rewrite Hh).
      rewrite Hnext in IH'.
      destruct (in_section st && has_eq l) eqn:Hie;
        [|by apply read_from_same_line].
      apply andb_true_iff in Hie as [Hin He].
      destruct (list_find _ _) as [[j ej]|] eqn:Hfind;
        [|by apply read_from_same_line].
      simpl. apply list_find_Some in Hfind as (Hj & [Hjs Hjk] & _).
      rewrite Forall_forall in Hok, Hn.
      pose proof (list_elem_of_lookup_2 _ _ _ Hj) as Hej.
      assert (Hnot : ~ (context_of st = Some S' /\ file_key_of l = K')).
      { intros [Hc Hk]. apply (Hn ej Hej). unfold context_of in Hc. rewrite Hin in Hc.
        inversion Hc. split; congruence. }
      rewrite (read_from_skip S' K' value_size (context_of st) l r); [|done|].
      * rewrite read_from_skip; [done| |].
        -- apply key_value_line_not_header, entry_key. auto.
        -- change (key_value_line (key ej) (value ej)) with (entry_line ej).
           rewrite key_line_entry by (apply entry_key; auto).
           apply bool_decide_eq_false_2. intros [Hc Hk]. apply Hnot. split; congruence.
      * unfold key_line. rewrite Hh, He. simpl. by apply bool_decide_eq_false_2.
Qed.

End BatchFrame.

(** *** Every entry is written *)

Lemma append_missing_marked cur es e :
  e ∈ (append_missing cur es).1 -> updated e = true ->
  (e ∈ es /\ updated e = true) \/ entry_line e ∈ (append_missing cur es).2.
Proof.
  induction es as [|x es IH]; simpl; [by inversion 1|].
  destruct (append_missing cur es) as [rest w]. simpl in *.
  destruct (negb (updated x) && bool_decide (section x = cur)) eqn:E; simpl.
  - intros He Hu. apply elem_of_cons in He as [->|He].
    + right. apply elem_of_cons. by left.
    + destruct (IH He Hu) as [[H1 H2]|H].
      * left. split; [|done]. apply elem_of_cons. by right.
      * right. apply elem_of_cons. by right.
  - intros He Hu. apply elem_of_cons in He as [->|He].
    + left. split; [|done]. apply elem_of_cons. by left.
    + destruct (IH He Hu) as [[H1 H2]|H]; [|by right].
      left. split; [|done]. apply elem_of_cons. by right.
Qed.

Lemma batch_line_written_in st l w :
  written_in w (entries st) ->
  written_in (w ++ (batch_line st l).2) (entries (batch_line st l).1).
Proof.
  intros Hw e. unfold batch_line. destruct (is_header l).
  - unfold close_section. destruct (in_section st).
    + pose proof (append_missing_marked (current_section st) (entries st) e) as Hm.
      destruct (append_missing _ _) as [es1 w1]. simpl in *. intros He Hu.
      destruct (Hm He Hu) as [[H1 H2]|H].
      * apply elem_of_app. left. by apply Hw.
      * apply elem_of_app. right. apply elem_of_app. by left.
    + simpl. intros He Hu. apply elem_of_app. left. by apply Hw.
  - destruct (_ && _); [|simpl; intros He Hu; apply elem_of_app; left; by apply Hw].
    destruct (list_find _ _) as [[j ej]|] eqn:Hf;
      [|simpl; intros He Hu; apply elem_of_app; left; by apply Hw].
    simpl. intros He Hu. apply list_find_Some in Hf as (Hj & _ & _).
    apply (elem_of_insert_mark _ j ej) in He as [->|He]; [| |done].
    + apply elem_of_app. right. apply elem_of_cons. by left.
    + apply elem_of_app. left. by apply Hw.
Qed.

Lemma scan_written_in lines st w :
  written_in w (entries st) ->
  written_in (w ++ (scan batch_line st lines).2) (entries (scan batch_line st lines).1).
Proof.
  revert st w. induction lines as [|l r IH]; intros st w Hw.
  - simpl. by rewrite app_nil_r.
  - pose proof (IH _ _ (batch_line_written_in st l w Hw)) as H.
    simpl. destruct (batch_line st l) as [st1 w1]. simpl in *.
    destruct (scan batch_line st1 r) as [st2 w2]. simpl in *.
    by rewrite app_assoc.
Qed.

Lemma eof_written st e :
  e ∈ entries st -> pending e -> entry_line e ∈ eof_writes st.
Proof.
  intros He Hp. unfold eof_writes, close_section. destruct (in_section st).
  - pose proof (append_missing_writes (current_section st) (entries st)) as Hw1.
    pose proof (append_missing_pending (current_section st) (entries st)) as Hp1.
    pose proof (append_missing_length (current_section st) (entries st)) as Hlen.
    destruct (append_missing _ _) as [es1 w1]. simpl in *.
    pose proof (missing_sections_writes (length es1) es1 (le_n _)) as H2.
    destruct (missing_sections _ _) as [es2 w2]. simpl in H2. subst w1 w2.
    apply elem_of_app. destruct (decide (section e = current_section st)) as [Hs|Hs].
    + left. apply list_elem_of_fmap. exists e. split; [done|].
      by apply list_elem_of_filter.
    + right. rewrite Hp1. unfold synthesized. apply list_elem_of_In, in_flat_map.
      exists (section e). split.
      * apply list_elem_of_In, first_sections_elem. exists e. split; [|done].
        apply list_elem_of_filter. split; [done|]. by apply list_elem_of_filter.
      * apply list_elem_of_In. unfold section_block.
        apply elem_of_cons. right. apply elem_of_cons. right.
        apply list_elem_of_fmap. exists e. split; [done|].
        apply list_elem_of_filter. split; [done|].
        apply list_elem_of_filter. split; [done|]. by apply list_elem_of_filter.
  - pose proof (missing_sections_writes (length (entries st)) (entries st) (le_n _)) as H2.
    destruct (missing_sections _ _) as [es2 w2]. simpl in H2. subst w2. simpl.
    unfold synthesized. apply list_elem_of_In, in_flat_map.
    exists (section e). split.
    + apply list_elem_of_In, first_sections_elem. exists e. split; [|done].
      by apply list_elem_of_filter.
    + apply list_elem_of_In. unfold section_block.
      apply elem_of_cons. right. apply elem_of_cons. right.
      apply list_elem_of_fmap. exists e. split; [done|].
      apply list_elem_of_filter. split; [done|]. by apply list_elem_of_filter.
Qed.

(** ** The writers and the reader *)

Lemma value_round_trip_output D S K V value_size :
  well_formed D -> section_ok S -> free_of (is_char CR) S ->
  key_ok K -> free_of (is_char CR) K -> value_ok V -> readable value_size V ->
  read_scan (value_output D S K V) S K value_size = Some V.
Proof.
  intros HD HS HScr HK HKcr HV HR.
  rewrite read_scan_from, value_output_lines, value_writes_total by done.
  apply value_read_back; try done. apply (wf_headers D HD).
Qed.

Lemma value_frame_output D S K V S' K' value_size :
  well_formed D -> section_ok S -> free_of (is_char CR) S -> key_ok K -> value_ok V ->
  ~ (S' = S /\ K' = K) ->
  read_scan (value_output D S K V) S' K' value_size = read_scan D S' K' value_size.
Proof.
  intros HD HS HScr HK HV Hother.
  rewrite !read_scan_from, value_output_lines, value_writes_total by done.
  apply value_frame; try done. apply (wf_headers D HD).
Qed.

Lemma batch_frame_output D es S' K' value_size :
  well_formed D -> Forall entry_ok es -> Forall (fun e => ~ targets S' K' e) es ->
  read_scan (batch_output D es) S' K' value_size = read_scan D S' K' value_size.
Proof.
  intros HD Hok Hn.
  rewrite !read_scan_from, batch_output_lines, batch_writes_total by done.
  apply (batch_frame S' K' value_size (file_lines D)
           (mkBatchState [] false (map reset_updated es))).
  - done.
  - apply (wf_headers D HD).
  - simpl. eapply same_entries_ok; [apply same_entries_reset | done].
  - simpl. eapply same_entries_not_targets; [apply same_entries_reset | done].
Qed.

Lemma read_config_value_file sec k value_size fopen_ok fs1 fs2 D1 D2 :
  config_file fs1 = Some D1 -> config_file fs2 = Some D2 ->
  read_scan D1 sec k value_size = read_scan D2 sec k value_size ->
  read_config_value sec k value_size fopen_ok fs1
  = read_config_value sec k value_size fopen_ok fs2.
Proof. intros H1 H2 H. unfold read_config_value. by rewrite H1, H2, H. Qed.



(** A call of [write_config_value] for a well-formed section name, key
    and value (the value of at most 253 bytes) on a well-formed document
    whose lines fit the arrays of the line parser, whatever it returns,
    leaves what [read_config_value] returns for every other section or
    key, into a buffer of at least one byte, as it was. *)
Theorem write_config_value_frame (D S K V S' K' : cstring) (value_size : nat)
    (fopen_ok : bool) (env : Env) (fs fs' : FileSys) (r : Z) (calls : list Event) :
  config_file fs = Some D -> well_formed D -> lines_fit D ->
  section_ok S -> free_of (is_char CR) S -> key_ok K -> value_ok V -> value_short V ->
  ~ (S' = S /\ K' = K) -> 0 < value_size ->
  write_config_value S K V env fs = Some (r, fs', calls) ->
  read_config_value S' K' value_size fopen_ok fs'
  = read_config_value S' K' value_size fopen_ok fs.
Proof.
  intros Hfs HD _ HS HScr HK HV _ Hother _ Hw.
  destruct (locked_rewrite_file _ _ _ _ _ _ _ Hfs Hw) as [[_ Hfs']|[_ Hfs']].
  - apply (read_config_value_file _ _ _ _ _ _ _ _ Hfs' Hfs).
    by apply value_frame_output.
  - by apply (read_config_value_file _ _ _ _ _ _ _ _ Hfs' Hfs).
Qed.

Lemma write_config_value_frame_witness :
  read_config_value (s2l "a") (s2l "x") 32 true
    (mkFS (Some (value_output docB (s2l "a") (s2l "z") (s2l "5"))) None)
  = read_config_value (s2l "a") (s2l "x") 32 true (mkFS (Some docB) None).
Proof.
  apply (write_config_value_frame docB (s2l "a") (s2l "z") (s2l "5") (s2l "a") (s2l "x")
           32 true calm (mkFS (Some docB) None)
           (mkFS (Some (value_output docB (s2l "a") (s2l "z") (s2l "5"))) None) 1%Z
           [EvOpen true; EvFlock true 0; EvFopen true; EvFopenTemp true;
            EvWriteTemp (value_output docB (s2l "a") (s2l "z") (s2l "5"));
            EvRename true; EvUnlock; EvClose]).
  - reflexivity.
  - split.
    + unfold text, free_of. repeat constructor.
    + right. exists (s2l "[a]
x = 1"). reflexivity.
    + unfold headers_ok. vm_compute file_lines.
      repeat (apply List.Forall_cons;
              [intros H; try (vm_compute in H; discriminate H); cbv; repeat constructor |]).
      apply List.Forall_nil.
  - reflexivity.
  - split; try reflexivity; try discriminate; try (repeat constructor); simpl; lia.
  - repeat constructor.
  - split; try reflexivity; try (repeat constructor); simpl; lia.
  - split; try (repeat constructor); simpl; lia.
  - unfold value_short. simpl. lia.
  - intros [_ H]. discriminate H.
  - lia.
  - reflexivity.
Defined.

(** A call of [write_config_batch] with well-formed entries (their
    values of at most 253 bytes) on a well-formed document whose lines
    fit the arrays of the line parser, whatever it returns, leaves what
    [read_config_value] returns for a section and key that no entry of the
    batch is for, into a buffer of at least one byte, as it was. *)
Theorem write_config_batch_frame (D S' K' : cstring) (es : list ConfigEntry)
    (value_size : nat) (fopen_ok : bool) (env : Env) (fs fs' : FileSys) (r : Z)
    (calls : list Event) :
  config_file fs = Some D -> well_formed D -> lines_fit D ->
  Forall entry_ok es -> Forall (fun e => value_short (value e)) es ->
  Forall (fun e => ~ targets S' K' e) es -> 0 < value_size ->
  write_config_batch es env fs = Some (r, fs', calls) ->
  read_config_value S' K' value_size fopen_ok fs'
  = read_config_value S' K' value_size fopen_ok fs.
Proof.
  intros Hfs HD _ Hok _ Hn _ Hw.
  destruct (locked_rewrite_file _ _ _ _ _ _ _ Hfs Hw) as [[_ Hfs']|[_ Hfs']].
  - apply (read_config_value_file _ _ _ _ _ _ _ _ Hfs' Hfs).
    by apply batch_frame_output.
  - by apply (read_config_value_file _ _ _ _ _ _ _ _ Hfs' Hfs).
Qed.

Lemma write_config_batch_frame_witness :
  read_config_value (s2l "a") (s2l "x") 32 true
    (mkFS (Some (batch_output docC [entry "a" "z" "9"; entry "b" "y" "3"])) None)
  = read_config_value (s2l "a") (s2l "x") 32 true (mkFS (Some docC) None).
Proof.
  apply (write_config_batch_frame docC (s2l "a") (s2l "x")
           [entry "a" "z" "9"; entry "b" "y" "3"] 32 true calm (mkFS (Some docC) None)
           (mkFS (Some (batch_output docC [entry "a" "z" "9"; entry "b" "y" "3"])) None)
           1%Z
           [EvOpen true; EvFlock true 0; EvFopen true; EvFopenTemp true;
            EvWriteTemp (batch_output docC [entry "a" "z" "9"; entry "b" "y" "3"]);
            EvRename true; EvUnlock; EvClose]).
  - reflexivity.
  - split.
    + unfold text, free_of. repeat constructor.
    + right. exists (s2l "[a]
x = 1
[b]
y = 2"). reflexivity.
    + unfold headers_ok. vm_compute file_lines.
      repeat (apply List.Forall_cons;
              [intros H; try (vm_compute in H; discriminate H); cbv; repeat constructor |]).
      apply List.Forall_nil.
  - reflexivity.
  - repeat constructor; try reflexivity; try discriminate; simpl; lia.
  - repeat constructor; unfold value_short; simpl; lia.
  - repeat constructor; intros [H1 H2]; discriminate.
  - lia.
  - reflexivity.
Defined.





(** ** write_config_value: writing the same value again *)

Section ValueReplay.

Variables S K V : cstring.
Hypothesis HS : section_ok S.
Hypothesis HK : key_ok K.

Lemma scan_value_one (st : value_state) l :
  scan (value_line S K V) st [l] = value_line S K V st l.
Proof. simpl. destruct (value_line S K V st l). by rewrite app_nil_r. Qed.

Lemma value_line_written ctx found :
  ctx = Some S ->
  value_line S K V (value_state_at S ctx false found) (key_value_line K V)
  = (value_state_at S ctx true found, [key_value_line K V]).
Proof.
  intros ->. rewrite value_line_single.
  by rewrite key_value_line_not_header, key_line_written, next_context_written.
Qed.

Lemma replay_value_line ctx upd found l :
  exists ctx' upd' found' w,
    value_line S K V (value_state_at S ctx upd found) l
    = (value_state_at S ctx' upd' found', w) /\
    scan (value_line S K V) (value_state_at S ctx upd found) w
    = (value_state_at S ctx' upd' found', w) /\
    ((ctx = Some S -> found = true) -> (upd = true -> found = true) ->
     (ctx' = Some S -> found' = true) /\ (upd' = true -> found' = true)).
Proof.
  rewrite value_line_single. destruct (is_header l) eqn:Hh.
  - destruct (negb upd && bool_decide (ctx = Some S)) eqn:E.
    + apply andb_true_iff in E as [Hu Hc]. apply negb_true_iff in Hu. subst upd.
      apply bool_decide_eq_true_1 in Hc.
      eexists _, _, _, _. split; [reflexivity|]. split.
      * cbn [scan app]. rewrite value_line_written by done.
        rewrite value_line_single, Hh. simpl.
        by rewrite (bool_decide_eq_true_2 (ctx = Some S)) by done.
      * intros H1 H2. rewrite (H1 Hc). simpl. by split.
    + eexists _, _, _, _. split; [reflexivity|]. split.
      * cbn [app]. rewrite scan_value_one, value_line_single, Hh, E. done.
      * intros H1 H2. split.
        -- intros Hn. rewrite bool_decide_eq_true_2 by done. apply orb_true_r.
        -- intros Hu. apply orb_true_iff in Hu as [Hu|Hu].
           ++ by rewrite (H2 Hu).
           ++ apply bool_decide_eq_true_1 in Hu. by rewrite (H1 Hu).
  - destruct (negb upd && key_line S K ctx l) eqn:E.
    + apply andb_true_iff in E as [Hu Hkl]. apply negb_true_iff in Hu. subst upd.
      pose proof (key_line_context _ _ _ _ Hkl) as Hc.
      eexists _, _, _, _. split; [reflexivity|]. split.
      * rewrite scan_value_one, value_line_written by done.
        by rewrite (key_line_next _ _ _ _ Hkl).
      * intros H1 H2. rewrite (H1 Hc). by split.
    + eexists _, _, _, _. split; [reflexivity|]. split.
      * by rewrite scan_value_one, value_line_single, Hh, E.
      * intros H1 H2. assert (next_context ctx l = ctx) as ->
          by (unfold next_context; by rewrite Hh). by split.
Qed.

Lemma replay_value_scan lines ctx upd found :
  exists ctx' upd' found' w,
    scan (value_line S K V) (value_state_at S ctx upd found) lines
    = (value_state_at S ctx' upd' found', w) /\
    scan (value_line S K V) (value_state_at S ctx upd found) w
    = (value_state_at S ctx' upd' found', w) /\
    ((ctx = Some S -> found = true) -> (upd = true -> found = true) ->
     (ctx' = Some S -> found' = true) /\ (upd' = true -> found' = true)).
Proof.
  revert ctx upd found. induction lines as [|l r IH]; intros ctx upd found.
  { by exists ctx, upd, found, []. }
  destruct (replay_value_line ctx upd found l) as (ctx1 & upd1 & found1 & w1 & H1 & R1 & I1).
  destruct (IH ctx1 upd1 found1) as (ctx2 & upd2 & found2 & w2 & H2 & R2 & I2).
  exists ctx2, upd2, found2, (w1 ++ w2). simpl. rewrite H1, H2. split; [done|]. split.
  - by rewrite scan_app, R1, R2.
  - intros Ha Hb. destruct (I1 Ha Hb) as [Hc Hd]. by apply I2.
Qed.

Lemma replay_value_eof ctx upd found :
  (ctx = Some S -> found = true) -> (upd = true -> found = true) ->
  exists st',
    scan (value_line S K V) (value_state_at S ctx upd found)
         (value_eof S K V (value_state_at S ctx upd found))
    = (st', value_eof S K V (value_state_at S ctx upd found)) /\
    value_eof S K V st' = [].
Proof.
  intros H1 H2. rewrite value_eof_cases.
  destruct (bool_decide (ctx = Some S)) eqn:Hc; cbn [andb].
  - apply bool_decide_eq_true_1 in Hc. destruct upd; cbn [negb].
    + rewrite (H2 eq_refl). cbn [negb]. eexists. split; [reflexivity|].
      rewrite value_eof_cases. by rewrite bool_decide_eq_true_2 by done.
    + eexists. rewrite scan_value_one, value_line_written by done.
      split; [reflexivity|]. rewrite value_eof_cases.
      rewrite bool_decide_eq_true_2 by done. cbn [negb andb]. by rewrite (H1 Hc).
  - destruct found; cbn [negb].
    + eexists. split; [reflexivity|]. rewrite value_eof_cases. rewrite Hc.
      by destruct upd.
    + assert (upd = false) as -> by (destruct upd; [by specialize (H2 eq_refl) | done]).
      cbn [scan]. rewrite value_line_single. cbn [is_header].
      change (Ascii.eqb LF "[") with false. cbv iota.
      assert (key_line S K ctx [LF] = false) as -> by done.
      change (next_context ctx [LF]) with ctx. cbn [negb andb].
      rewrite value_line_single.
      change (is_header (header_line S)) with true. cbv iota.
      rewrite Hc. cbn [negb andb orb app].
      assert (Hn : next_context ctx (header_line S) = Some S).
      { unfold next_context at 1. change (is_header (header_line S)) with true.
        cbv iota. f_equal. by apply (header_line_section S). }
      rewrite Hn. rewrite bool_decide_eq_true_2 by done.
      rewrite value_line_written by done.
      eexists. split; [reflexivity|]. rewrite value_eof_cases.
      by rewrite bool_decide_eq_true_2 by done.
Qed.

Lemma value_writes_replay D :
  scan (value_line S K V) (value_state_at S None false false) (value_writes D S K V)
  = ((scan (value_line S K V) (value_state_at S None false false)
           (value_writes D S K V)).1, value_writes D S K V) /\
  value_eof S K V (scan (value_line S K V) (value_state_at S None false false)
                        (value_writes D S K V)).1 = [].
Proof.
  destruct (replay_value_scan (file_lines D) None false false)
    as (ctx & upd & found & w & Hscan & Hreplay & Hinv).
  destruct Hinv as [I1 I2]; [done|done|].
  destruct (replay_value_eof ctx upd found I1 I2) as (st' & Heof & Hend).
  rewrite value_writes_total. unfold value_total. rewrite Hscan.
  rewrite scan_app, Hreplay, Heof. done.
Qed.

End ValueReplay.



(** ** The writers keep the lines within the arrays of the parser *)

Lemma before_length stop s : length (before stop s) <= length s.
Proof. induction s as [|c r IH]; simpl; [done|]. destruct (stop c); simpl; lia. Qed.

Lemma after_length stop s : length (after stop s) <= length s.
Proof. induction s as [|c r IH]; simpl; [done|]. destruct (stop c); simpl; lia. Qed.

Lemma after_before_length f g s :
  length (after f (before g s)) <= length (after f s).
Proof.
  induction s as [|c r IH]; simpl; [done|].
  destruct (g c); simpl; [lia|].
  destruct (f c); [apply before_length | done].
Qed.

Lemma before_snoc_stop stop s x : stop x = true -> before stop (s ++ [x]) = before stop s.
Proof.
  intros Hx. induction s as [|c r IH]; simpl; [by rewrite Hx|].
  destruct (stop c); [done|]. by rewrite IH.
Qed.

Lemma short_line_fits l : length l < 127 -> key_fits l && value_fits l = true.
Proof.
  intros Hl. unfold key_fits, value_fits. apply andb_true_intro. split.
  - apply orb_true_intro. right. apply Nat.ltb_lt.
    pose proof (before_length (is_char "="%char) l). lia.
  - apply Nat.ltb_lt.
    pose proof (after_length (is_char "="%char) (before is_eol l)).
    pose proof (before_length is_eol l). lia.
Qed.

Lemma key_value_line_fits K V :
  key_ok K -> value_short V ->
  key_fits (key_value_line K V) && value_fits (key_value_line K V) = true.
Proof.
  intros HK HV. unfold value_short in HV.
  assert (Hshape : key_value_line K V
                   = (K ++ [" "%char]) ++ "="%char :: (" "%char :: V) ++ [LF]).
  { unfold key_value_line. simpl. by rewrite <- !app_assoc. }
  assert (Hfree : free_of (is_char "="%char) (K ++ [" "%char])).
  { apply free_of_app. split; [apply (key_no_eq K HK) | by repeat constructor]. }
  unfold key_fits, value_fits. apply andb_true_intro. split.
  - apply orb_true_intro. right. apply Nat.ltb_lt.
    rewrite Hshape, (before_stop _ _ _ _ Hfree) by done.
    rewrite length_app. pose proof (key_length K HK). simpl. lia.
  - apply Nat.ltb_lt.
    assert (Hcut : key_value_line K V = (K ++ s2l " = " ++ V) ++ [LF]).
    { unfold key_value_line. by rewrite <- !app_assoc. }
    rewrite Hcut, before_snoc_stop by done.
    eapply Nat.le_lt_trans; [apply after_before_length|].
    replace (K ++ s2l " = " ++ V) with ((K ++ [" "%char]) ++ "="%char :: " "%char :: V)
      by (simpl; by rewrite <- !app_assoc).
    rewrite (after_stop _ _ _ _ Hfree) by done. simpl. lia.
Qed.

Lemma header_line_fits S :
  section_ok S -> key_fits (header_line S) && value_fits (header_line S) = true.
Proof.
  intros HS. apply short_line_fits. unfold header_line.
  rewrite !length_app. pose proof (section_length S HS). simpl. lia.
Qed.

Lemma lines_fit_Forall D :
  lines_fit D <-> Forall (fun l => key_fits l && value_fits l = true) (file_lines D).
Proof.
  unfold lines_fit. rewrite forallb_forall, Forall_forall.
  split; intros H l Hl; apply H; by apply list_elem_of_In.
Qed.

Lemma value_output_lines_fit D S K V :
  well_formed D -> lines_fit D ->
  section_ok S -> free_of (is_char CR) S -> key_ok K -> value_ok V -> value_short V ->
  lines_fit (value_output D S K V).
Proof.
  intros HD Hfit HS HScr HK HV Hshort. apply lines_fit_Forall.
  rewrite value_output_lines, value_writes_total by done.
  apply value_total_Forall.
  - by apply lines_fit_Forall.
  - by apply key_value_line_fits.
  - by apply short_line_fits; simpl; lia.
  - by apply header_line_fits.
Qed.

Lemma batch_output_lines_fit D es :
  well_formed D -> lines_fit D ->
  Forall entry_ok es -> Forall (fun e => value_short (value e)) es ->
  lines_fit (batch_output D es).
Proof.
  intros HD Hfit Hok Hshort. apply lines_fit_Forall.
  rewrite batch_output_lines by done.
  apply (batch_writes_Forall (fun l => key_fits l && value_fits l = true)).
  - by apply short_line_fits; simpl; lia.
  - by apply lines_fit_Forall.
  - rewrite Forall_forall in Hok, Hshort. apply Forall_forall. intros e He.
    apply key_value_line_fits; [apply (entry_key e (Hok e He)) | by apply Hshort].
  - eapply Forall_impl; [exact Hok|]. intros e He.
    apply header_line_fits, (entry_section e He).
Qed.



(** ** Calls of write_config_value one after the other *)

Lemma write_all_well_formed value_size ws D :
  Forall (write_ok value_size) ws -> well_formed D -> well_formed (write_all ws D).
Proof.
  intros Hws. revert D. induction Hws as [|w ws Hw _ IH]; intros D HD; [done|].
  simpl. apply IH. destruct Hw. by apply value_output_well_formed.
Qed.

Lemma write_all_frame value_size ws D S' K' size :
  Forall (write_ok value_size) ws -> well_formed D ->
  Forall (fun w => ~ (S' = w.1.1 /\ K' = w.1.2)) ws ->
  read_scan (write_all ws D) S' K' size = read_scan D S' K' size.
Proof.
  intros Hws. revert D. induction Hws as [|w ws Hw _ IH]; intros D HD Hn; [done|].
  inversion Hn; subst. simpl. destruct Hw.
  rewrite IH; [|by apply value_output_well_formed|done].
  by apply value_frame_output.
Qed.

(** The value read for a section and key is that of the last call for
    them. *)
Lemma write_all_last value_size pre s k v post D :
  Forall (write_ok value_size) (pre ++ (s, k, v) :: post) -> well_formed D ->
  Forall (fun w => ~ (s = w.1.1 /\ k = w.1.2)) post ->
  read_scan (write_all (pre ++ (s, k, v) :: post) D) s k value_size = Some v.
Proof.
  intros Hws HD Hn. apply Forall_app in Hws as [Hpre Hws].
  inversion Hws as [|? ? Hw Hpost]; subst.
  unfold write_all. rewrite fold_left_app. simpl.
  change (fold_left _ post ?X) with (write_all post X).
  change (fold_left _ pre D) with (write_all pre D).
  pose proof (write_all_well_formed value_size pre D Hpre HD) as HD1.
  destruct Hw; simpl in *.
  rewrite (write_all_frame value_size); [|done|by apply value_output_well_formed|done].
  by apply value_round_trip_output.
Qed.

(** ** check_and_migrate_config *)

Lemma then_write_succeeds sec k v env fs calls D :
  succeeds env -> config_file fs = Some D ->
  exists calls',
    then_write sec k v env (Some (fs, calls))
    = Some (mkFS (Some (value_output D (s2l sec) (s2l k) (s2l v))) None, calls').
Proof.
  intros Henv Hfs. unfold then_write, write_config_value.
  destruct (locked_rewrite_succeeds
              (fun content => value_output content (s2l sec) (s2l k) (s2l v))
              env fs D Henv Hfs) as [c ->].
  by eexists.
Qed.

Lemma then_write_next sec k v env D t calls :
  succeeds env ->
  exists calls',
    then_write sec k v env (Some (mkFS (Some D) t, calls))
    = Some (mkFS (Some (value_output D (s2l sec) (s2l k) (s2l v))) None, calls').
Proof. intros Henv. by apply then_write_succeeds. Qed.

Lemma migration_succeeds menv penv fs D :
  config_file fs = Some D -> (forall i, succeeds (write_env menv i)) ->
  exists calls,
    check_and_migrate_config menv penv (mkUserdata fs false)
    = Some (mkUserdata (mkFS (Some (write_all migration_values D)) None)
                       (negb (marker_fopen_fails menv)), calls).
Proof.
  intros Hfs Henv. unfold check_and_migrate_config. cbn [migrated files].
  destruct (then_write_succeeds "storage.0" "enable" "1" _ fs (stop_rkipc penv) D
              (Henv 0) Hfs) as [c1 ->].
  edestruct (then_write_next "storage.0" "folder_name" "recordings"
               (write_env menv 1)) as [c2 Hc2]; [apply Henv|].
  rewrite Hc2. clear Hc2.
  edestruct (then_write_next "storage.0" "file_duration" "120"
               (write_env menv 2)) as [c3 Hc3]; [apply Henv|].
  rewrite Hc3. clear Hc3.
  edestruct (then_write_next "video.jpeg" "enable_cycle_snapshot" "1"
               (write_env menv 3)) as [c4 Hc4]; [apply Henv|].
  rewrite Hc4. clear Hc4.
  edestruct (then_write_next "video.jpeg" "snapshot_interval_ms" "30000"
               (write_env menv 4)) as [c5 Hc5]; [apply Henv|].
  rewrite Hc5. clear Hc5.
  by eexists.
Qed.

Lemma migration_values_ok value_size :
  10 < value_size -> Forall (write_ok value_size) migration_values.
Proof.
  intros Hsize. unfold migration_values.
  repeat (apply List.Forall_cons;
          [split; simpl;
           [split; try reflexivity; try discriminate; try (repeat constructor); simpl; lia
           |repeat constructor
           |split; try reflexivity; try (repeat constructor); simpl; lia
           |repeat constructor
           |split; try (repeat constructor); simpl; lia
           |split; try reflexivity; try (repeat constructor); simpl; lia] |]).
  apply List.Forall_nil.
Qed.

Lemma migration_values_distinct :
  forall pre w post, migration_values = pre ++ w :: post ->
  Forall (fun w' => ~ (w.1.1 = w'.1.1 /\ w.1.2 = w'.1.2)) post.
Proof.
  intros pre w post H. unfold migration_values in H.
  do 5 (destruct pre as [|? pre];
        [inversion H; subst;
         repeat (apply List.Forall_cons; [intros [H1 H2]; simpl in *; discriminate|]);
         apply List.Forall_nil
        |simpl in H; injection H; clear H; intros H _]).
  by destruct pre.
Qed.

Lemma migration_read value_size D pre s k v post :
  10 < value_size -> well_formed D ->
  migration_values = pre ++ (s, k, v) :: post ->
  read_scan (write_all migration_values D) s k value_size = Some v.
Proof.
  intros Hsize HD Hsplit.
  pose proof (migration_values_ok value_size Hsize) as Hok.
  pose proof (migration_values_distinct pre (s, k, v) post Hsplit) as Hd.
  rewrite Hsplit in *. by apply (write_all_last value_size).
Qed.



(** The results of the five writes are not looked at: when the
    configuration file cannot be opened, the migration changes no file,
    yet it leaves its marker (unless the marker cannot be created), and a
    later call does nothing at all. *)
Theorem migration_marks_without_writing (menv : MigrationEnv) (penv : ProcEnv)
    (fs : FileSys) :
  config_file fs = None \/ (forall i, open_fails (write_env menv i) = true) ->
  marker_fopen_fails menv = false ->
  exists calls,
    check_and_migrate_config menv penv (mkUserdata fs false)
    = Some (mkUserdata fs true, calls) /\
    forall menv' penv',
      check_and_migrate_config menv' penv' (mkUserdata fs true)
      = Some (mkUserdata fs true, []).
Proof.
  intros Hfail Hmarker.
  assert (Hw : forall sec k v i calls,
            then_write sec k v (write_env menv i) (Some (fs, calls))
            = Some (fs, calls ++ [EvOpen false])).
  { intros sec k v i calls. unfold then_write, write_config_value, locked_rewrite.
    destruct Hfail as [->|Ho]; [done|]. rewrite (Ho i). by destruct (config_file fs). }
  unfold check_and_migrate_config. cbn [migrated files].
  rewrite !Hw, Hmarker. eexists. split; reflexivity.
Qed.

Lemma migration_marks_without_writing_witness :
  exists calls,
    check_and_migrate_config (mkMigrationEnv (fun _ => calm) false)
      (mkProcEnv 0%Z (fun _ => 1%Z) 0%Z 0%Z) (mkUserdata (mkFS None None) false)
    = Some (mkUserdata (mkFS None None) true, calls) /\
    forall menv' penv',
      check_and_migrate_config menv' penv' (mkUserdata (mkFS None None) true)
      = Some (mkUserdata (mkFS None None) true, []).
Proof.
  apply (migration_marks_without_writing (mkMigrationEnv (fun _ => calm) false)
           (mkProcEnv 0%Z (fun _ => 1%Z) 0%Z 0%Z) (mkFS None None)).
  - left. reflexivity.
  - reflexivity.
Defined.

(** ** The request body: from the buffer to the fields *)

(** *** Strings in a buffer *)

Lemma c_str_at_drop buf p t tail :
  drop p buf = t ++ NUL :: tail -> text t -> c_str_at buf p = t.
Proof. intros H Ht. unfold c_str_at, c_str. rewrite H. by apply before_stop. Qed.

Lemma drop_app_length_eq {A} (l : list A) p t r :
  drop p l = t ++ r -> drop (p + length t) l = r.
Proof. intros H. by rewrite <- drop_drop, H, drop_app_length. Qed.

Lemma insert_drop_app {A} (l : list A) p t x y r :
  drop p l = t ++ x :: r -> drop p (<[p + length t := y]> l) = t ++ y :: r.
Proof.
  intros H. rewrite drop_insert_ge by lia.
  replace (p + length t - p) with (length t + 0) by lia.
  by rewrite H, insert_app_r.
Qed.

Lemma poke_length buf p bytes buf' : poke buf p bytes = Some buf' -> length buf' = length buf.
Proof.
  unfold poke. destruct (Nat.leb_spec (p + length bytes) (length buf)) as [Hle|Hgt]; [|done].
  intros H. inversion H; subst. rewrite !length_app, length_take, length_drop. lia.
Qed.

Lemma poke_drop buf p bytes buf' :
  poke buf p bytes = Some buf' ->
  drop p buf' = bytes ++ drop (p + length bytes) buf.
Proof.
  unfold poke. destruct (Nat.leb_spec (p + length bytes) (length buf)) as [Hle|Hgt]; [|done].
  intros H. inversion H; subst.
  rewrite drop_app_ge by (rewrite length_take; lia).
  rewrite length_take. replace (p - p `min` length buf) with 0 by lia. done.
Qed.

Lemma poke_spec buf p bytes :
  poke buf p bytes = None /\ length buf < p + length bytes \/
  exists buf', poke buf p bytes = Some buf' /\ p + length bytes <= length buf.
Proof.
  unfold poke. destruct (Nat.leb_spec (p + length bytes) (length buf)) as [Hle|Hgt].
  - right. by eexists.
  - by left.
Qed.

(** *** The digits of a number *)

Lemma string_of_uint_free (stop : ascii -> bool) d :
  Forall (fun c => stop c = false) (s2l "-0123456789") ->
  free_of stop (s2l (NilEmpty.string_of_uint d)).
Proof.
  intros H. unfold free_of.
  repeat match goal with
         | H : Forall _ (_ :: _) |- _ => inversion H; clear H; subst
         | H : Forall _ (s2l _) |- _ => unfold s2l in H; simpl in H
         end.
  induction d; simpl; by constructor.
Qed.

Lemma itoa_free (stop : ascii -> bool) z :
  Forall (fun c => stop c = false) (s2l "-0123456789") -> free_of stop (itoa z).
Proof.
  intros H. unfold itoa. destruct (Z.to_int z) as [d|d]; simpl.
  - by apply string_of_uint_free.
  - constructor; [by inversion H | by apply string_of_uint_free].
Qed.

Lemma itoa_text z : text (itoa z).
Proof. apply itoa_free. by repeat constructor. Qed.

(** *** strtok *)

Lemma strtok_separator buf s x :
  drop s buf = "&"%char :: x -> strtok buf (Some s) = strtok buf (Some (S s)).
Proof.
  intros H. unfold strtok.
  assert (Hx : drop (S s) buf = x).
  { replace (S s) with (s + length ["&"%char]) by (simpl; lia).
    by apply (drop_app_length_eq buf s ["&"%char] x). }
  assert (Hc : c_str_at buf s = "&"%char :: c_str_at buf (S s)).
  { unfold c_str_at. by rewrite H, Hx. }
  rewrite Hc. cbn [before is_amp is_char Ascii.eqb negb Bool.eqb andb length].
  by rewrite <- Nat.add_succ_comm.
Qed.

Lemma strtok_end buf s tail :
  drop s buf = NUL :: tail -> strtok buf (Some s) = (None, buf, None).
Proof.
  intros H. unfold strtok.
  assert (Hc : c_str_at buf s = []) by (unfold c_str_at; by rewrite H).
  rewrite Hc. simpl. by rewrite Nat.add_0_r, Hc.
Qed.

Lemma before_head_stop (stop : ascii -> bool) c r : stop c = true -> before stop (c :: r) = [].
Proof. intros H. simpl. by rewrite H. Qed.

Lemma strtok_last buf s f tail :
  f <> [] -> free_of is_amp f -> text f ->
  drop s buf = f ++ NUL :: tail ->
  strtok buf (Some s) = (Some s, buf, None).
Proof.
  intros Hne Hamp Ht H. unfold strtok.
  rewrite (c_str_at_drop buf s f tail H Ht).
  destruct f as [|c f']; [done|]. inversion Hamp; subst.
  rewrite (before_head_stop (fun c0 => negb (is_amp c0)) c f') by (by apply negb_true_iff).
  simpl length. rewrite Nat.add_0_r, (c_str_at_drop buf s (c :: f') tail H Ht).
  rewrite existsb_free by done. done.
Qed.

Lemma strtok_token buf s f t' tail :
  f <> [] -> free_of is_amp f -> text f -> text t' ->
  drop s buf = f ++ "&"%char :: t' ++ NUL :: tail ->
  strtok buf (Some s) = (Some s, <[s + length f := NUL]> buf, Some (S (s + length f))).
Proof.
  intros Hne Hamp Ht Ht' H. unfold strtok.
  assert (Hc : c_str_at buf s = f ++ "&"%char :: t').
  { apply (c_str_at_drop buf s _ tail).
    - by rewrite <- app_assoc.
    - apply free_of_app. split; [done|]. by constructor. }
  rewrite Hc.
  assert (Hsp : before (fun c0 => negb (is_amp c0)) (f ++ "&"%char :: t') = []).
  { destruct f as [|c f']; [done|]. inversion Hamp; subst.
    apply before_head_stop. by apply negb_true_iff. }
  rewrite Hsp. simpl length at 1. rewrite Nat.add_0_r, Hc.
  destruct (f ++ "&"%char :: t') as [|a l] eqn:E; [by destruct f|]. rewrite <- E.
  rewrite before_stop by done. rewrite existsb_stop by done. simpl. by rewrite Nat.add_0_r.
Qed.

(** *** The fields *)

Lemma fields_cases t :
  (free_of is_amp t /\ fields t = [t]) \/
  (exists f t', t = f ++ "&"%char :: t' /\ free_of is_amp f /\ fields t = f :: fields t').
Proof.
  induction t as [|c r IH]; [left; split; [constructor | done]|]. simpl.
  destruct (is_amp c) eqn:Hc.
  - right. exists [], r. unfold is_amp, is_char in Hc.
    apply Ascii.eqb_eq in Hc. subst c. split; [done|]. split; [constructor | done].
  - destruct IH as [[Hf Hr]|(f & t' & Ht & Hf & Hr)]; rewrite Hr.
    + left. split; [by constructor | done].
    + right. exists (c :: f), t'. subst r. split; [done|]. split; [by constructor | done].
Qed.

Lemma fields_length t : 1 <= length (fields t) <= length t + 1.
Proof.
  induction t as [|c r IH]; simpl; [lia|].
  destruct (is_amp c); simpl; [lia|]. destruct (fields r); simpl in *; lia.
Qed.

Lemma parse_fields_full off updates fs :
  32 <= length updates -> parse_fields off updates fs = Parsed updates.
Proof.
  intros H. destruct fs; [done|]. cbn [parse_fields].
  by rewrite (proj2 (Nat.leb_le 32 (length updates)) H).
Qed.

Lemma split_at_stop (stop : ascii -> bool) s :
  existsb stop s = true ->
  exists c, stop c = true /\ s = before stop s ++ c :: after stop s.
Proof.
  induction s as [|x r IH]; simpl; [done|]. destruct (stop x) eqn:E.
  - intros _. by exists x.
  - simpl. intros H. destruct (IH H) as (c & Hc & Hs). exists c. split; [done|].
    by rewrite <- Hs.
Qed.

(** *** The body of the loop *)

Lemma poke_drop_ge buf p bytes buf' j :
  poke buf p bytes = Some buf' -> p + length bytes <= j -> drop j buf' = drop j buf.
Proof.
  intros H Hj. pose proof (poke_drop buf p bytes buf' H) as Hd.
  replace j with (p + (j - p)) by lia. rewrite <- !drop_drop, Hd.
  rewrite drop_app_ge by lia. rewrite !drop_drop. f_equal. lia.
Qed.

Lemma is_equals_eq c : is_equals c = true -> c = "="%char.
Proof. unfold is_equals, is_char. apply Ascii.eqb_eq. Qed.

Lemma parse_pair_spec buf p f tail updates :
  length buf = BODY_SIZE -> drop p buf = f ++ NUL :: tail -> text f ->
  match parse_field p f updates with
  | FieldUndefined => parse_pair buf p updates = None
  | FieldNext u =>
      exists buf',
        parse_pair buf p updates = Some (buf', u) /\ length buf' = BODY_SIZE /\
        drop (p + length f + 1) buf' = tail
  | FieldLast u =>
      exists buf' d pad,
        parse_pair buf p updates = Some (buf', u) /\ length buf' = BODY_SIZE /\
        drop (p + length f + 1) buf' = d ++ NUL :: pad /\
        text d /\ free_of is_amp d /\ free_of is_equals d
  end.
Proof.
  intros Hlen Hdrop Ht. unfold parse_pair, parse_field.
  rewrite (c_str_at_drop buf p f tail Hdrop Ht).
  destruct (existsb is_equals f) eqn:He.
  2:{ exists buf. split; [done|]. split; [done|].
      replace (p + length f + 1) with (p + length (f ++ [NUL]))
        by (rewrite length_app; simpl; lia).
      apply drop_app_length_eq. by rewrite <- app_assoc. }
  destruct (split_at_stop is_equals f He) as (c & Hc & Hf).
  apply is_equals_eq in Hc. subst c.
  set (name := before is_equals f) in *. set (v := after is_equals f) in *.
  assert (Hlf : length f = length name + 1 + length v).
  { rewrite Hf, length_app. simpl. lia. }
  assert (Htn : text name /\ text v).
  { rewrite Hf in Ht. apply free_of_app in Ht as [H1 H2]. by inversion H2. }
  destruct Htn as [Htn Htv].
  set (buf1 := <[p + length name := NUL]> buf).
  assert (Hlen1 : length buf1 = BODY_SIZE) by (unfold buf1; by rewrite length_insert).
  assert (Hd1 : drop p buf1 = name ++ NUL :: v ++ NUL :: tail).
  { unfold buf1. apply (insert_drop_app buf p name "="%char NUL).
    rewrite Hdrop, Hf at 1. by rewrite <- app_assoc. }
  assert (Hname : c_str_at buf1 p = name) by (by apply (c_str_at_drop _ _ _ _ Hd1)).
  assert (Hdv : drop (S (p + length name)) buf1 = v ++ NUL :: tail).
  { replace (S (p + length name)) with (p + length (name ++ [NUL]))
      by (rewrite length_app; simpl; lia).
    apply drop_app_length_eq. by rewrite <- app_assoc. }
  assert (Hv : c_str_at buf1 (S (p + length name)) = v)
    by (by apply (c_str_at_drop _ _ _ _ Hdv)).
  assert (Htail1 : drop (p + length f + 1) buf1 = tail).
  { replace (p + length f + 1) with (S (p + length name) + length (v ++ [NUL]))
      by (rewrite length_app; simpl; lia).
    apply drop_app_length_eq. by rewrite <- app_assoc. }
  rewrite Hname, Hv.
  destruct (translate name) as [[[sec ini_key] [factor|]]|].
  - destruct (atoi v) as [val|]; [|done].
    destruct (in_int (val * factor)); [|done].
    set (converted := itoa (val * factor)).
    assert (Htc : text converted) by apply itoa_text.
    destruct (poke_spec buf1 (S (p + length name)) (converted ++ [NUL]))
      as [[Hp Hover]|(buf2 & Hp & Hfit)]; rewrite Hp;
      rewrite length_app in *; simpl in *.
    + rewrite (proj2 (Nat.ltb_lt _ _)) by lia. done.
    + rewrite (proj2 (Nat.ltb_ge _ _)) by lia.
      pose proof (poke_length _ _ _ _ Hp) as Hlen2.
      pose proof (poke_drop _ _ _ _ Hp) as Hd2.
      rewrite length_app in Hd2. simpl in Hd2. rewrite <- app_assoc in Hd2.
      rewrite (c_str_at_drop _ _ _ _ Hd2 Htc).
      destruct (Nat.leb_spec (length converted) (length v)) as [Hle|Hgt].
      * exists buf2. split; [done|]. split; [congruence|].
        rewrite (poke_drop_ge _ _ _ _ _ Hp); [done|].
        rewrite length_app. simpl. lia.
      * exists buf2, (drop (length v + 1) converted), 
               (drop (S (p + length name) + (length converted + 1)) buf1).
        split; [done|]. split; [congruence|]. split.
        -- replace (p + length f + 1) with (S (p + length name) + (length v + 1)) by lia.
           rewrite <- drop_drop, Hd2. rewrite drop_app_le by lia. done.
        -- split; [by apply Forall_drop|]. split.
           ++ apply Forall_drop. apply itoa_free. by repeat constructor.
           ++ apply Forall_drop. apply itoa_free. by repeat constructor.
  - exists buf1. by repeat split.
  - exists buf1. by repeat split.
Qed.

(** *** The loop *)

Lemma parse_leftover fuel buf s d pad updates :
  drop s buf = d ++ NUL :: pad ->
  text d -> free_of is_amp d -> free_of is_equals d -> 0 < fuel ->
  (let '(tok, b, save) := strtok buf (Some s) in parse_pairs fuel b tok save updates)
  = Parsed updates.
Proof.
  intros Hd Ht Ha He Hfuel. destruct d as [|c d'].
  - rewrite (strtok_end buf s pad Hd). by destruct fuel.
  - rewrite (strtok_last buf s (c :: d') pad); try done.
    destruct fuel as [|fuel']; [lia|]. cbn [parse_pairs].
    destruct (32 <=? length updates); [done|].
    unfold parse_pair. rewrite (c_str_at_drop _ _ _ _ Hd Ht).
    rewrite existsb_free by done. cbn [strtok]. by destruct fuel'.
Qed.

Lemma parse_refines fs :
  forall t fuel buf s tail updates,
    fields t = fs -> text t ->
    length buf = BODY_SIZE -> drop s buf = t ++ NUL :: tail ->
    length fs <= fuel ->
    (let '(tok, b, save) := strtok buf (Some s) in parse_pairs fuel b tok save updates)
    = parse_fields s updates fs.
Proof.
  induction fs as [|f0 fs IH]; intros t fuel buf s tail updates Hfs Ht Hlen Hdrop Hfuel.
  { pose proof (fields_length t). rewrite Hfs in *. simpl in *. lia. }
  destruct (fields_cases t) as [[Hamp Hone]|(f & t' & Hsplit & Hamp & Hmore)].
  - rewrite Hone in Hfs. inversion Hfs; subst f0 fs. clear Hfs.
    destruct t as [|c t'].
    + rewrite (strtok_end buf s tail Hdrop). cbn [parse_fields].
      destruct (32 <=? length updates); by destruct fuel.
    + rewrite (strtok_last buf s (c :: t') tail); try done.
      destruct fuel as [|fuel']; [simpl in Hfuel; lia|]. cbn [parse_pairs parse_fields].
      destruct (32 <=? length updates); [done|].
      pose proof (parse_pair_spec buf s (c :: t') tail updates Hlen Hdrop Ht) as Hp.
      destruct (parse_field s (c :: t') updates) as [|u|u].
      * by rewrite Hp.
      * destruct Hp as (buf' & -> & _). cbn [strtok]. by destruct fuel'.
      * destruct Hp as (buf' & d & pad & -> & _). cbn [strtok]. by destruct fuel'.
  - rewrite Hmore in Hfs. inversion Hfs; subst f0 fs. clear Hfs.
    subst t. apply free_of_app in Ht as [Htf Ht']. inversion Ht' as [|? ? _ Htt]; subst.
    pose proof (fields_length t') as Hfl. simpl in Hfuel.
    destruct f as [|c f'].
    + simpl in Hdrop. rewrite (strtok_separator buf s _ Hdrop).
      assert (Hd' : drop (S s) buf = t' ++ NUL :: tail).
      { replace (S s) with (s + length ["&"%char]) by (simpl; lia).
        by apply drop_app_length_eq. }
      rewrite (IH t' fuel buf (S s) tail updates eq_refl Htt Hlen Hd') by lia.
      cbn [parse_fields]. rewrite Nat.add_1_r.
      destruct (Nat.leb_spec 32 (length updates)) as [Hfull|_]; [|done].
      by apply parse_fields_full.
    + rewrite <- app_assoc in Hdrop. cbn [app] in Hdrop.
      rewrite (strtok_token buf s (c :: f') t' tail); try done.
      set (buf1 := <[s + length (c :: f') := NUL]> buf).
      assert (Hlen1 : length buf1 = BODY_SIZE) by (unfold buf1; by rewrite length_insert).
      assert (Hd1 : drop s buf1 = (c :: f') ++ NUL :: t' ++ NUL :: tail)
        by (by apply (insert_drop_app buf s (c :: f') "&"%char NUL)).
      destruct fuel as [|fuel']; [lia|]. cbn [parse_pairs parse_fields].
      destruct (32 <=? length updates); [done|].
      pose proof (parse_pair_spec buf1 s (c :: f') (t' ++ NUL :: tail) updates
                    Hlen1 Hd1 Htf) as Hp.
      destruct (parse_field s (c :: f') updates) as [|u|u].
      * by rewrite Hp.
      * destruct Hp as (buf' & -> & Hlen' & Hd').
        replace (S (s + length (c :: f'))) with (s + length (c :: f') + 1) by lia.
        apply (IH t' fuel' buf' _ tail u eq_refl Htt Hlen' Hd'). lia.
      * destruct Hp as (buf' & d & pad & -> & Hlen' & Hd' & Htd & Had & Hed).
        replace (S (s + length (c :: f'))) with (s + length (c :: f') + 1) by lia.
        apply (parse_leftover fuel' buf' _ d pad u Hd' Htd Had Hed). lia.
Qed.

Lemma body_buffer_layout body :
  length (body_buffer body) = BODY_SIZE /\
  exists tail,
    drop 0 (body_buffer body) = take (BODY_SIZE - 1) (c_str body) ++ NUL :: tail.
Proof.
  unfold body_buffer. set (t := take (BODY_SIZE - 1) (c_str body)).
  assert (Hpos : 0 < BODY_SIZE) by (unfold BODY_SIZE; lia).
  assert (Ht : length t <= BODY_SIZE - 1) by (unfold t; rewrite length_take; lia).
  split.
  - rewrite length_app, length_replicate. lia.
  - destruct (BODY_SIZE - length t) as [|n] eqn:E; [lia|]. by exists (replicate n NUL).
Qed.

Lemma parse_body_refines body :
  parse_body body = parse_fields 0 [] (fields (take (BODY_SIZE - 1) (c_str body))).
Proof.
  unfold parse_body. destruct (body_buffer_layout body) as (Hlen & tail & Hdrop).
  assert (Hpos : 0 < BODY_SIZE) by (unfold BODY_SIZE; lia).
  apply (parse_refines _ (take (BODY_SIZE - 1) (c_str body)) BODY_SIZE
           (body_buffer body) 0 tail []); try done.
  - apply free_of_take. unfold c_str. apply before_is_free.
  - pose proof (fields_length (take (BODY_SIZE - 1) (c_str body))) as H.
    rewrite length_take in H. lia.
Qed.

Lemma parse_fields_finished fs : forall off updates,
  parse_fields off updates fs <> ParseUnfinished.
Proof.
  induction fs as [|f fs IH]; intros off updates; cbn [parse_fields]; [done|].
  destruct (_ <=? _); [done|]. destruct f; [apply IH|].
  destruct (parse_field _ _ _); [done | apply IH | done].
Qed.

(** The updates [handle_config_update] takes from a body are those of
    its fields: the loop over the tokens of [strtok], with its writes into
    [body_copy], comes to what [parse_fields] says field by field for the
    first 4095 characters of the body.  In particular the loop ends: it
    is never cut short by the model. *)
Theorem parse_body_fields (body : cstring) :
  parse_body body = parse_fields 0 [] (fields (take (BODY_SIZE - 1) (c_str body))) /\
  parse_body body <> ParseUnfinished.
Proof.
  split; [apply parse_body_refines|].
  rewrite parse_body_refines. apply parse_fields_finished.
Qed.

(** *** The updates of a body *)

Lemma translate_place name sec ini_key factor :
  translate name = Some (sec, ini_key, factor) ->
  (strncpy 63 (s2l sec), strncpy 63 (s2l ini_key)) ∈ form_places.
Proof.
  unfold translate, form_places.
  repeat (destruct (bool_decide _);
          [intros H; inversion H; subst;
           repeat (first [apply list_elem_of_here | apply list_elem_of_further])|]).
  done.
Qed.

Lemma new_update_form sec ini_key factor name v :
  translate name = Some (sec, ini_key, factor) -> form_update (new_update sec ini_key v).
Proof.
  intros H. by apply (translate_place name sec ini_key factor).
Qed.

Lemma parse_field_form off f updates :
  Forall form_update updates ->
  match parse_field off f updates with
  | FieldUndefined => True
  | FieldNext u | FieldLast u => Forall form_update u /\ length u <= length updates + 1
  end.
Proof.
  intros Hu. unfold parse_field.
  destruct (existsb is_equals f); [|split; [done | lia]].
  destruct (translate (before is_equals f)) as [[[sec ini_key] [factor|]]|] eqn:Et.
  - destruct (atoi _) as [val|]; [|done]. destruct (in_int _); [|done].
    destruct (_ <? _); [done|].
    destruct (_ <=? _); (split; [|rewrite length_app; simpl; lia]);
      (apply Forall_app; split; [done|]; constructor; [|done]);
      by apply (new_update_form _ _ _ _ _ Et).
  - split; [|rewrite length_app; simpl; lia].
    apply Forall_app. split; [done|]. constructor; [|done].
    by apply (new_update_form _ _ _ _ _ Et).
  - split; [done | lia].
Qed.

Lemma parse_fields_form fs :
  forall off updates us,
    Forall form_update updates -> length updates <= 32 ->
    parse_fields off updates fs = Parsed us ->
    Forall form_update us /\ length us <= 32.
Proof.
  induction fs as [|f fs IH]; intros off updates us Hu Hlen; cbn [parse_fields].
  - intros H. by inversion H; subst.
  - destruct (Nat.leb_spec 32 (length updates)) as [Hfull|Hroom].
    { intros H. by inversion H; subst. }
    destruct f as [|c f']; [by apply IH|].
    pose proof (parse_field_form off (c :: f') updates Hu) as Hf.
    destruct (parse_field off (c :: f') updates) as [|u|u]; [done| |].
    + destruct Hf as [Hf Hl]. apply IH; [done | lia].
    + destruct Hf as [Hf Hl]. intros H. inversion H; subst. split; [done | lia].
Qed.



(** *** Bodies without converted values *)

Lemma parse_field_plain off f updates :
  converted_field f = false ->
  parse_field off f updates
  = FieldNext (updates ++ match plain_update f with Some e => [e] | None => [] end).
Proof.
  unfold converted_field, parse_field, plain_update.
  destruct (existsb is_equals f); [|by rewrite app_nil_r].
  destruct (translate (before is_equals f)) as [[[sec ini_key] [factor|]]|]; simpl.
  - done.
  - done.
  - by rewrite app_nil_r.
Qed.

Lemma parse_fields_plain fs :
  forall off updates,
    Forall (fun f => converted_field f = false) fs -> length updates <= 32 ->
    parse_fields off updates fs = Parsed (take 32 (updates ++ omap plain_update fs)).
Proof.
  induction fs as [|f fs IH]; intros off updates Hp Hlen; cbn [parse_fields].
  - rewrite app_nil_r. by rewrite take_ge.
  - inversion Hp as [|? ? Hf Hfs]; subst.
    destruct (Nat.leb_spec 32 (length updates)) as [Hfull|Hroom].
    { rewrite take_app_le by lia. by rewrite take_ge by lia. }
    destruct f as [|c f'].
    + rewrite IH by done. done.
    + rewrite parse_field_plain by done. rewrite IH; [|done|].
      * f_equal. f_equal. cbn [omap list_omap]. unfold omap.
        destruct (plain_update (c :: f')); simpl; by rewrite <- app_assoc.
      * destruct (plain_update (c :: f')); rewrite length_app; simpl; lia.
Qed.



(** *** The fields after a converted value *)

Lemma parse_fields_app fs1 :
  forall off updates fs2,
    Forall (fun f => converted_field f = false) fs1 ->
    length (updates ++ omap plain_update fs1) < 32 ->
    parse_fields off updates (fs1 ++ fs2)
    = parse_fields (off + fields_end fs1) (updates ++ omap plain_update fs1) fs2.
Proof.
  induction fs1 as [|f fs1 IH]; intros off updates fs2 Hp Hlen.
  - simpl. unfold fields_end. simpl. by rewrite Nat.add_0_r, app_nil_r.
  - inversion Hp as [|? ? Hf Hfs]; subst. cbn [app parse_fields].
    assert (Hmono : length updates <= length (updates ++ omap plain_update (f :: fs1)))
      by (rewrite length_app; lia).
    destruct (Nat.leb_spec 32 (length updates)) as [Hfull|Hroom]; [lia|].
    assert (Hend : forall n, n + fields_end (f :: fs1) = n + length f + 1 + fields_end fs1).
    { intros n. unfold fields_end. cbn [map concat]. rewrite !length_app. simpl. lia. }
    destruct f as [|c f'].
    + rewrite IH; [|done|done]. f_equal. rewrite Hend. simpl. lia.
    + rewrite parse_field_plain by done.
      assert (Hupd : (updates ++ match plain_update (c :: f') with
                                 | Some e => [e] | None => [] end)
                     ++ omap plain_update fs1
                     = updates ++ omap plain_update ((c :: f') :: fs1)).
      { cbn [omap list_omap]. unfold omap.
        destruct (plain_update (c :: f')); simpl; by rewrite <- app_assoc. }
      rewrite IH; [|done|by rewrite Hupd].
      rewrite Hupd. f_equal. by rewrite Hend.
Qed.

(** A converted value that is longer than the text it was read from
    ends the reading of the body: when the fields before it are not
    converted and give fewer than 32 updates, and the conversion is
    defined and ends inside [body_copy], the updates are those of the
    fields before it and its own; whatever follows it in the body is
    lost. *)
Theorem fields_after_conversion_lost (body : cstring) (fs1 : list cstring) (f : cstring)
    (fs2 : list cstring) (sec ini_key : string) (factor val : Z) :
  fields (take (BODY_SIZE - 1) (c_str body)) = fs1 ++ f :: fs2 ->
  Forall (fun g => converted_field g = false) fs1 ->
  length (omap plain_update fs1) < 32 ->
  existsb is_equals f = true ->
  translate (before is_equals f) = Some (sec, ini_key, Some factor) ->
  atoi (after is_equals f) = Some val ->
  in_int (val * factor) = true ->
  length (after is_equals f) < length (itoa (val * factor)) ->
  fields_end fs1 + length (before is_equals f) + 1 + length (itoa (val * factor)) + 1
  <= BODY_SIZE ->
  parse_body body
  = Parsed (omap plain_update fs1 ++ [new_update sec ini_key (itoa (val * factor))]).
Proof.
  intros Hfs Hp Hlen He Ht Ha Hi Hlonger Hfit.
  rewrite parse_body_refines, Hfs. rewrite parse_fields_app by done.
  cbn [app parse_fields]. simpl length at 1.
  destruct (Nat.leb_spec 32 (length (omap plain_update fs1))) as [Hfull|_]; [lia|].
  destruct f as [|c f']; [done|].
  unfold parse_field. rewrite He, Ht, Ha, Hi.
  rewrite (proj2 (Nat.ltb_ge _ _)) by lia.
  rewrite (proj2 (Nat.leb_gt _ _)) by lia. done.
Qed.

Lemma fields_after_conversion_lost_witness :
  parse_body (s2l "folder_name=recordings&file_duration=2&max_rate=2048&width=1920")
  = Parsed (omap plain_update [s2l "folder_name=recordings"]
            ++ [new_update "storage.0" "file_duration" (itoa (2 * 60))]).
Proof.
  apply (fields_after_conversion_lost
           (s2l "folder_name=recordings&file_duration=2&max_rate=2048&width=1920")
           [s2l "folder_name=recordings"] (s2l "file_duration=2")
           [s2l "max_rate=2048"; s2l "width=1920"]
           "storage.0" "file_duration" 60%Z 2%Z).
  - vm_compute. reflexivity.
  - repeat (apply List.Forall_cons; [vm_compute; reflexivity|]). apply List.Forall_nil.
  - vm_compute. lia.
  - reflexivity.
  - reflexivity.
  - reflexivity.
  - reflexivity.
  - vm_compute. lia.
  - vm_compute. lia.
Defined.

(** ** check_auth *)

Lemma starts_with_spec needle hay :
  starts_with needle hay = true <-> exists r, hay = needle ++ r.
Proof.
  revert hay. induction needle as [|a n IH]; intros hay.
  - split; [intros _; by exists hay | by destruct hay].
  - destruct hay as [|b h]; simpl.
    + split; [done | by intros [r Hr]].
    + rewrite andb_true_iff, IH, Ascii.eqb_eq. split.
      * intros [-> [r ->]]. by exists r.
      * intros [r Hr]. inversion Hr; subst. split; [done | by exists r].
Qed.

Lemma strstr_cons c hay needle :
  strstr (c :: hay) needle
  = if starts_with needle (c :: hay) then Some (c :: hay) else strstr hay needle.
Proof. done. Qed.

Lemma strstr_Some hay needle found :
  strstr hay needle = Some found ->
  exists pre r, hay = pre ++ found /\ found = needle ++ r.
Proof.
  induction hay as [|c h IH].
  - simpl. destruct (starts_with needle []) eqn:E; [|done].
    intros H. inversion H; subst. apply starts_with_spec in E as [r Hr].
    by exists [], r.
  - rewrite strstr_cons. destruct (starts_with needle (c :: h)) eqn:E.
    + intros H. inversion H; subst. apply starts_with_spec in E as [r Hr].
      by exists [], r.
    + intros H. destruct (IH H) as (pre & r & -> & Hf). by exists (c :: pre), r.
Qed.

Lemma removelast_snoc (n : cstring) :
  n <> [] -> exists x, n = removelast n ++ [x].
Proof.
  intros H. exists (List.last n NUL). by apply app_removelast_last.
Qed.

Lemma prefix_of_shorter (n p h1 h2 : cstring) :
  n ++ h1 = p ++ h2 -> length n <= length p -> exists b, p = n ++ b.
Proof.
  revert p. induction n as [|a n IH]; intros p H Hl; [by exists p|].
  destruct p as [|b p]; [simpl in Hl; lia|]. inversion H; subst.
  destruct (IH p H2 ltac:(simpl in Hl; lia)) as [x ->]. by exists x.
Qed.

(** [strstr] finds the first occurrence. *)
Lemma strstr_first pre needle r :
  needle <> [] ->
  ~ occurs_in needle (pre ++ removelast needle) ->
  strstr (pre ++ needle ++ r) needle = Some (needle ++ r).
Proof.
  intros Hne. induction pre as [|c pre IH]; intros Hfirst.
  - simpl. destruct (needle ++ r) as [|x y] eqn:E; [by destruct needle|].
    rewrite strstr_cons, <- E.
    by rewrite (proj2 (starts_with_spec needle (needle ++ r))) by (by exists r).
  - cbn [app]. rewrite strstr_cons.
    destruct (starts_with needle (c :: pre ++ needle ++ r)) eqn:E.
    + exfalso. apply Hfirst. apply starts_with_spec in E as [x Hx].
      destruct (removelast_snoc needle Hne) as [l Hl].
      assert (Hx' : needle ++ x = ((c :: pre) ++ removelast needle) ++ [l] ++ r).
      { rewrite <- Hx. rewrite Hl at 1. by rewrite <- !app_assoc. }
      destruct (prefix_of_shorter _ _ _ _ Hx') as [b Hb].
      { rewrite length_app. simpl. rewrite Hl at 1. rewrite length_app. simpl. lia. }
      exists [], b. by rewrite Hb.
    + apply IH. intros (a & b & Hab). apply Hfirst. exists (c :: a), b.
      simpl. by rewrite Hab.
Qed.

Lemma strstr_first_inv hay needle r :
  needle <> [] ->
  strstr hay needle = Some (needle ++ r) ->
  exists pre, hay = pre ++ needle ++ r /\ ~ occurs_in needle (pre ++ removelast needle).
Proof.
  intros Hne. induction hay as [|c h IH].
  - simpl. destruct (starts_with needle []); [|done]. intros H. inversion H as [H0].
    by destruct needle.
  - rewrite strstr_cons. destruct (starts_with needle (c :: h)) eqn:E.
    + intros H. inversion H as [H0]. exists []. split; [done|].
      intros (a & b & Hab). apply (f_equal length) in Hab.
      destruct (removelast_snoc needle Hne) as [l Hl].
      rewrite !length_app in Hab. simpl in Hab.
      assert (length needle = length (removelast needle) + 1)
        by (rewrite Hl at 1; rewrite length_app; simpl; lia).
      lia.
    + intros H. destruct (IH H) as (pre & -> & Hfirst). exists (c :: pre).
      split; [done|]. intros (a & b & Hab). destruct a as [|x a].
      * simpl in Hab.
        assert (Hs : starts_with needle (c :: pre ++ needle ++ r) = true).
        { apply starts_with_spec.
          destruct (removelast_snoc needle Hne) as [l Hl].
          exists (b ++ [l] ++ r).
          transitivity (((c :: pre) ++ removelast needle) ++ [l] ++ r).
          - rewrite Hl at 1. by rewrite <- !app_assoc.
          - change (c :: pre ++ removelast needle)
              with ((c :: pre) ++ removelast needle) in Hab.
            rewrite Hab. by rewrite <- !app_assoc. }
        congruence.
      * apply Hfirst. exists a, b. simpl in Hab. by inversion Hab.
Qed.

Lemma before_split (stop : ascii -> bool) s :
  exists r, s = before stop s ++ r /\
            (r = [] \/ exists c r', r = c :: r' /\ stop c = true).
Proof.
  induction s as [|x s (r & Hr & Hc)]; simpl.
  - exists []. split; [done | by left].
  - destruct (stop x) eqn:E.
    + exists (x :: s). split; [done|]. right. by exists x, s.
    + exists r. split; [simpl; by f_equal | done].
Qed.

Lemma before_token (stop : ascii -> bool) t r :
  free_of stop t -> (r = [] \/ exists c r', r = c :: r' /\ stop c = true) ->
  before stop (t ++ r) = t.
Proof.
  intros Ht [->|(c & r' & -> & Hc)].
  - rewrite app_nil_r. by apply before_free.
  - by apply before_stop.
Qed.

Lemma auth_token_free : free_of ends_token AUTH_BASE64.
Proof. unfold AUTH_BASE64. by repeat constructor. Qed.

Lemma check_auth_token header :
  check_auth (Some header) = Some 1%Z ->
  exists pre rest,
    header = pre ++ s2l "Basic " ++ AUTH_BASE64 ++ rest /\
    ~ occurs_in (s2l "Basic ") (pre ++ s2l "Basic") /\
    (rest = [] \/ exists c rest', rest = c :: rest' /\ ends_token c = true).
Proof.
  unfold check_auth.
  destruct (strstr header (s2l "Basic ")) as [found|] eqn:E; [|done].
  destruct (strstr_Some _ _ _ E) as (pre0 & r & _ & ->).
  apply strstr_first_inv in E as (pre & -> & Hfirst); [|done].
  change (drop 6 (s2l "Basic " ++ r)) with r.
  destruct (256 <? _); [done|]. destruct (bool_decide _) eqn:Hb; [|done].
  apply bool_decide_eq_true_1 in Hb. intros _.
  destruct (before_split ends_token r) as (rest & Hr & Hrest).
  exists pre, rest. rewrite Hb in Hr. by rewrite <- Hr.
Qed.

(** [check_auth] returns 1 exactly when, in the header, the first
    ["Basic "] is followed by the expected token and then by the end of
    the string, a blank, a carriage return or a newline. *)
Theorem check_auth_accepts (header : cstring) :
  check_auth (Some header) = Some 1%Z <->
  exists pre rest,
    header = pre ++ s2l "Basic " ++ AUTH_BASE64 ++ rest /\
    ~ occurs_in (s2l "Basic ") (pre ++ s2l "Basic") /\
    (rest = [] \/ exists c rest', rest = c :: rest' /\ ends_token c = true).
Proof.
  split; [apply check_auth_token|].
  intros (pre & rest & -> & Hfirst & Hrest). unfold check_auth.
  rewrite (strstr_first pre (s2l "Basic ") (AUTH_BASE64 ++ rest)) by done.
  change (drop 6 (s2l "Basic " ++ AUTH_BASE64 ++ rest)) with (AUTH_BASE64 ++ rest).
  rewrite (before_token ends_token AUTH_BASE64 rest auth_token_free Hrest).
  done.
Qed.

(** [check_auth] has no defined result exactly when, in the header, the
    first ["Basic "] is followed by more than 256 characters other than
    blank, carriage return and newline: the copy into [clean] then writes
    past the end of the array. *)
Theorem check_auth_overflow (header : cstring) :
  check_auth (Some header) = None <->
  exists pre token rest,
    header = pre ++ s2l "Basic " ++ token ++ rest /\
    ~ occurs_in (s2l "Basic ") (pre ++ s2l "Basic") /\
    free_of ends_token token /\
    (rest = [] \/ exists c rest', rest = c :: rest' /\ ends_token c = true) /\
    256 < length token.
Proof.
  unfold check_auth. split.
  - destruct (strstr header (s2l "Basic ")) as [found|] eqn:E; [|done].
    destruct (strstr_Some _ _ _ E) as (pre0 & r & _ & ->).
    apply strstr_first_inv in E as (pre & -> & Hfirst); [|done].
    change (drop 6 (s2l "Basic " ++ r)) with r.
    destruct (256 <? length (before ends_token r)) eqn:Hl; [|done]. intros _.
    apply Nat.ltb_lt in Hl.
    destruct (before_split ends_token r) as (rest & Hr & Hrest).
    exists pre, (before ends_token r), rest. rewrite <- Hr.
    repeat split; try done. apply before_is_free.
  - intros (pre & token & rest & -> & Hfirst & Hfree & Hrest & Hlen).
    rewrite (strstr_first pre (s2l "Basic ") (token ++ rest)) by done.
    change (drop 6 (s2l "Basic " ++ token ++ rest)) with (token ++ rest).
    rewrite (before_token ends_token token rest Hfree Hrest).
    by rewrite (proj2 (Nat.ltb_lt _ _) Hlen).
Qed.

(** ** handle_request *)

Lemma ink_app a b : ink (a ++ b) = ink a + ink b.
Proof. induction a as [|c a IH]; simpl; [done|]. rewrite IH. lia. Qed.

Lemma ink_skip_spaces s : ink (skip_spaces s) = ink s.
Proof.
  induction s as [|c s IH]; simpl; [done|].
  destruct (is_space c) eqn:E; [done|]. simpl. by rewrite E.
Qed.

Lemma ink_length s : ink s <= length s.
Proof. induction s as [|c s IH]; simpl; [done|]. destruct (is_space c); lia. Qed.

Lemma skip_spaces_nil s : skip_spaces s = [] -> ink s = 0.
Proof. intros H. by rewrite <- ink_skip_spaces, H. Qed.

(** With more than 15 characters that are not white space in the
    buffer, [sscanf] stores both words. *)
Lemma sscanf_request_stores buffer :
  15 < ink buffer -> exists method path, sscanf_request buffer = (Some method, Some path).
Proof.
  intros H. unfold sscanf_request, scan_word.
  destruct (skip_spaces buffer) as [|c s1] eqn:E1.
  { apply skip_spaces_nil in E1. lia. }
  set (w := take 15 (before is_space (c :: s1))).
  destruct (skip_spaces (drop (length w) (c :: s1))) as [|c2 s2] eqn:E2.
  - exfalso. apply skip_spaces_nil in E2.
    assert (Hs : ink (c :: s1) = ink buffer) by (by rewrite <- E1, ink_skip_spaces).
    rewrite <- (take_drop (length w) (c :: s1)), ink_app, E2 in Hs.
    pose proof (ink_length (take (length w) (c :: s1))) as Hl.
    rewrite length_take in Hl.
    assert (Hw : length w <= 15) by (unfold w; rewrite length_take; lia). lia.
  - by eexists _, _.
Qed.

Lemma credentials_ink buffer : carries_credentials buffer -> 15 < ink buffer.
Proof.
  intros (a & b & c & ->). rewrite !ink_app.
  assert (ink (s2l "Authorization:") = 14) by reflexivity.
  assert (ink (s2l "Basic ") = 5) by reflexivity. lia.
Qed.

Lemma check_auth_credentials buffer :
  check_auth (strstr buffer (s2l "Authorization:")) = Some 1%Z ->
  carries_credentials buffer.
Proof.
  destruct (strstr buffer (s2l "Authorization:")) as [header|] eqn:E; [|done].
  intros H. apply check_auth_token in H as (pre & rest & Hh & _ & _).
  destruct (strstr_Some _ _ _ E) as (a & r & -> & Hr).
  rewrite Hr in Hh.
  assert (Hp : exists b, pre = s2l "Authorization:" ++ b).
  { clear E. unfold s2l in Hh. simpl in Hh.
    do 14 (destruct pre as [|? pre]; [discriminate Hh|];
           simpl in Hh; injection Hh as Hc Hh; subst).
    by exists pre. }
  destruct Hp as [b ->]. exists a, b, rest. by rewrite Hr, Hh, <- !app_assoc.
Qed.

Lemma check_auth_values header z : check_auth header = Some z -> z = 0%Z \/ z = 1%Z.
Proof.
  unfold check_auth. destruct header as [h|]; [|intros H; inversion H; auto].
  destruct (strstr _ _); [|intros H; inversion H; auto].
  destruct (_ <? _); [done|]. destruct (bool_decide _); intros H; inversion H; auto.
Qed.

Lemma handle_request_text received renv fs c bytes :
  take 8191 received = c :: bytes ->
  handle_request received renv fs
  = let buffer := request_text received in
    let '(method, path) := sscanf_request buffer in
    match check_auth (strstr buffer (s2l "Authorization:")) with
    | None => Undefined
    | Some ok =>
        if (ok =? 0)%Z then Done (ReplyUnauthorized, fs, []) else
        match method, path with
        | Some method, Some path =>
            if bool_decide (path = s2l "/") then Done (ReplyHtml, fs, [])
            else if bool_decide (path = s2l "/api/status") then
              match get_snapshot_status (req_fopen_ok renv 0) fs with
              | Some snapshot_enabled => Done (ReplyStatus snapshot_enabled, fs, [])
              | None => Undefined
              end
            else if bool_decide (path = s2l "/api/config") then
              if bool_decide (method = s2l "GET")
              then Done (ReplyConfigData (send_config_data (req_fopen_ok renv) fs), fs, [])
              else if bool_decide (method = s2l "POST") then
                match strstr buffer [CR; LF; CR; LF] with
                | Some found =>
                    match parse_body (drop 4 found) with
                    | Parsed updates =>
                        match handle_config_update (fun _ => updates) (drop 4 found)
                                (req_proc renv) (req_env renv) fs with
                        | Some (r, fs', calls) => Done (ReplyUpdate r, fs', calls)
                        | None => Hangs
                        end
                    | _ => Undefined
                    end
                | None => Done (ReplyMissingBody, fs, [])
                end
              else Done (ReplyNothing, fs, [])
            else if bool_decide (path = s2l "/api/restart")
                    && bool_decide (method = s2l "POST")
            then Done (ReplyRestart, fs, [])
            else Done (ReplyNotFound, fs, [])
        | _, _ => Undefined
        end
    end.
Proof. intros Hb. unfold handle_request, request_text. by rewrite Hb. Qed.

(** Whatever is received, one of four things holds.  The text received
    holds ["Authorization:"] and, after it, ["Basic "] followed by the
    expected token.  Or nothing was received, nothing is sent and the
    files are left alone.  Or [send_unauthorized] is the answer and the
    files are left alone.  Or more than 256 characters follow the first
    ["Basic "] after ["Authorization:"]: [check_auth] then writes past the
    end of [clean] before it compares anything, and the behaviour of the
    program is undefined, with or without the credentials. *)
Theorem request_needs_credentials (received : cstring) (renv : RequestEnv) (fs : FileSys) :
  carries_credentials (request_text received) \/
  (take 8191 received = [] /\
   handle_request received renv fs = Done (ReplyNothing, fs, [])) \/
  handle_request received renv fs = Done (ReplyUnauthorized, fs, []) \/
  (check_auth (strstr (request_text received) (s2l "Authorization:")) = None /\
   handle_request received renv fs = Undefined).
Proof.
  destruct (take 8191 received) as [|c bytes] eqn:Hb.
  { right. left. split; [done|]. unfold handle_request. by rewrite Hb. }
  rewrite (handle_request_text received renv fs c bytes Hb). cbv zeta.
  destruct (sscanf_request (request_text received)) as [method path].
  destruct (check_auth (strstr (request_text received) (s2l "Authorization:")))
    as [ok|] eqn:Hauth.
  - destruct (check_auth_values _ _ Hauth) as [->| ->].
    + right. right. left. done.
    + left. by apply check_auth_credentials.
  - right. right. right. done.
Qed.

Lemma handle_config_update_file parse body penv env fs r fs' calls :
  handle_config_update parse body penv env fs = Some (r, fs', calls) ->
  fs' = fs \/ 0 < length (parse body).
Proof.
  unfold handle_config_update. destruct body; [intros H; inversion H; by left|].
  destruct (0 <? length (parse (a :: body)))%nat eqn:E.
  - intros _. right. by apply Nat.ltb_lt.
  - intros H. inversion H. by left.
Qed.


(** ** A value from the request to the file and back *)

Lemma update_request_words body :
  sscanf_request (update_request body) = (Some (s2l "POST"), Some (s2l "/api/config")).
Proof. reflexivity. Qed.

Lemma update_request_auth body :
  check_auth (strstr (update_request body) (s2l "Authorization:")) = Some 1%Z.
Proof. reflexivity. Qed.

Lemma update_request_body body :
  strstr (update_request body) [CR; LF; CR; LF] = Some ([CR; LF; CR; LF] ++ body).
Proof. reflexivity. Qed.

Lemma update_request_length body : length (update_request body) = 72 + length body.
Proof. reflexivity. Qed.

Lemma translate_name name sec ini_key factor :
  translate name = Some (sec, ini_key, factor) ->
  text name /\ free_of is_amp name /\ free_of is_equals name /\ length name <= 17.
Proof.
  unfold translate.
  repeat (destruct (bool_decide (name = _)) eqn:E;
          [apply bool_decide_eq_true_1 in E; subst; intros _;
           repeat split; try (by repeat constructor); simpl; lia|clear E]).
  done.
Qed.

Lemma translate_entry name sec ini_key factor :
  translate name = Some (sec, ini_key, factor) ->
  section_ok (s2l sec) /\ free_of (is_char CR) (s2l sec) /\
  key_ok (s2l ini_key) /\ free_of (is_char CR) (s2l ini_key) /\
  strncpy 63 (s2l sec) = s2l sec /\ strncpy 63 (s2l ini_key) = s2l ini_key.
Proof.
  unfold translate.
  repeat (destruct (bool_decide (name = _));
          [intros H; inversion H; subst;
           repeat split; try reflexivity; try discriminate;
           try (by repeat constructor); simpl; lia|]).
  done.
Qed.

Lemma field_parts name v :
  free_of is_equals name ->
  existsb is_equals (name ++ "="%char :: v) = true /\
  before is_equals (name ++ "="%char :: v) = name /\
  after is_equals (name ++ "="%char :: v) = v.
Proof.
  intros Hn. split; [by apply existsb_stop|].
  split; [by apply before_stop | by apply after_stop].
Qed.

(** The body [name=V] with a name that is not converted gives the one
    update for the place of the name, with the value [V]. *)
Lemma parse_body_single name sec ini_key V :
  translate name = Some (sec, ini_key, None) ->
  text V -> free_of is_amp V -> length V <= 255 ->
  parse_body (name ++ "="%char :: V) = Parsed [mkEntry (s2l sec) (s2l ini_key) V false].
Proof.
  intros Ht HV Hamp Hlen.
  destruct (translate_name _ _ _ _ Ht) as (Hnt & Hna & Hne & Hnl).
  destruct (translate_entry _ _ _ _ Ht) as (_ & _ & _ & _ & Hsec & Hkey).
  destruct (field_parts name V Hne) as (He & Hb & Ha).
  set (f := name ++ "="%char :: V) in *.
  assert (Htf : text f).
  { unfold f. apply free_of_app. split; [done|]. by constructor. }
  assert (Haf : free_of is_amp f).
  { unfold f. apply free_of_app. split; [done|]. by constructor. }
  assert (Hf : take (BODY_SIZE - 1) (c_str f) = f).
  { rewrite c_str_free by done. apply take_ge. unfold f. rewrite length_app. simpl.
    unfold BODY_SIZE. lia. }
  assert (Hfs : fields f = [f]).
  { destruct (fields_cases f) as [[_ H]|(g & t' & Hg & _ & _)]; [done|].
    exfalso. rewrite Hg in Haf. apply free_of_app in Haf as [_ Haf]. by inversion Haf. }
  rewrite parse_body_refines, Hf, Hfs. rewrite parse_fields_plain.
  - cbn [app omap list_omap]. unfold omap, plain_update. rewrite He, Hb, Ht, Ha. simpl.
    unfold new_update. rewrite Hsec, Hkey. unfold strncpy at 1. by rewrite take_ge by lia.
  - constructor; [|done]. unfold converted_field. by rewrite He, Hb, Ht.
  - simpl. lia.
Qed.

Lemma config_request_reply renv fs :
  handle_request config_request renv fs
  = Done (ReplyConfigData (send_config_data (req_fopen_ok renv) fs), fs, []).
Proof. reflexivity. Qed.

(** The answer of [send_config_data] holds a name of the form with the
    value that is read for its place. *)
Lemma send_config_data_shows name sec ini_key V fopen_ok fs :
  translate name = Some (sec, ini_key, None) ->
  (forall i, fopen_ok i = true) ->
  (forall value_size, 31 < value_size ->
     read_config_value (s2l sec) (s2l ini_key) value_size true fs = (1%Z, Some V)) ->
  (name, V) ∈ send_config_data fopen_ok fs.
Proof.
  intros Ht Hopen Hread. unfold send_config_data, read_or. rewrite !Hopen.
  unfold translate in Ht.
  repeat (destruct (bool_decide (name = _)) eqn:E;
          [apply bool_decide_eq_true_1 in E; subst; inversion Ht; subst;
           first [rewrite (Hread 32) by lia | rewrite (Hread 256) by lia];
           repeat (first [apply list_elem_of_here | apply list_elem_of_further])
          |clear E]).
  done.
Qed.



(** ** The status helpers *)

Lemma newest_mtime_ge acc dir : (acc <= newest_mtime acc dir)%Z.
Proof.
  revert acc. induction dir as [|e dir IH]; intros acc; simpl; [lia|].
  destruct (hidden e); [apply IH|].
  destruct (d_stat e) as [[[] m]|]; try apply IH.
  destruct (Z.ltb_spec acc m) as [Hlt|Hge]; [|apply IH]. specialize (IH m). lia.
Qed.

Lemma newest_mtime_upper acc dir e m :
  e ∈ dir -> hidden e = false -> d_stat e = Some (true, m) ->
  (m <= newest_mtime acc dir)%Z.
Proof.
  revert acc. induction dir as [|x dir IH]; intros acc He Hh Hs; [by inversion He|].
  apply elem_of_cons in He as [<-|He].
  - simpl. rewrite Hh, Hs. destruct (Z.ltb_spec acc m) as [Hlt|Hge].
    + apply newest_mtime_ge.
    + pose proof (newest_mtime_ge acc dir). lia.
  - simpl. destruct (hidden x); [by apply IH|].
    destruct (d_stat x) as [[[] mx]|]; by apply IH.
Qed.

Lemma newest_mtime_attained acc dir :
  newest_mtime acc dir = acc \/
  exists e, e ∈ dir /\ hidden e = false /\ d_stat e = Some (true, newest_mtime acc dir).
Proof.
  revert acc. induction dir as [|x dir IH]; intros acc; simpl; [by left|].
  assert (Hkeep : newest_mtime acc dir = acc \/
                  exists e, e ∈ x :: dir /\ hidden e = false /\
                            d_stat e = Some (true, newest_mtime acc dir)).
  { destruct (IH acc) as [H|(e & He & Hh & Hs)]; [by left|].
    right. exists e. split; [by apply elem_of_cons; right | done]. }
  destruct (hidden x) eqn:Hx; [done|].
  destruct (d_stat x) as [[[] mx]|] eqn:Hsx; try done.
  destruct (Z.ltb_spec acc mx) as [Hlt|Hge]; [|done].
  right. destruct (IH mx) as [Hmx|(e & He & Hh & Hs)].
  - exists x. rewrite Hmx. split; [by apply elem_of_cons; left | done].
  - exists e. split; [by apply elem_of_cons; right | done].
Qed.

(** [get_recording_status] returns 1 or 0; it returns 1 exactly when the
    service runs, the directory of the recordings can be opened, and
    either it holds a regular file, with a name that does not start with a
    dot, modified less than 300 seconds ago, or the clock itself is below
    300. *)
Theorem get_recording_status_active (rtsp : Z) (dir : option (list DirEntry)) (now : Z) :
  (get_recording_status rtsp dir now = 1%Z \/ get_recording_status rtsp dir now = 0%Z) /\
  (get_recording_status rtsp dir now = 1%Z <->
   rtsp <> 0%Z /\
   exists entries,
     dir = Some entries /\
     ((now < 300)%Z \/
      exists e m, e ∈ entries /\ hidden e = false /\ d_stat e = Some (true, m) /\
                  (now - m < 300)%Z)).
Proof.
  unfold get_recording_status, RECORDING_TIMEOUT.
  destruct (Z.eqb_spec rtsp 0) as [Hr|Hr].
  { split; [by right|]. split; [done | by intros [H _]]. }
  destruct dir as [entries|].
  2:{ split; [by right|]. split; [done | by intros [_ (? & ? & _)]]. }
  destruct (Z.ltb_spec (now - newest_mtime 0 entries) 300) as [Hlt|Hge].
  - split; [by left|]. split; [|done]. intros _. split; [done|].
    exists entries. split; [done|].
    destruct (newest_mtime_attained 0 entries) as [H0|(e & He & Hh & Hs)].
    + left. lia.
    + right. by exists e, (newest_mtime 0 entries).
  - split; [by right|]. split; [done|].
    intros [_ (es & Hes & [Hnow|(e & m & He & Hh & Hs & Hm)])]; inversion Hes; subst.
    + pose proof (newest_mtime_ge 0 es). lia.
    + pose proof (newest_mtime_upper 0 es e m He Hh Hs). lia.
Qed.

Lemma long_to_int_fits z : (INT_MIN <= z <= INT_MAX)%Z -> long_to_int z = z.
Proof.
  unfold long_to_int, INT_MIN, INT_MAX. intros H.
  rewrite Z.mod_small; lia.
Qed.

(** For an uptime that is not negative and whose days fit an [int]
    (less than 2^31 days), [get_uptime] shows the uptime rounded down to
    the minute: hours below 24, minutes below 60, days, hours and minutes
    together less than a minute short of the uptime; the days are left out
    below one day, and the hours too below one hour. *)
Theorem get_uptime_fields (uptime : Z) :
  (0 <= uptime < 86400 * 2147483648)%Z ->
  (0 <= uptime_days uptime)%Z /\
  (0 <= uptime_hours uptime < 24)%Z /\
  (0 <= uptime_minutes uptime < 60)%Z /\
  (0 <= uptime - (86400 * uptime_days uptime + 3600 * uptime_hours uptime
                  + 60 * uptime_minutes uptime) < 60)%Z /\
  get_uptime (Some uptime)
  = (if (uptime <? 3600)%Z then itoa (uptime_minutes uptime) ++ s2l "m"
     else if (uptime <? 86400)%Z
          then itoa (uptime_hours uptime) ++ s2l "h " ++ itoa (uptime_minutes uptime)
               ++ s2l "m"
          else itoa (uptime_days uptime) ++ s2l "d " ++ itoa (uptime_hours uptime)
               ++ s2l "h " ++ itoa (uptime_minutes uptime) ++ s2l "m").
Proof.
  intros [H Hup].
  assert (Hd : (0 <= uptime / 86400)%Z) by (apply Z.div_pos; lia).
  pose proof (Z.mod_pos_bound uptime 86400 ltac:(lia)) as Hm1.
  pose proof (Z.mod_pos_bound uptime 3600 ltac:(lia)) as Hm2.
  assert (Hdays : uptime_days uptime = (uptime / 86400)%Z).
  { unfold uptime_days. rewrite Z.quot_div_nonneg by lia.
    apply long_to_int_fits. unfold INT_MIN, INT_MAX. split; [lia|].
    apply Z.lt_succ_r. apply Z.div_lt_upper_bound; lia. }
  assert (Hhours : uptime_hours uptime = (uptime mod 86400 / 3600)%Z).
  { unfold uptime_hours. rewrite Z.rem_mod_nonneg, Z.quot_div_nonneg by lia.
    apply long_to_int_fits. unfold INT_MIN, INT_MAX. split.
    - assert (0 <= uptime mod 86400 / 3600)%Z by (apply Z.div_pos; lia). lia.
    - apply Z.lt_succ_r. apply Z.div_lt_upper_bound; lia. }
  assert (Hminutes : uptime_minutes uptime = (uptime mod 3600 / 60)%Z).
  { unfold uptime_minutes. rewrite Z.rem_mod_nonneg, Z.quot_div_nonneg by lia.
    apply long_to_int_fits. unfold INT_MIN, INT_MAX. split.
    - assert (0 <= uptime mod 3600 / 60)%Z by (apply Z.div_pos; lia). lia.
    - apply Z.lt_succ_r. apply Z.div_lt_upper_bound; lia. }
  unfold get_uptime. rewrite Hdays, Hhours, Hminutes.
  pose proof (Z.div_mod uptime 86400 ltac:(lia)) as E1.
  pose proof (Z.div_mod (uptime mod 86400) 3600 ltac:(lia)) as E2.
  pose proof (Z.div_mod (uptime mod 3600) 60 ltac:(lia)) as E3.
  pose proof (Z.mod_pos_bound (uptime mod 86400) 3600 ltac:(lia)) as Hm3.
  pose proof (Z.mod_pos_bound (uptime mod 3600) 60 ltac:(lia)) as Hm4.
  assert (E4 : ((uptime mod 86400) mod 3600 = uptime mod 3600)%Z).
  { symmetry. rewrite E1 at 1. replace (86400 * (uptime / 86400))%Z
      with ((24 * (uptime / 86400)) * 3600)%Z by lia.
    rewrite Z.add_comm, Z.mod_add by lia. done. }
  assert (Hh : (0 <= uptime mod 86400 / 3600 < 24)%Z).
  { split; [apply Z.div_pos; lia|]. apply Z.div_lt_upper_bound; lia. }
  assert (Hmin : (0 <= uptime mod 3600 / 60 < 60)%Z).
  { split; [apply Z.div_pos; lia|]. apply Z.div_lt_upper_bound; lia. }
  repeat split; try lia.
  destruct (Z.ltb_spec uptime 3600) as [Hs|Hs].
  - assert ((uptime / 86400 = 0)%Z) as -> by (apply Z.div_small; lia).
    assert ((uptime mod 86400 / 3600 = 0)%Z) as ->.
    { rewrite Z.mod_small by lia. apply Z.div_small; lia. }
    done.
  - destruct (Z.ltb_spec uptime 86400) as [Hs2|Hs2].
    + assert ((uptime / 86400 = 0)%Z) as -> by (apply Z.div_small; lia).
      simpl. destruct (Z.ltb_spec 0 (uptime mod 86400 / 3600)) as [|Hz]; [done|].
      exfalso. rewrite Z.mod_small in Hz by lia.
      assert (1 <= uptime / 3600)%Z by (apply Z.div_le_lower_bound; lia). lia.
    + destruct (Z.ltb_spec 0 (uptime / 86400)) as [|Hz]; [done|].
      exfalso. assert (1 <= uptime / 86400)%Z by (apply Z.div_le_lower_bound; lia). lia.
Qed.

Lemma get_uptime_fields_witness :
  (0 <= uptime_days 93784)%Z /\
  (0 <= uptime_hours 93784 < 24)%Z /\
  (0 <= uptime_minutes 93784 < 60)%Z /\
  (0 <= 93784 - (86400 * uptime_days 93784 + 3600 * uptime_hours 93784
                 + 60 * uptime_minutes 93784) < 60)%Z /\
  get_uptime (Some 93784%Z)
  = (if (93784 <? 3600)%Z then itoa (uptime_minutes 93784) ++ s2l "m"
     else if (93784 <? 86400)%Z
          then itoa (uptime_hours 93784) ++ s2l "h " ++ itoa (uptime_minutes 93784)
               ++ s2l "m"
          else itoa (uptime_days 93784) ++ s2l "d " ++ itoa (uptime_hours 93784)
               ++ s2l "h " ++ itoa (uptime_minutes 93784) ++ s2l "m").
Proof. apply (get_uptime_fields 93784%Z). lia. Defined.

(** ** The LEDs *)

(** The word [set_led] writes for one of the bits 0 to 14: its
    write-enable half has the bit of the LED set and no other, its data
    half has that bit set exactly when the state is not 0, and no other. *)
Theorem set_led_word_bits (bit state i : Z) :
  (0 <= bit < 15)%Z -> (0 <= i)%Z ->
  Z.testbit (set_led_word bit state) i
  = (i =? bit + 16)%Z || ((i =? bit)%Z && negb (state =? 0)%Z).
Proof.
  intros Hb Hi. unfold set_led_word, uint32.
  destruct (Z.ltb_spec i 32) as [Hlt|Hge].
  - rewrite Z.mod_pow2_bits_low by lia. rewrite Z.lor_spec, Z.shiftl_1_l.
    rewrite Z.pow2_bits_eqb by lia. rewrite (Z.eqb_sym (bit + 16) i). f_equal.
    destruct (Z.eqb_spec state 0) as [Hs|Hs]; simpl.
    + rewrite Z.shiftl_0_l, Z.bits_0. by rewrite andb_false_r.
    + rewrite Z.shiftl_1_l, Z.pow2_bits_eqb by lia.
      rewrite (Z.eqb_sym bit i). by rewrite andb_true_r.
  - rewrite Z.mod_pow2_bits_high by lia.
    destruct (Z.eqb_spec i (bit + 16)); [lia|].
    destruct (Z.eqb_spec i bit); [lia|]. done.
Qed.

Lemma set_led_word_bits_witness :
  Z.testbit (set_led_word LED2_BIT 1) 22
  = (22 =? LED2_BIT + 16)%Z || ((22 =? LED2_BIT)%Z && negb (1 =? 0)%Z).
Proof. apply (set_led_word_bits LED2_BIT 1 22); unfold LED2_BIT; lia. Defined.
